(** * arcaea.js: chart model, timing conversion, judge timings, arc groups

    A shallow embedding of the chart model of [src/arcaea.js] and of the
    algorithms that work on it, followed by the properties proved about them.

    Number model.  A JavaScript number is an IEEE double.  Here the finite
    values are exact: rationals ([Q]) in the conversion engine, the judge
    timings and the arc groups, decimals ([number], which also has [NaN] and
    the infinities) in the chart codec, which reads and prints decimal
    numerals.  Rounding of doubles, overflow and the sign of zero are
    idealised away; [Math.floor] is [Qfloor].  A group whose base tempo or
    whose drop rate is zero divides by zero in the source (giving
    [Infinity] or [NaN]); the theorems about conversion exclude those
    inputs by hypothesis.

    Exact arithmetic and doubles part ways where a double is rounded just
    before a floor, a comparison with a threshold or an equality.  The
    theorems are stated so that they hold of the doubles as well: an order
    is stated as an order, a value that the source floors after a division
    is given to within the millisecond the floor can lose, and a theorem
    that gives a value exactly asks for inputs on which doubles are exact
    (whole milliseconds, whole intervals, integers of at most 2^53).

    Exceptions are results ([Throw]); the singletons the source reads
    ([GameplayManager.instance], [TimingManager.instance.dropRate]) are
    parameters; objects mutated in place are passed and returned. *)

From Stdlib Require Import ZArith QArith Qround Qabs Qminmax List String Ascii Bool Lia Lqa.
From Stdlib Require Import DecimalString DecimalPos DecimalN Sorted Permutation.
From Stdlib Require DecimalFacts.
Import ListNotations.

Set Implicit Arguments.

Local Open Scope Q_scope.

(** ** Exceptions *)

Inductive exn : Type :=
| AffFormatError (msg : string)
| AffExportError (msg : string)
| TypeError
| RangeError.

Inductive result (A : Type) : Type :=
| Ok (a : A)
| Throw (e : exn).

Arguments Ok {A} a.
Arguments Throw {A} e.

Definition bind {A B : Type} (r : result A) (k : A -> result B) : result B :=
  match r with
  | Ok a => k a
  | Throw e => Throw e
  end.

Notation "x <- r ;; k" := (bind r (fun x => k))
  (at level 61, r at next level, right associativity).

(** ** Comparisons of finite numbers *)

Definition Qlt_bool (x y : Q) : bool := negb (Qle_bool y x).

(** [x || 1] on numbers: zero is falsy. *)
Definition or_one (x : Q) : Q := if Qeq_bool x 0 then 1 else x.

(** ** The event records

    The records are parametric in the carrier [N] of their numeric fields:
    the parser fills them with [number]s (which include [NaN]), the
    conversion engine reads them over [Q].  [timingGroup] is the index of
    the owning group in [chart.timingGroups]; it stands for the reference
    the source stores. *)

Module Vector2.
Record t (N : Type) : Type := new { x : N; y : N }.
Arguments new {N}.
Arguments x {N}.
Arguments y {N}.
End Vector2.

Module Vector3.
Record t (N : Type) : Type := new { x : N; y : N; z : N }.
Arguments new {N}.
Arguments x {N}.
Arguments y {N}.
Arguments z {N}.
End Vector3.

Module TapNote.
Record t (N : Type) : Type := new { timingGroup : nat; time : N; lane : N }.
Arguments new {N}.
Arguments timingGroup {N}.
Arguments time {N}.
Arguments lane {N}.
End TapNote.

Module HoldNote.
Record t (N : Type) : Type := new {
  timingGroup : nat;
  time : N;
  endTime : N;
  lane : N;
  judgeTimings : list Z
}.
Arguments new {N}.
Arguments timingGroup {N}.
Arguments time {N}.
Arguments endTime {N}.
Arguments lane {N}.
Arguments judgeTimings {N}.
End HoldNote.

Module ArctapNote.
Record t (N : Type) : Type := new { timingGroup : nat; time : N }.
Arguments new {N}.
Arguments timingGroup {N}.
Arguments time {N}.
End ArctapNote.

Module Arc.
(** [arcGroup] is a reference into the store of group arrays kept by
    [ArcManager_calculateArcRelationship]; [None] is [null]. *)
Record t (N : Type) : Type := new {
  timingGroup : nat;
  time : N;
  endTime : N;
  start : Vector2.t N;
  end_ : Vector2.t N;
  lineType : string;
  color : N;
  isVoid : bool;
  arcTaps : list (ArctapNote.t N);
  arcGroup : option nat;
  judgeTimings : list Z;
  renderHead : bool
}.
Arguments new {N}.
Arguments timingGroup {N}.
Arguments time {N}.
Arguments endTime {N}.
Arguments start {N}.
Arguments end_ {N}.
Arguments lineType {N}.
Arguments color {N}.
Arguments isVoid {N}.
Arguments arcTaps {N}.
Arguments arcGroup {N}.
Arguments judgeTimings {N}.
Arguments renderHead {N}.
End Arc.

Module TimingEvent.
Record t (N : Type) : Type := new {
  timingGroup : nat;
  time : N;
  bpm : N;
  beatsPerLine : N
}.
Arguments new {N}.
Arguments timingGroup {N}.
Arguments time {N}.
Arguments bpm {N}.
Arguments beatsPerLine {N}.
End TimingEvent.

Module CameraEvent.
Record t (N : Type) : Type := new {
  timingGroup : nat;
  time : N;
  translation : Vector3.t N;
  rotation : Vector3.t N;
  type : string;
  duration : N
}.
Arguments new {N}.
Arguments timingGroup {N}.
Arguments time {N}.
Arguments translation {N}.
Arguments rotation {N}.
Arguments type {N}.
Arguments duration {N}.
End CameraEvent.

(** The subclasses of [ArcaeaEvent] that a group's [events] array holds. *)
Inductive ArcaeaEvent (N : Type) : Type :=
| EvTap (e : TapNote.t N)
| EvHold (e : HoldNote.t N)
| EvArc (e : Arc.t N)
| EvTiming (e : TimingEvent.t N)
| EvCamera (e : CameraEvent.t N).

Arguments EvTap {N} e.
Arguments EvHold {N} e.
Arguments EvArc {N} e.
Arguments EvTiming {N} e.
Arguments EvCamera {N} e.

Module TimingGroup.
Record t (N : Type) : Type := new {
  isPrimary : bool;
  events : list (ArcaeaEvent N)
}.
Arguments new {N}.
Arguments isPrimary {N}.
Arguments events {N}.
End TimingGroup.

(** ** The singletons read by the conversion engine *)

Module GameplayManager.
(** [offset] is [audioManager.offset]; [timing] and [length] are the
    getters of the same names, both [Math.floor] of a clock value. *)
Record t : Type := instance { offset : Q; timing : Z; length : Z }.
End GameplayManager.

(** ** TimingGroup: the conversion engine *)

(** [events.filter(n => n instanceof TimingEvent)] *)
Fixpoint filter_timing (es : list (ArcaeaEvent Q)) : list (TimingEvent.t Q) :=
  match es with
  | [] => []
  | EvTiming e :: es' => e :: filter_timing es'
  | _ :: es' => filter_timing es'
  end.

(** [.sort((a, b) => a.time - b.time)]: the sort is stable, so the result
    is the one of any stable sort; insertion from the right is one. *)
Fixpoint insert_by_time (e : TimingEvent.t Q) (l : list (TimingEvent.t Q))
  : list (TimingEvent.t Q) :=
  match l with
  | [] => [e]
  | e' :: l' =>
      if Qle_bool (TimingEvent.time e) (TimingEvent.time e')
      then e :: e' :: l'
      else e' :: insert_by_time e l'
  end.

Fixpoint sort_by_time (l : list (TimingEvent.t Q)) : list (TimingEvent.t Q) :=
  match l with
  | [] => []
  | e :: l' => insert_by_time e (sort_by_time l')
  end.

Definition TimingGroup_getTimingEvents (g : TimingGroup.t Q)
  : list (TimingEvent.t Q) :=
  sort_by_time (filter_timing (TimingGroup.events g)).

(** [for(var i = lo; i < lo + n; i++) if(p(i)) { r = i; break; }] *)
Fixpoint first_index (p : nat -> bool) (lo n : nat) : option nat :=
  match n with
  | O => None
  | S n' => if p lo then Some lo else first_index p (S lo) n'
  end.

(** [for(var i = lo; i < lo + n; i++) if(p(i)) r = i;] starting from [r]. *)
Fixpoint last_index (p : nat -> bool) (lo n : nat) (r : nat) : nat :=
  match n with
  | O => r
  | S n' => last_index p (S lo) n' (if p lo then lo else r)
  end.

Section Engine.

Variable gm : GameplayManager.t.
(** [TimingManager.instance.dropRate] *)
Variable dropRate : Q.

Variable timings : list (TimingEvent.t Q).

(** [timings[i].time] and [timings[i].bpm], read with the first event as
    filler: the functions below index a non-empty array within its
    bounds only. *)
Definition time_at (d : TimingEvent.t Q) (i : nat) : Q :=
  TimingEvent.time (nth i timings d).

Definition bpm_at (d : TimingEvent.t Q) (i : nat) : Q :=
  TimingEvent.bpm (nth i timings d).

Definition TimingGroup_getBaseBpm : result Q :=
  match timings with
  | [] => Throw (AffFormatError
      "Invalid Arcaea file format. The timing group has no timing event.")
  | event :: _ => Ok (TimingEvent.bpm event)
  end.

Definition TimingGroup_getBpmByTiming (timing : Q) : result Q :=
  match timings with
  | [] => Throw TypeError
  | d :: _ =>
      match first_index
              (fun i => Qlt_bool (time_at d i) timing
                        && Qlt_bool timing (time_at d (i + 1)))
              0 (List.length timings - 1) with
      | Some i => Ok (bpm_at d i)
      | None => Ok (bpm_at d (List.length timings - 1))
      end
  end.

(** The interval test shared by the two conversions:
    [x >= timings[i].time + off && x < timings[i+1].time + off]. *)
Definition in_interval (d : TimingEvent.t Q) (off x : Q) (i : nat) : bool :=
  Qle_bool (time_at d i + off) x && Qlt_bool x (time_at d (i + 1) + off).

(** One round of the accumulation loop of [getPosByTimingWithStart]. *)
Definition pos_step (d : TimingEvent.t Q) (base current target : Q)
    (a b : nat) (pos : Q) (i : nat) : Q :=
  if Nat.eqb i a then
    pos + (time_at d (i + 1) + 0 - current) * bpm_at d i / base * dropRate
  else if negb (Nat.eqb i a) && negb (Nat.eqb i b) then
    pos + (time_at d (i + 1) - time_at d i - 0) * bpm_at d i / base * dropRate
  else if Nat.eqb i b then
    pos + (target - time_at d i + 0) * bpm_at d i / base * dropRate
  else pos.

Definition TimingGroup_getPosByTimingWithStart (start timing : Q) : result Q :=
  let offset := GameplayManager.offset gm in
  let reverse := Qlt_bool timing start in
  let current := (if reverse then timing else start) - offset in
  let target := (if reverse then start else timing) - offset in
  match timings with
  | [] =>
      (* no loop runs, the length guard fails, getBaseBpm throws *)
      _ <- TimingGroup_getBaseBpm ;; Ok 0
  | d :: _ =>
      let n := List.length timings in
      let a := match first_index (in_interval d 0 current) 0 (n - 1) with
               | Some i => i | None => O end in
      let b := match first_index (in_interval d 0 target) 0 (n - 1) with
               | Some i => i | None => O end in
      let a := if Qle_bool (time_at d (n - 1) + 0) current then (n - 1)%nat else a in
      let b := if Qle_bool (time_at d (n - 1) + 0) target then (n - 1)%nat else b in
      base <- TimingGroup_getBaseBpm ;;
      let pos :=
        if Nat.eqb a b then
          0 + (target - current) * bpm_at d a / base * dropRate
        else
          fold_left (pos_step d base current target a b)
                    (seq a (b + 1 - a)) 0 in
      Ok (if reverse then - pos else pos)
  end.

(** [getPosByTiming] reads the clock for the start. *)
Definition TimingGroup_getPosByTiming (timing : Q) : result Q :=
  TimingGroup_getPosByTimingWithStart
    (inject_Z (GameplayManager.timing gm)) timing.

(** The forward walk of [getTimingByPos].  [walk idx startPos depthCount]
    runs the loop body for the indices [idx]; it returns the index at which
    the loop broke, if it did, and [startPos] at that moment. *)
Definition walk_delta (d : TimingEvent.t Q) (base : Q) (start end_ i : nat) : Q :=
  let offset := GameplayManager.offset gm in
  let time := inject_Z (GameplayManager.timing gm) in
  let songLength := inject_Z (GameplayManager.length gm) in
  if Nat.eqb i start then
    (time_at d (i + 1) + offset - time) * (bpm_at d i / base) * dropRate
  else if negb (Nat.eqb i end_) && negb (Nat.eqb i start) then
    (time_at d (i + 1) - time_at d i) * (bpm_at d i / base) * dropRate
  else
    (songLength - time_at d i - offset) * (bpm_at d i / base) * dropRate.

Definition walk_brackets (start i : nat) (startPos delta endPos : Q) : bool :=
  if Nat.eqb i start then
    (Qle_bool (startPos + delta) endPos && Qle_bool endPos startPos)
    || (Qle_bool endPos (startPos + delta) && Qle_bool startPos endPos)
  else
    (Qlt_bool (startPos + delta) endPos && Qlt_bool endPos startPos)
    || (Qlt_bool endPos (startPos + delta) && Qlt_bool startPos endPos).

Fixpoint walk (d : TimingEvent.t Q) (base : Q) (start end_ : nat)
    (endPos depth : Q) (idx : list nat) (startPos : Q) (depthCount : nat)
  : option nat * Q :=
  match idx with
  | [] => (None, startPos)
  | i :: idx' =>
      let delta := walk_delta d base start end_ i in
      if walk_brackets start i startPos delta endPos then
        if Qeq_bool depth (inject_Z (Z.of_nat depthCount)) then
          (Some i, startPos)
        else
          walk d base start end_ endPos depth idx' (startPos + delta) (S depthCount)
      else
        walk d base start end_ endPos depth idx' (startPos + delta) depthCount
  end.

(** The two exits of [getTimingByPos]. *)
Definition clamp_floor (endTime : Q) : Q :=
  let songLength := inject_Z (GameplayManager.length gm) in
  if Qlt_bool songLength endTime then songLength
  else inject_Z (Qfloor endTime).

Definition TimingGroup_getTimingByPos (pos depth : Q) : result Q :=
  let offset := GameplayManager.offset gm in
  let time := inject_Z (GameplayManager.timing gm) in
  let songLength := inject_Z (GameplayManager.length gm) in
  match timings with
  | [] => Throw TypeError
  | d :: _ =>
      let end_ := (List.length timings - 1)%nat in
      let endPos := pos in
      let start := last_index (in_interval d offset time) 0 end_ 0 in
      let start := if Qle_bool (time_at d end_ + offset) time then end_ else start in
      base <- TimingGroup_getBaseBpm ;;
      if negb (Nat.eqb start end_) then
        let '(breakPos, startPos) :=
          walk d base start end_ endPos depth
               (seq start (end_ + 1 - start)) 0 0 in
        let delta := endPos - startPos in
        let endTime :=
          match breakPos with
          | Some i =>
              if Nat.eqb i start then
                if Qeq_bool delta 0 then
                  if Qeq_bool (bpm_at d i) 0 then time_at d i + offset
                  else time
                else
                  delta / ((or_one (bpm_at d i) / base) * dropRate) + time
              else
                delta / ((or_one (bpm_at d i) / base) * dropRate)
                + time_at d i + offset
          | None => songLength
          end in
        Ok (clamp_floor endTime)
      else
        let delta := endPos - 0 in
        let endTime :=
          delta / ((or_one (bpm_at d end_) / base) * dropRate) + time in
        Ok (clamp_floor endTime)
  end.

End Engine.

(** ** Judge timings of holds and arcs *)

(** The [while(true)] loop shared, word for word, by
    [HoldNote.calculateJudgeTimings] and [Arc.calculateJudgeTimings]:
<<
    while(true) {
        var t = Math.floor(this.time + n * interval);
        if(t < this.endTime) this.judgeTimings.push(t);
        if(total == ++n) break;
    }
>>
    [fuel] bounds the number of rounds; [None] means the bound was reached
    with the loop still running. *)
Fixpoint judge_loop (fuel : nat) (time interval endTime : Q) (total n : Z)
    (judgeTimings : list Z) : option (list Z) :=
  match fuel with
  | O => None
  | S fuel' =>
      let t := Qfloor (time + inject_Z n * interval) in
      let judgeTimings :=
        if Qlt_bool (inject_Z t) endTime then judgeTimings ++ [t]
        else judgeTimings in
      let n := (n + 1)%Z in
      if (total =? n)%Z then Some judgeTimings
      else judge_loop fuel' time interval endTime total n judgeTimings
  end.

(** [60000 / bpm / (bpm >= 255 ? 1 : 2)] *)
Definition judge_interval (bpm : Q) : Q :=
  60000 / bpm / (if Qle_bool 255 bpm then 1 else 2).

(** [Math.floor(this.time + (this.endTime - this.time) * 0.5)] *)
Definition judge_midpoint (time endTime : Q) : Z :=
  Qfloor (time + (endTime - time) * (5 # 10)).

(** [HoldNote.calculateJudgeTimings], on the timing events of the hold's
    group.  The guard is written [u ^ 1 > total] in the source; [>] binds
    tighter than [^], so it reads [u ^ (1 > total)], the comparison being
    converted to 0 or 1. *)
Definition HoldNote_calculateJudgeTimings (fuel : nat)
    (timings : list (TimingEvent.t Q)) (this : HoldNote.t Q)
  : option (result (HoldNote.t Q)) :=
  let set (l : list Z) :=
    HoldNote.new (HoldNote.timingGroup this) (HoldNote.time this)
                 (HoldNote.endTime this) (HoldNote.lane this) l in
  let u := 0%Z in
  match TimingGroup_getBpmByTiming timings (HoldNote.time this) with
  | Throw e => Some (Throw e)
  | Ok bpm =>
      if Qle_bool bpm 0 then Some (Ok (set []))
      else
        let interval := judge_interval bpm in
        let total :=
          Qfloor ((HoldNote.endTime this - HoldNote.time this) / interval) in
        if negb (Z.lxor u (if (1 >? total)%Z then 1 else 0) =? 0)%Z then
          Some (Ok (set [judge_midpoint (HoldNote.time this)
                                        (HoldNote.endTime this)]))
        else
          let n := Z.lxor u 1 in
          match judge_loop fuel (HoldNote.time this) interval
                           (HoldNote.endTime this) total n [] with
          | Some l => Some (Ok (set l))
          | None => None
          end
  end.

Definition Arc_set_judgeTimings (this : Arc.t Q) (l : list Z) : Arc.t Q :=
  Arc.new (Arc.timingGroup this) (Arc.time this) (Arc.endTime this)
          (Arc.start this) (Arc.end_ this) (Arc.lineType this)
          (Arc.color this) (Arc.isVoid this) (Arc.arcTaps this)
          (Arc.arcGroup this) l (Arc.renderHead this).

(** [Arc.calculateJudgeTimings]; here the guard is [(u ^ 1) >= total]. *)
Definition Arc_calculateJudgeTimings (fuel : nat)
    (timings : list (TimingEvent.t Q)) (this : Arc.t Q)
  : option (result (Arc.t Q)) :=
  let set := Arc_set_judgeTimings this in
  if Arc.isVoid this then Some (Ok (set []))
  else if Qeq_bool (Arc.endTime this) (Arc.time this) then Some (Ok (set []))
  else
    let u := if Arc.renderHead this then 0%Z else 1%Z in
    match TimingGroup_getBpmByTiming timings (Arc.time this) with
    | Throw e => Some (Throw e)
    | Ok bpm =>
        if Qle_bool bpm 0 then Some (Ok (set []))
        else
          let interval := judge_interval bpm in
          let total :=
            Qfloor ((Arc.endTime this - Arc.time this) / interval) in
          if (Z.lxor u 1 >=? total)%Z then
            Some (Ok (set [judge_midpoint (Arc.time this) (Arc.endTime this)]))
          else
            let n := Z.lxor u 1 in
            match judge_loop fuel (Arc.time this) interval
                             (Arc.endTime this) total n [] with
            | Some l => Some (Ok (set l))
            | None => None
            end
    end.

(** ** ArcManager: arc groups

    The arcs are objects mutated in place and the group arrays are shared
    between arcs, so the state is explicit: [arcs] is the array of the
    manager, an arc being identified by its index in it, and [store] holds
    the group arrays that have been created, a group array being a list of
    arc indices and a reference to it being its index in [store]. *)

Module ArcManager.
Record t : Type := new { arcs : list (Arc.t Q); store : list (list nat) }.
End ArcManager.

Fixpoint update_nth {A : Type} (i : nat) (f : A -> A) (l : list A) : list A :=
  match l, i with
  | [], _ => []
  | x :: l', O => f x :: l'
  | x :: l', S i' => x :: update_nth i' f l'
  end.

Definition Arc_set_arcGroup (g : option nat) (this : Arc.t Q) : Arc.t Q :=
  Arc.new (Arc.timingGroup this) (Arc.time this) (Arc.endTime this)
          (Arc.start this) (Arc.end_ this) (Arc.lineType this)
          (Arc.color this) (Arc.isVoid this) (Arc.arcTaps this)
          g (Arc.judgeTimings this) (Arc.renderHead this).

Definition Arc_set_renderHead (r : bool) (this : Arc.t Q) : Arc.t Q :=
  Arc.new (Arc.timingGroup this) (Arc.time this) (Arc.endTime this)
          (Arc.start this) (Arc.end_ this) (Arc.lineType this)
          (Arc.color this) (Arc.isVoid this) (Arc.arcTaps this)
          (Arc.arcGroup this) (Arc.judgeTimings this) r.

(** [array.indexOf(t) == -1] *)
Definition not_in_array (t : nat) (array : list nat) : bool :=
  negb (existsb (Nat.eqb t) array).

(** [if(array.indexOf(t) == -1) array.push(t)] *)
Definition push_if_absent (array : list nat) (t : nat) : list nat :=
  if not_in_array t array then array ++ [t] else array.

Definition set_arcGroup (i : nat) (g : option nat) (m : ArcManager.t)
  : ArcManager.t :=
  ArcManager.new (update_nth i (Arc_set_arcGroup g) (ArcManager.arcs m))
                 (ArcManager.store m).

Definition set_renderHead (i : nat) (r : bool) (m : ArcManager.t)
  : ArcManager.t :=
  ArcManager.new (update_nth i (Arc_set_renderHead r) (ArcManager.arcs m))
                 (ArcManager.store m).

Definition update_array (g : nat) (f : list nat -> list nat) (m : ArcManager.t)
  : ArcManager.t :=
  ArcManager.new (ArcManager.arcs m) (update_nth g f (ArcManager.store m)).

(** [Math.abs(a.end.x - b.start.x) < 0.1 && Math.abs(a.endTime - b.time) <= 9
     && a.end.y == b.start.y] *)
Definition arcs_touch (a b : Arc.t Q) : bool :=
  Qlt_bool (Qabs (Vector2.x (Arc.end_ a) - Vector2.x (Arc.start b))) (1 # 10)
  && Qle_bool (Qabs (Arc.endTime a - Arc.time b)) 9
  && Qeq_bool (Vector2.y (Arc.end_ a)) (Vector2.y (Arc.start b)).

(** The body of the inner [forEach] of the pairing loop, for the arcs of
    indices [ia] and [ib]. *)
Definition relate (ia ib : nat) (m : ArcManager.t) : ArcManager.t :=
  if Nat.eqb ia ib then m
  else
    match nth_error (ArcManager.arcs m) ia, nth_error (ArcManager.arcs m) ib with
    | Some a, Some b =>
        if arcs_touch a b then
          let m :=
            if Qeq_bool (Arc.color a) (Arc.color b)
               && Bool.eqb (Arc.isVoid a) (Arc.isVoid b)
               && Nat.eqb (Arc.timingGroup a) (Arc.timingGroup b)
            then
              let '(m, ga) :=
                match Arc.arcGroup a, Arc.arcGroup b with
                | None, Some gb => (set_arcGroup ia (Some gb) m, gb)
                | Some ga, None => (set_arcGroup ib (Some ga) m, ga)
                | Some ga, Some gb =>
                    let bs := nth gb (ArcManager.store m) [] in
                    let m := update_array ga
                               (fun array => fold_left push_if_absent bs array) m in
                    (set_arcGroup ib (Some ga) m, ga)
                | None, None =>
                    let r := List.length (ArcManager.store m) in
                    let m := ArcManager.new (ArcManager.arcs m)
                                            (ArcManager.store m ++ [[ia]]) in
                    (set_arcGroup ia (Some r) (set_arcGroup ib (Some r) m), r)
                end in
              update_array ga (fun array => push_if_absent array ib) m
            else m in
          if Bool.eqb (Arc.isVoid a) (Arc.isVoid b)
          then set_renderHead ib false m
          else m
        else m
    | _, _ => m
    end.

(** [array.sort((a, b) => a.time - b.time)] on an array of arcs. *)
Fixpoint insert_arc (arcs : list (Arc.t Q)) (i : nat) (l : list nat) : list nat :=
  match l with
  | [] => [i]
  | j :: l' =>
      match nth_error arcs i, nth_error arcs j with
      | Some a, Some b =>
          if Qle_bool (Arc.time a) (Arc.time b) then i :: j :: l'
          else j :: insert_arc arcs i l'
      | _, _ => i :: j :: l'
      end
  end.

Fixpoint sort_arcs (arcs : list (Arc.t Q)) (l : list nat) : list nat :=
  match l with
  | [] => []
  | i :: l' => insert_arc arcs i (sort_arcs arcs l')
  end.

(** The body of the third loop: a group for the arcs left without one,
    then the sort of the arc's group array. *)
Definition settle (ia : nat) (m : ArcManager.t) : ArcManager.t :=
  match nth_error (ArcManager.arcs m) ia with
  | Some a =>
      let '(m, g) :=
        match Arc.arcGroup a with
        | None =>
            let r := List.length (ArcManager.store m) in
            (set_arcGroup ia (Some r)
               (ArcManager.new (ArcManager.arcs m) (ArcManager.store m ++ [[ia]])),
             r)
        | Some g => (m, g)
        end in
      update_array g (sort_arcs (ArcManager.arcs m)) m
  | None => m
  end.

(** The last loop: [a.calculateJudgeTimings()] for every arc;
    [timingsOf g] are the timing events of the group of index [g]. *)
Fixpoint judge_all (fuel : nat) (timingsOf : nat -> list (TimingEvent.t Q))
    (arcs : list (Arc.t Q)) : option (result (list (Arc.t Q))) :=
  match arcs with
  | [] => Some (Ok [])
  | a :: arcs' =>
      match Arc_calculateJudgeTimings fuel (timingsOf (Arc.timingGroup a)) a with
      | None => None
      | Some (Throw e) => Some (Throw e)
      | Some (Ok a') =>
          match judge_all fuel timingsOf arcs' with
          | None => None
          | Some (Throw e) => Some (Throw e)
          | Some (Ok l) => Some (Ok (a' :: l))
          end
      end
  end.

Definition ArcManager_calculateArcRelationship (fuel : nat)
    (timingsOf : nat -> list (TimingEvent.t Q)) (arcs : list (Arc.t Q))
  : option (result ArcManager.t) :=
  let idx := seq 0 (List.length arcs) in
  let m := ArcManager.new
             (map (fun a => Arc_set_renderHead true (Arc_set_arcGroup None a)) arcs)
             [] in
  let m := fold_left (fun m ia => fold_left (fun m ib => relate ia ib m) idx m)
                     idx m in
  let m := fold_left (fun m ia => settle ia m) idx m in
  match judge_all fuel timingsOf (ArcManager.arcs m) with
  | None => None
  | Some (Throw e) => Some (Throw e)
  | Some (Ok arcs') => Some (Ok (ArcManager.new arcs' (ArcManager.store m)))
  end.

(** The group array an arc points at, as the list of the arcs' indices. *)
Definition arcGroup_of (m : ArcManager.t) (ia : nat) : option (list nat) :=
  match nth_error (ArcManager.arcs m) ia with
  | Some a =>
      match Arc.arcGroup a with
      | Some g => nth_error (ArcManager.store m) g
      | None => None
      end
  | None => None
  end.

(** ** JavaScript strings

    A chart is ASCII text; strings are [string]s of the Standard Library,
    one [ascii] per code unit. *)

Local Open Scope string_scope.

(** White space as [trim], [parseInt] and [parseFloat] skip it, among the
    code units below 256: the space, the no-break space, and the tab, line
    feed, vertical tab, form feed and carriage return. *)
Definition is_space (c : ascii) : bool :=
  let n := nat_of_ascii c in
  Nat.eqb n 32 || Nat.eqb n 160 || (Nat.leb 9 n && Nat.leb n 13).

Definition is_digit (c : ascii) : bool :=
  let n := nat_of_ascii c in
  Nat.leb 48 n && Nat.leb n 57.

(** What [.] matches in a regular expression: no line terminator. *)
Definition is_dot (c : ascii) : bool :=
  let n := nat_of_ascii c in
  negb (Nat.eqb n 10 || Nat.eqb n 13).

Fixpoint rev_append (s acc : string) : string :=
  match s with
  | EmptyString => acc
  | String c s' => rev_append s' (String c acc)
  end.

Fixpoint trimStart (s : string) : string :=
  match s with
  | EmptyString => EmptyString
  | String c s' => if is_space c then trimStart s' else s
  end.

Definition trim (s : string) : string :=
  rev_append (trimStart (rev_append (trimStart s) "")) "".

(** [s.startsWith(p)] *)
Definition startsWith (p s : string) : bool := String.prefix p s.

(** [s.indexOf(c)] for a one-character [c]; [None] is [-1]. *)
Fixpoint indexOf (c : ascii) (s : string) : option nat :=
  match s with
  | EmptyString => None
  | String c' s' =>
      if Ascii.eqb c c' then Some O
      else match indexOf c s' with
           | Some i => Some (S i)
           | None => None
           end
  end.

(** [s.substring(a, b)]: both ends are clamped to the length and swapped
    when out of order. *)
Definition substring (a b : nat) (s : string) : string :=
  let a := Nat.min a (String.length s) in
  let b := Nat.min b (String.length s) in
  String.substring (Nat.min a b) (Nat.max a b - Nat.min a b) s.

(** [s.split(c)] for a one-character separator. *)
Fixpoint split_acc (c : ascii) (s : string) (cur : string) : list string :=
  match s with
  | EmptyString => [rev_append cur ""]
  | String c' s' =>
      if Ascii.eqb c c' then rev_append cur "" :: split_acc c s' ""
      else split_acc c s' (String c' cur)
  end.

Definition split (c : ascii) (s : string) : list string := split_acc c s "".

(** [l.join("")] *)
Definition join (l : list string) : string := String.concat "" l.

(** ** Regular expressions

    A regular expression is embedded as a backtracking matcher in
    continuation-passing style: it is given the rest of the input, the
    groups captured so far and what has to match afterwards, and answers
    with the captures of the first successful way to match, in the order
    in which a backtracking engine tries them. *)

Definition captures : Type := list (option string).
Definition cont : Type := string -> captures -> option captures.
Definition regex : Type := string -> captures -> cont -> option captures.

Definition re_lit (l : string) : regex :=
  fun s caps k =>
    if String.prefix l s
    then k (String.substring (String.length l) (String.length s - String.length l) s) caps
    else None.

Definition re_seq (r1 r2 : regex) : regex :=
  fun s caps k => r1 s caps (fun s' caps' => r2 s' caps' k).

Notation "r1 +++ r2" := (re_seq r1 r2) (at level 60, right associativity).

(** [c*?]: as few characters of the class as the rest allows. *)
Fixpoint re_star_lazy (cls : ascii -> bool) (s : string) (caps : captures)
    (k : cont) : option captures :=
  match k s caps with
  | Some r => Some r
  | None =>
      match s with
      | EmptyString => None
      | String c s' => if cls c then re_star_lazy cls s' caps k else None
      end
  end.

(** [c+?] *)
Definition re_plus_lazy (cls : ascii -> bool) : regex :=
  fun s caps k =>
    match s with
    | EmptyString => None
    | String c s' => if cls c then re_star_lazy cls s' caps k else None
    end.

(** [c*]: as many characters of the class as the rest allows. *)
Fixpoint re_star (cls : ascii -> bool) (s : string) (caps : captures)
    (k : cont) : option captures :=
  match s with
  | EmptyString => k s caps
  | String c s' =>
      if cls c then
        match re_star cls s' caps k with
        | Some r => Some r
        | None => k s caps
        end
      else k s caps
  end.

(** [(?:r)?] where [r] holds [n] groups, which stay undefined when [r] is
    left out. *)
Definition re_opt (n : nat) (r : regex) : regex :=
  fun s caps k =>
    match r s caps k with
    | Some c => Some c
    | None => k s (caps ++ repeat None n)%list
    end.

(** [(r)]: the text matched by [r] is the next capture.  The groups of the
    expressions below are not nested, so they close in the order of their
    numbers. *)
Definition re_group (r : regex) : regex :=
  fun s caps k =>
    r s caps (fun s' caps' =>
      k s' (caps' ++ [Some (String.substring 0 (String.length s - String.length s') s)])%list).

(** [s.match(r)] for a non-global [r]: the leftmost match; the answer lists
    the groups 1, 2, ... *)
Fixpoint re_match (r : regex) (s : string) : option captures :=
  match r s [] (fun _ caps => Some caps) with
  | Some caps => Some caps
  | None =>
      match s with
      | EmptyString => None
      | String _ s' => re_match r s'
      end
  end.

(** [result[i]], for [i >= 1]; [None] is [undefined]. *)
Definition group (caps : captures) (i : nat) : option string :=
  nth (i - 1) caps None.

(** [(.*?)] and [(\d+?)] *)
Definition any_lazy : regex := re_group (re_star_lazy is_dot).
Definition digits_lazy : regex := re_group (re_plus_lazy is_digit).

(** ** Numbers of the chart text

    What the parser reads and the exporter prints are decimal numerals, so
    the numeric fields of a parsed chart are kept as exact decimals:
    [Dec m k] is [m / 10^k].  [mk_dec] keeps them canonical (no trailing
    zero in the fraction), so equal values are equal terms. *)

Inductive number : Type :=
| NaN
| Infinity (negative : bool)
| Dec (m : Z) (k : nat).

Fixpoint mk_dec (m : Z) (k : nat) : number :=
  match k with
  | O => Dec m O
  | S k' => if (m mod 10 =? 0)%Z then mk_dec (m / 10) k' else Dec m k
  end.

(** The finite values, as the conversion engine reads them. *)
Definition number_to_Q (x : number) : option Q :=
  match x with
  | Dec m k => Some (inject_Z m / inject_Z (10 ^ Z.of_nat k))%Q
  | _ => None
  end.

(** [x + y] *)
Definition number_add (x y : number) : number :=
  match x, y with
  | NaN, _ | _, NaN => NaN
  | Infinity a, Infinity b => if Bool.eqb a b then Infinity a else NaN
  | Infinity a, _ | _, Infinity a => Infinity a
  | Dec m1 k1, Dec m2 k2 =>
      let k := Nat.max k1 k2 in
      mk_dec (m1 * 10 ^ Z.of_nat (k - k1) + m2 * 10 ^ Z.of_nat (k - k2)) k
  end.

Fixpoint take_while (p : ascii -> bool) (s : string) : string * string :=
  match s with
  | EmptyString => (EmptyString, EmptyString)
  | String c s' =>
      if p c then let '(a, b) := take_while p s' in (String c a, b)
      else (EmptyString, s)
  end.

(** The value of a hexadecimal digit, if it is one. *)
Definition hex_value (c : ascii) : option Z :=
  let n := nat_of_ascii c in
  if Nat.leb 48 n && Nat.leb n 57 then Some (Z.of_nat (n - 48))
  else if Nat.leb 65 n && Nat.leb n 70 then Some (Z.of_nat (n - 55))
  else if Nat.leb 97 n && Nat.leb n 102 then Some (Z.of_nat (n - 87))
  else None.

Definition is_hex (c : ascii) : bool :=
  match hex_value c with Some _ => true | None => false end.

Fixpoint digits_value (radix : Z) (s : string) (acc : Z) : Z :=
  match s with
  | EmptyString => acc
  | String c s' =>
      digits_value radix s'
        (acc * radix + match hex_value c with Some v => v | None => 0 end)
  end.

(** An optional sign: is it [-], and what follows it. *)
Definition take_sign (s : string) : bool * string :=
  match s with
  | String "-" s' => (true, s')
  | String "+" s' => (false, s')
  | _ => (false, s)
  end.

(** [parseInt(s)]: white space, a sign, [0x] for radix 16, then the longest
    run of digits; [NaN] when that run is empty. *)
Definition parseInt (s : string) : number :=
  let '(neg, s) := take_sign (trimStart s) in
  let '(radix, s, cls) :=
    match s with
    | String "0" (String "x" s') | String "0" (String "X" s') => (16%Z, s', is_hex)
    | _ => (10%Z, s, is_digit)
    end in
  let '(ds, _) := take_while cls s in
  match ds with
  | EmptyString => NaN
  | _ => let v := digits_value radix ds 0 in Dec (if neg then - v else v) O
  end.

(** [parseFloat(s)]: white space, then the longest prefix that is a decimal
    literal: a sign, [Infinity] or digits with an optional fraction and an
    optional exponent. *)
Definition parseFloat (s : string) : number :=
  let '(neg, s) := take_sign (trimStart s) in
  if String.prefix "Infinity" s then Infinity neg
  else
    let '(ip, s) := take_while is_digit s in
    let '(fp, s) :=
      match s with
      | String "." s' => take_while is_digit s'
      | _ => (EmptyString, s)
      end in
    match ip, fp with
    | EmptyString, EmptyString => NaN
    | _, _ =>
        let e :=
          match s with
          | String "e" s' | String "E" s' =>
              let '(eneg, s'') := take_sign s' in
              let '(ed, _) := take_while is_digit s'' in
              match ed with
              | EmptyString => 0%Z
              | _ => let v := digits_value 10 ed 0 in if eneg then (- v)%Z else v
              end
          | _ => 0%Z
          end in
        let m := digits_value 10 (ip ++ fp) 0 in
        let m := if neg then (- m)%Z else m in
        let e := (e - Z.of_nat (String.length fp))%Z in
        if (0 <=? e)%Z then Dec (m * 10 ^ e) O
        else mk_dec m (Z.to_nat (- e))
    end.

(** Decimal digits of a natural number. *)
Definition digits (a : Z) : string :=
  NilZero.string_of_uint (N.to_uint (Z.to_N a)).

Fixpoint zeros (n : nat) : string :=
  match n with
  | O => EmptyString
  | S n' => String "0" (zeros n')
  end.

Fixpoint drop_zeros (s : string) : string :=
  match s with
  | String "0" s' => drop_zeros s'
  | _ => s
  end.

Definition strip_zeros (s : string) : string :=
  rev_append (drop_zeros (rev_append s "")) "".

(** Digits [s] with the exponent [e]: [d.ddde+x]. *)
Definition exp_form (s : string) (e : Z) : string :=
  let mant :=
    match s with
    | String d EmptyString => s
    | String d rest => String d ("." ++ rest)
    | EmptyString => EmptyString
    end in
  mant ++ "e" ++ (if (e <? 0)%Z then "-" else "+") ++ digits (Z.abs e).

(** The conversion of a number to a string, as in a template literal.  For
    a double the digits are the shortest that read back as it; here they
    are the digits of the decimal itself. *)
Definition Number_toString (x : number) : string :=
  match x with
  | NaN => "NaN"
  | Infinity neg => if neg then "-Infinity" else "Infinity"
  | Dec m k =>
      match mk_dec m k with
      | Dec m k =>
          if (m =? 0)%Z then "0"
          else
            let sign := if (m <? 0)%Z then "-" else "" in
            let ds := digits (Z.abs m) in
            let n := (Z.of_nat (String.length ds) - Z.of_nat k)%Z in
            sign ++
            (if Nat.eqb k 0 then
               if (n <=? 21)%Z then ds else exp_form (strip_zeros ds) (n - 1)
             else if (0 <? n)%Z && (n <=? 21)%Z then
               String.substring 0 (Z.to_nat n) ds ++ "." ++
               String.substring (Z.to_nat n) (String.length ds - Z.to_nat n) ds
             else if (-6 <? n)%Z && (n <=? 0)%Z then
               "0." ++ zeros (Z.to_nat (- n)) ++ ds
             else exp_form ds (n - 1))
      | _ => "NaN"
      end
  end.

(** [x.toPrecision(p)]: [p] significant digits, a tie rounded away from
    zero; exponent form when the exponent is below -6 or at least [p]. *)
Definition Number_toPrecision (x : number) (p : Z) : result string :=
  match x with
  | Dec m k =>
      if (p <? 1)%Z || (100 <? p)%Z then Throw RangeError
      else
        let sign := if (m <? 0)%Z then "-" else "" in
        let '(ms, e) :=
          if (m =? 0)%Z then (zeros (Z.to_nat p), 0%Z)
          else
            let a := Z.abs m in
            let L := Z.of_nat (String.length (digits a)) in
            let e0 := (L - 1 - Z.of_nat k)%Z in
            let n :=
              if (L <=? p)%Z then (a * 10 ^ (p - L))%Z
              else
                let w := (10 ^ (L - p))%Z in
                (a / w + (if (w <=? 2 * (a mod w))%Z then 1 else 0))%Z in
            if (n =? 10 ^ p)%Z then (digits (10 ^ (p - 1)), (e0 + 1)%Z)
            else (digits n, e0) in
        Ok (sign ++
            (if (e <? -6)%Z || (p <=? e)%Z then exp_form ms e
             else if (e =? p - 1)%Z then ms
             else if (0 <=? e)%Z then
               String.substring 0 (Z.to_nat (e + 1)) ms ++ "." ++
               String.substring (Z.to_nat (e + 1))
                                (String.length ms - Z.to_nat (e + 1)) ms
             else "0." ++ zeros (Z.to_nat (- (e + 1))) ++ ms))
  | _ => Ok (Number_toString x)
  end.

(** [Utils.numTo2f]:
<<
    var d = (Math.abs(num) == 1 || Math.abs(num) == 0) ? 1 : Math.ceil(
        Math.log10(Math.abs(num)) + 0.00001);
    return num.toPrecision(2 + d);
>>
    [Math.ceil(Math.log10(a) + 0.00001)] is the least [d] with
    [a <= 10^d * 10^(-0.00001)]; it is decided on decimals with the
    constant [10^(-0.00001)] cut to sixteen digits,
    [0.9999769744141629]. *)
Definition ceil_log10_eps (m : Z) (k : nat) : Z :=
  let a := Z.abs m in
  let L := Z.of_nat (String.length (digits a)) in
  if (a * 10 ^ 16 <=? 9999769744141629 * 10 ^ L)%Z
  then (L - Z.of_nat k)%Z else (L - Z.of_nat k + 1)%Z.

Definition Utils_numTo2f (num : number) : result string :=
  match num with
  | Dec m k =>
      let d :=
        if (Z.abs m =? 10 ^ Z.of_nat k)%Z || (Z.abs m =? 0)%Z then 1%Z
        else ceil_log10_eps m k in
      Number_toPrecision num (2 + d)
  | _ => Ok (Number_toString num)
  end.

(** ** The events: parsing a line and printing it back *)

Definition nl : string := String "010" EmptyString.
Definition quote : string := String "034" EmptyString.

(** [result[i]] where a string is expected: [undefined] reads as its name. *)
Definition arg (caps : captures) (i : nat) : string :=
  match group caps i with
  | Some s => s
  | None => "undefined"
  end.

Definition comma_then (r : regex) : regex := re_lit "," +++ r.

(** [/\((.*?),(.*?)\)/] *)
Definition TapNote_regex : regex :=
  re_lit "(" +++ any_lazy +++ comma_then any_lazy +++ re_lit ")".

Definition TapNote_fromRaw (line : string) (timingGroup : nat)
  : result (TapNote.t number) :=
  match re_match TapNote_regex line with
  | None => Throw TypeError
  | Some r => Ok (TapNote.new timingGroup (parseInt (arg r 1)) (parseInt (arg r 2)))
  end.

Definition TapNote_export (this : TapNote.t number) (offset : number)
  : result string :=
  Ok ("(" ++ Number_toString (number_add (TapNote.time this) offset) ++ ","
      ++ Number_toString (TapNote.lane this) ++ ");").

(** [/hold\((.*?),(.*?),(.*?)\)/] *)
Definition HoldNote_regex : regex :=
  re_lit "hold(" +++ any_lazy +++ comma_then any_lazy +++ comma_then any_lazy
  +++ re_lit ")".

Definition HoldNote_fromRaw (line : string) (timingGroup : nat)
  : result (HoldNote.t number) :=
  match re_match HoldNote_regex line with
  | None => Throw TypeError
  | Some r =>
      Ok (HoldNote.new timingGroup (parseInt (arg r 1)) (parseInt (arg r 2))
                       (parseInt (arg r 3)) [])
  end.

Definition HoldNote_export (this : HoldNote.t number) (offset : number)
  : result string :=
  Ok ("hold(" ++ Number_toString (number_add (HoldNote.time this) offset) ++ ","
      ++ Number_toString (number_add (HoldNote.endTime this) offset) ++ ","
      ++ Number_toString (HoldNote.lane this) ++ ");").

Definition ArctapNote_export (this : ArctapNote.t number) (offset : number)
  : result string :=
  Ok ("arctap(" ++ Number_toString (number_add (ArctapNote.time this) offset)
      ++ ");").

(** [/arc\((\d+?),(\d+?),(.*?),(.*?),(.*?),(.*?),(.*?),(.*?),(.*?),(.*?)\)(?:\[(.*?)\])?;/]

    The constructor gives the arc an empty [arcGroup] array of its own,
    which nothing reads before [calculateArcRelationship] replaces it; the
    field is [None] in a parsed arc. *)
Definition Arc_regex : regex :=
  re_lit "arc(" +++ digits_lazy +++ comma_then digits_lazy
  +++ comma_then any_lazy +++ comma_then any_lazy +++ comma_then any_lazy
  +++ comma_then any_lazy +++ comma_then any_lazy +++ comma_then any_lazy
  +++ comma_then any_lazy +++ comma_then any_lazy +++ re_lit ")"
  +++ re_opt 1 (re_lit "[" +++ any_lazy +++ re_lit "]") +++ re_lit ";".

Definition Arc_fromRaw (line : string) (timingGroup : nat)
  : result (Arc.t number) :=
  if negb (startsWith "arc" line) then
    Throw (AffFormatError "The given data doesn't represent an arc.")
  else
    match re_match Arc_regex line with
    | None => Throw TypeError
    | Some event =>
        let arcTaps :=
          match group event 11 with
          | None | Some EmptyString => []
          | Some arctaps =>
              map (fun n =>
                     ArctapNote.new timingGroup
                       (parseInt (substring (String.length "arctap(")
                                            (String.length n - 1) n)))
                  (split "," arctaps)
          end in
        Ok (Arc.new timingGroup
              (parseInt (arg event 1)) (parseInt (arg event 2))
              (Vector2.new (parseFloat (arg event 3)) (parseFloat (arg event 6)))
              (Vector2.new (parseFloat (arg event 4)) (parseFloat (arg event 7)))
              (arg event 5) (parseInt (arg event 8))
              (String.eqb (arg event 10) "true")
              arcTaps None [] true)
    end.

(** A list of results in order, stopping at the first exception. *)
Fixpoint sequence {A : Type} (l : list (result A)) : result (list A) :=
  match l with
  | [] => Ok []
  | r :: l' => a <- r ;; (l'' <- sequence l' ;; Ok (a :: l''))
  end.

Definition Arc_export (this : Arc.t number) (offset : number) : result string :=
  xs <- Utils_numTo2f (Vector2.x (Arc.start this)) ;;
  xe <- Utils_numTo2f (Vector2.x (Arc.end_ this)) ;;
  ys <- Utils_numTo2f (Vector2.y (Arc.start this)) ;;
  ye <- Utils_numTo2f (Vector2.y (Arc.end_ this)) ;;
  let line :=
    "arc(" ++ Number_toString (number_add (Arc.time this) offset) ++ ","
    ++ Number_toString (number_add (Arc.endTime this) offset) ++ ","
    ++ xs ++ "," ++ xe ++ "," ++ Arc.lineType this ++ "," ++ ys ++ "," ++ ye
    ++ "," ++ Number_toString (Arc.color this) ++ ",none,"
    ++ (if Arc.isVoid this then "true" else "false") ++ ")" in
  match Arc.arcTaps this with
  | [] => Ok (line ++ ";")
  | taps =>
      ls <- sequence (map (fun t =>
                             l <- ArctapNote_export t offset ;;
                             Ok (substring 0 (String.length l - 1) l)) taps) ;;
      Ok (line ++ "[" ++ String.concat "," ls ++ "];")
  end.

(** [/timing\((.*?),(.*?),(.*?)\)/] *)
Definition TimingEvent_regex : regex :=
  re_lit "timing(" +++ any_lazy +++ comma_then any_lazy +++ comma_then any_lazy
  +++ re_lit ")".

Definition TimingEvent_fromRaw (line : string) (timingGroup : nat)
  : result (TimingEvent.t number) :=
  match re_match TimingEvent_regex line with
  | None => Throw TypeError
  | Some r =>
      Ok (TimingEvent.new timingGroup (parseInt (arg r 1))
                          (parseFloat (arg r 2)) (parseFloat (arg r 3)))
  end.

Definition TimingEvent_export (this : TimingEvent.t number) (offset : number)
  : result string :=
  bpm <- Utils_numTo2f (TimingEvent.bpm this) ;;
  beats <- Utils_numTo2f (TimingEvent.beatsPerLine this) ;;
  Ok ("timing(" ++ Number_toString (number_add (TimingEvent.time this) offset)
      ++ "," ++ bpm ++ "," ++ beats ++ ");").

(** [/camera\((.*?),(.*?),(.*?),(.*?),(.*?),(.*?),(.*?),(.*?),(.*?)\)/] *)
Definition CameraEvent_regex : regex :=
  re_lit "camera(" +++ any_lazy +++ comma_then any_lazy +++ comma_then any_lazy
  +++ comma_then any_lazy +++ comma_then any_lazy +++ comma_then any_lazy
  +++ comma_then any_lazy +++ comma_then any_lazy +++ comma_then any_lazy
  +++ re_lit ")".

Definition CameraEvent_fromRaw (line : string) (timingGroup : nat)
  : result (CameraEvent.t number) :=
  match re_match CameraEvent_regex line with
  | None => Throw TypeError
  | Some r =>
      Ok (CameraEvent.new timingGroup (parseInt (arg r 1))
            (Vector3.new (parseFloat (arg r 2)) (parseFloat (arg r 3))
                         (parseFloat (arg r 4)))
            (Vector3.new (parseFloat (arg r 5)) (parseFloat (arg r 6))
                         (parseFloat (arg r 7)))
            (arg r 8) (parseInt (arg r 9)))
  end.

Definition CameraEvent_export (this : CameraEvent.t number) (offset : number)
  : result string :=
  let t := CameraEvent.translation this in
  let r := CameraEvent.rotation this in
  Ok ("camera(" ++ Number_toString (number_add (CameraEvent.time this) offset)
      ++ "," ++ Number_toString (Vector3.x t) ++ "," ++ Number_toString (Vector3.y t)
      ++ "," ++ Number_toString (Vector3.z t) ++ "," ++ Number_toString (Vector3.x r)
      ++ "," ++ Number_toString (Vector3.y r) ++ "," ++ Number_toString (Vector3.z r)
      ++ "," ++ CameraEvent.type this ++ ","
      ++ Number_toString (CameraEvent.duration this) ++ ");").

(** [ArcaeaEvent.fromRaw]: [Ok None] is the [null] returned for a line
    without an opening parenthesis. *)
Definition ArcaeaEvent_fromRaw (line : string) (timingGroup : nat)
  : result (option (ArcaeaEvent number)) :=
  match indexOf "(" line with
  | None => Ok None
  | Some index =>
      let type := substring 0 index line in
      if String.eqb type "" then
        e <- TapNote_fromRaw line timingGroup ;; Ok (Some (EvTap e))
      else if String.eqb type "hold" then
        e <- HoldNote_fromRaw line timingGroup ;; Ok (Some (EvHold e))
      else if String.eqb type "arc" then
        e <- Arc_fromRaw line timingGroup ;; Ok (Some (EvArc e))
      else if String.eqb type "timing" then
        e <- TimingEvent_fromRaw line timingGroup ;; Ok (Some (EvTiming e))
      else if String.eqb type "camera" then
        e <- CameraEvent_fromRaw line timingGroup ;; Ok (Some (EvCamera e))
      else Throw (AffFormatError ("Unknown event type: " ++ type ++ "."))
  end.

(** [e.export(offset)], by the class of [e]. *)
Definition ArcaeaEvent_export (e : ArcaeaEvent number) (offset : number)
  : result string :=
  match e with
  | EvTap e => TapNote_export e offset
  | EvHold e => HoldNote_export e offset
  | EvArc e => Arc_export e offset
  | EvTiming e => TimingEvent_export e offset
  | EvCamera e => CameraEvent_export e offset
  end.

(** ** Chart *)

Module Chart.
Record t : Type := new {
  timingGroups : list (TimingGroup.t number);
  offset : number
}.
End Chart.

(** [TimingGroup.export] *)
Definition TimingGroup_export (this : TimingGroup.t number) (offset : number)
  : result string :=
  let isPrimary := TimingGroup.isPrimary this in
  ls <- sequence (map (fun e =>
                         l <- ArcaeaEvent_export e offset ;;
                         Ok ((if isPrimary then "" else "    ") ++ l ++ nl))
                      (TimingGroup.events this)) ;;
  Ok ((if isPrimary then "" else "timinggroup(){" ++ nl)
      ++ join ls
      ++ (if isPrimary then "" else "};" ++ nl)).

(** [Chart.export] *)
Definition Chart_export (this : Chart.t) (fixOffset : bool) : result string :=
  let header :=
    "AudioOffset:"
    ++ Number_toString (if fixOffset then Dec 0 0 else Chart.offset this) ++ nl in
  let header := header ++ "-" ++ nl in
  gs <- sequence (map (fun t =>
                         TimingGroup_export t
                           (if fixOffset then Chart.offset this else Dec 0 0))
                      (Chart.timingGroups this)) ;;
  Ok (header ++ join gs).

(** The expression of the header line: [AudioOffset:] followed by one group,
    an optional minus sign and as many digits as there are. *)
Definition AudioOffset_regex : regex :=
  re_lit "AudioOffset:"
  +++ re_group (re_opt 0 (re_lit "-") +++ re_star is_digit).

(** The state of the [forEach] over the lines of [Chart.fromRaw]: the chart
    under construction and [targetGroup], the index of the group that
    receives the events. *)
Definition push_event (g : nat) (e : ArcaeaEvent number)
    (groups : list (TimingGroup.t number)) : list (TimingGroup.t number) :=
  update_nth g
    (fun t => TimingGroup.new (TimingGroup.isPrimary t)
                              (TimingGroup.events t ++ [e])%list)
    groups.

Definition Chart_fromRaw_line (st : Chart.t * nat) (i : nat) (line : string)
  : result (Chart.t * nat) :=
  let '(chart, targetGroup) := st in
  match i with
  | O =>
      match re_match AudioOffset_regex (trim line) with
      | None =>
          Throw (AffFormatError
                   "Invalid Arcaea chart format. Could't read AudioOffset.")
      | Some r =>
          Ok (Chart.new (Chart.timingGroups chart) (parseFloat (arg r 1)),
              targetGroup)
      end
  | S O =>
      if negb (String.eqb (trim line) "-") then
        Throw (AffFormatError
                 ("Invalid Arcaea chart format. The 2nd line must be exactly "
                  ++ quote ++ "-" ++ quote ++ "."))
      else Ok st
  | _ =>
      if startsWith "timinggroup(" line then
        Ok (Chart.new (Chart.timingGroups chart ++ [TimingGroup.new false []])%list
                      (Chart.offset chart),
            List.length (Chart.timingGroups chart))
      else if startsWith "};" line then
        Ok (chart, O)
      else
        event <- ArcaeaEvent_fromRaw (trim line) targetGroup ;;
        match event with
        | Some e =>
            Ok (Chart.new (push_event targetGroup e (Chart.timingGroups chart))
                          (Chart.offset chart),
                targetGroup)
        | None => Ok st
        end
  end.

Fixpoint Chart_fromRaw_lines (st : Chart.t * nat) (i : nat) (lines : list string)
  : result (Chart.t * nat) :=
  match lines with
  | [] => Ok st
  | line :: lines' =>
      st' <- Chart_fromRaw_line st i line ;;
      Chart_fromRaw_lines st' (S i) lines'
  end.

(** [Chart.fromRaw] *)
Definition Chart_fromRaw (raw : string) : result Chart.t :=
  let primary := TimingGroup.new true [] in
  let chart := Chart.new [primary] (Dec 0 0) in
  st <- Chart_fromRaw_lines (chart, O) O (split "010" raw) ;;
  Ok (fst st).

(** ** Charts and groups of the examples *)

Definition timing (time : Z) (bpm beatsPerLine : Q) : TimingEvent.t Q :=
  TimingEvent.new 0 (inject_Z time) bpm beatsPerLine.

(** [timing(0,120,4); timing(1000,0,4); timing(2000,120,4)] *)
Definition stop_group : list (TimingEvent.t Q) :=
  [timing 0 120 4; timing 1000 0 4; timing 2000 120 4].

(** [timing(0,120,4); timing(1000,0,4); timing(2000,240,4)] *)
Definition three_tempi : list (TimingEvent.t Q) :=
  [timing 0 120 4; timing 1000 0 4; timing 2000 240 4].

(** A single tempo of 120 from the start. *)
Definition steady_group : list (TimingEvent.t Q) := [timing 0 120 4].

(** [hold(0,300,1)] *)
Definition short_hold : HoldNote.t Q := HoldNote.new 0 0 300 1 [].

Definition arc (time endTime : Z) (xStart xEnd : Q) : Arc.t Q :=
  Arc.new 0 (inject_Z time) (inject_Z endTime)
          (Vector2.new xStart 0) (Vector2.new xEnd 0) "s" 0 false [] None [] true.

(** Three arcs that follow one another in time, [arc(0,1000,...)] then
    [arc(1000,2000,...)] then [arc(2000,3000,...)], each starting where the
    one before ends; the chart lists the earliest one last. *)
Definition chain_out_of_order : list (Arc.t Q) :=
  [arc 1000 2000 (1 # 2) 1; arc 2000 3000 1 (1 # 2); arc 0 1000 0 (1 # 2)].

(** A primary group whose two timing events are listed late one first, with
    a tap between them. *)
Definition two_tempi_group : TimingGroup.t Q :=
  TimingGroup.new true
    [EvTiming (timing 1000 240 4);
     EvTap (TapNote.new 0 500 1);
     EvTiming (timing 0 120 4)].

(** The clock at 0, no audio offset, a song of ten seconds. *)
Definition at_start : GameplayManager.t := GameplayManager.instance 0 0 10000.

(** The judge instants in closed form: [Math.floor(time + n * interval)] for
    the [count] values of [n] from [first] on, those at or after [endTime]
    left out. *)
Definition judge_instants (time interval endTime : Q) (first : Z) (count : nat)
  : list Z :=
  filter (fun t => Qlt_bool (inject_Z t) endTime)
         (map (fun k => Qfloor (time + inject_Z (first + Z.of_nat k) * interval))
              (seq 0 count)).

(** [arc(0,300,...)], not void, its head rendered: the span of [short_hold]. *)
Definition short_arc : Arc.t Q := arc 0 300 0 0.

(** [arc(0,1000,...)], not void, its head rendered. *)
Definition one_second_arc : Arc.t Q := arc 0 1000 0 0.

(** The chart of the scenario. *)
Definition scenario : string :=
  "AudioOffset:0" ++ nl ++ "-" ++ nl ++ "timing(0,120,4);" ++ nl
  ++ "(1000,1);" ++ nl.

Definition scenario_chart : Chart.t :=
  Chart.new
    [TimingGroup.new true
       [EvTiming (TimingEvent.new 0 (Dec 0 0) (Dec 120 0) (Dec 4 0));
        EvTap (TapNote.new 0 (Dec 1000 0) (Dec 1 0))]]
    (Dec 0 0).

(** A chart with a line that is no event. *)
Definition chart_with_stray_line : string :=
  "AudioOffset:0" ++ nl ++ "-" ++ nl ++ "timing(0,120,4);" ++ nl
  ++ "garbage" ++ nl ++ "(1000,1);" ++ nl.

(** What [export(false)] prints for the chart of the scenario. *)
Definition scenario_exported : string :=
  "AudioOffset:0" ++ nl ++ "-" ++ nl ++ "timing(0,120.00,4.00);" ++ nl
  ++ "(1000,1);" ++ nl.

(** The prefixes that [ArcaeaEvent.fromRaw] knows. *)
Definition known_type (type : string) : bool :=
  String.eqb type "" || String.eqb type "hold" || String.eqb type "arc"
  || String.eqb type "timing" || String.eqb type "camera".

(** The chart after an event has been pushed onto the current group. *)
Definition with_event (chart : Chart.t) (targetGroup : nat)
    (e : ArcaeaEvent number) : Chart.t :=
  Chart.new (push_event targetGroup e (Chart.timingGroups chart))
            (Chart.offset chart).

(** ** Position as a function of time

    The closed form against which the accumulation loops are checked:
    where a time falls among the breakpoints, the rate of an interval, the
    distance scrolled up to a breakpoint and up to a time. *)

Section Scroll.

Variable dropRate : Q.
Variable timings : list (TimingEvent.t Q).
Variable d : TimingEvent.t Q.

(** The interval a time falls in, as [getPosByTimingWithStart] finds it
    for [current] and for [target]. *)
Definition interval_index (x : Q) : nat :=
  let n := List.length timings in
  let a := match first_index (in_interval timings d 0 x) 0 (n - 1) with
           | Some i => i | None => O end in
  if Qle_bool (time_at timings d (n - 1) + 0) x then (n - 1)%nat else a.

Definition rate (i : nat) : Q :=
  bpm_at timings d i / TimingEvent.bpm d * dropRate.

Fixpoint scrolled (i : nat) : Q :=
  match i with
  | O => 0
  | S j => scrolled j + (time_at timings d (S j) - time_at timings d j) * rate j
  end.

Definition position (x : Q) : Q :=
  let i := interval_index x in
  scrolled i + (x - time_at timings d i) * rate i.

End Scroll.

(** Breakpoints in ascending order of time. *)
Definition by_time (a b : TimingEvent.t Q) : Prop :=
  TimingEvent.time a <= TimingEvent.time b.

Definition ascending (timings : list (TimingEvent.t Q)) : Prop :=
  forall (i j : nat) (d : TimingEvent.t Q),
    (i <= j < List.length timings)%nat ->
    TimingEvent.time (nth i timings d) <= TimingEvent.time (nth j timings d).

(** * More of the code

    The functions below are those that the conversion engine, the judge
    timings and the codec are used by or depend on. *)

(** ** TimingGroup: the render range

    [keyTimes], [pairCount], [starts] and [ends] are fields of the group
    that [updateRenderRange] writes and [shouldRender] reads.  An array
    element may be [undefined] ([None]): [array[i] = x] past the end of an
    array leaves holes, and [keyTimes[i+1]] may be past the end. *)

Module RenderRange.
Record t : Type := new {
  keyTimes : list Q;
  pairCount : nat;
  starts : list (option Q);
  ends : list (option Q)
}.
End RenderRange.

(** [array[i] = x] *)
Fixpoint array_set {A : Type} (i : nat) (x : option A) (array : list (option A))
  : list (option A) :=
  match i, array with
  | O, [] => [x]
  | O, _ :: l => x :: l
  | S i', [] => None :: array_set i' x []
  | S i', y :: l => y :: array_set i' x l
  end.

(** [array[i]] *)
Definition array_get {A : Type} (i : nat) (array : list (option A)) : option A :=
  match nth_error array i with
  | Some x => x
  | None => None
  end.

(** [TimingGroup.shouldRender]; a comparison with [undefined] is false. *)
Definition TimingGroup_shouldRender (this : RenderRange.t) (time delay : Q)
  : bool :=
  existsb
    (fun i =>
       match array_get i (RenderRange.starts this) with
       | Some s =>
           Qle_bool (s - delay) time
           && match array_get i (RenderRange.ends this) with
              | Some e => Qle_bool time e
              | None => false
              end
       | None => false
       end)
    (seq 0 (RenderRange.pairCount this)).

(** One round of the loop of [updateRenderRange]:
<<
    this.starts[this.pairCount] = this.keyTimes[i];
    this.ends[this.pairCount] = this.keyTimes[i+1];
    this.pairCount++;
>> *)
Definition render_pair (s : Q) (e : option Q) (this : RenderRange.t)
  : RenderRange.t :=
  RenderRange.new
    (RenderRange.keyTimes this)
    (S (RenderRange.pairCount this))
    (array_set (RenderRange.pairCount this) (Some s) (RenderRange.starts this))
    (array_set (RenderRange.pairCount this) e (RenderRange.ends this)).

(** The loop, [i] going up by two. *)
Fixpoint pair_up (keys : list Q) (this : RenderRange.t) : RenderRange.t :=
  match keys with
  | [] => this
  | [s] => render_pair s None this
  | s :: e :: rest => pair_up rest (render_pair s (Some e) this)
  end.

(** [TimingGroup.updateRenderRange].  When [getTimingByPos] throws, the
    fields have already been reset; the exception is all that is kept
    here. *)
Definition TimingGroup_updateRenderRange (gm : GameplayManager.t)
    (dropRate : Q) (timings : list (TimingEvent.t Q)) (this : RenderRange.t)
  : result RenderRange.t :=
  let now := inject_Z (GameplayManager.timing gm) in
  t0 <- TimingGroup_getTimingByPos gm dropRate timings 0 0 ;;
  t1 <- TimingGroup_getTimingByPos gm dropRate timings 100000 0 ;;
  let keyTimes := [now; now; t0; t1] in
  Ok (pair_up keyTimes
        (RenderRange.new keyTimes O (RenderRange.starts this)
                         (RenderRange.ends this))).

(** A group of two tempi, the events in order. *)
Definition two_tempi : list (TimingEvent.t Q) :=
  [timing 0 120 4; timing 1000 240 4].

(** A group with a tap and no timing event. *)
Definition tap_only_group : TimingGroup.t Q :=
  TimingGroup.new true [EvTap (TapNote.new 0 500 1)].

(** A group with a stop, its events out of order. *)
Definition stop_events : TimingGroup.t Q :=
  TimingGroup.new true
    [EvTiming (timing 2000 120 4);
     EvTiming (timing 0 120 4);
     EvTap (TapNote.new 0 500 1);
     EvTiming (timing 1000 0 4)].


(** The hold with its [judgeTimings] replaced. *)
Definition HoldNote_set_judgeTimings (this : HoldNote.t Q) (l : list Z)
  : HoldNote.t Q :=
  HoldNote.new (HoldNote.timingGroup this) (HoldNote.time this)
               (HoldNote.endTime this) (HoldNote.lane this) l.

(** [hold(0,1000,1)] *)
Definition long_hold : HoldNote.t Q := HoldNote.new 0 0 1000 1 [].


(** ** GameBase: combo and score *)

(** [GameBase.countCombo]: the judge instants that the clock has passed. *)
Definition GameBase_countCombo (gm : GameplayManager.t)
    (taps : list (TapNote.t Q)) (holds : list (HoldNote.t Q))
    (arcs : list (Arc.t Q)) : nat :=
  let offset := GameplayManager.offset gm in
  let time := inject_Z (GameplayManager.timing gm) - offset in
  let count := O in
  let count :=
    (count
     + List.length (filter (fun t => Qlt_bool (TapNote.time t) time) taps))%nat in
  let count :=
    fold_left
      (fun count h =>
         let count :=
           (count
            + List.length (filter (fun t => Qle_bool (inject_Z t) time)
                                  (HoldNote.judgeTimings h)))%nat in
         if Qlt_bool (HoldNote.time h) time then S count else count)
      holds count in
  fold_left
    (fun count a =>
       if Arc.isVoid a then
         (count
          + List.length (filter (fun t => Qlt_bool (ArctapNote.time t) time)
                                (Arc.arcTaps a)))%nat
       else
         (count
          + List.length (filter (fun t => Qle_bool (inject_Z t) time)
                                (Arc.judgeTimings a)))%nat)
    arcs count.

(** [GameBase.countTotal] *)
Definition GameBase_countTotal (taps : list (TapNote.t Q))
    (holds : list (HoldNote.t Q)) (arcs : list (Arc.t Q)) : nat :=
  let count := O in
  let count := (count + List.length taps)%nat in
  let count :=
    fold_left
      (fun count h => (count + (List.length (HoldNote.judgeTimings h) + 1))%nat)
      holds count in
  fold_left
    (fun count a =>
       if Arc.isVoid a then (count + List.length (Arc.arcTaps a))%nat
       else (count + List.length (Arc.judgeTimings a))%nat)
    arcs count.

(** [GameBase.countScore]: [[score, combo, total]], where
    [total = this.countTotal() || 1] and
    [score = Math.floor(10000000 * combo / total) + combo]. *)
Definition GameBase_countScore (gm : GameplayManager.t)
    (taps : list (TapNote.t Q)) (holds : list (HoldNote.t Q))
    (arcs : list (Arc.t Q)) : Z * nat * nat :=
  let total :=
    match GameBase_countTotal taps holds arcs with
    | O => 1%nat
    | n => n
    end in
  let combo := GameBase_countCombo gm taps holds arcs in
  let score :=
    (Qfloor (10000000 * inject_Z (Z.of_nat combo) / inject_Z (Z.of_nat total))
     + Z.of_nat combo)%Z in
  (score, combo, total).

(** ** Utils and ArcAlgorithm *)

(** [Math.max(a, Math.min(b, t))] *)
Definition Utils_clamp (t a b : Q) : Q := Qmax a (Qmin b t).

Definition Utils_lerp (a b t : Q) : Q := a + (b - a) * Utils_clamp t 0 1.

Definition ArcAlgorithm_arcXToWorld (x : Q) : Q := -8.5 * x + 4.25.

Definition ArcAlgorithm_arcYToWorld (y : Q) : Q := 1 + 4.5 * y.

Definition ArcAlgorithm_worldXToArc (x : Q) : Q := (x - 4.25) / -8.5.

Definition ArcAlgorithm_worldYToArc (y : Q) : Q := (y - 1) / 4.5.

(** Linear interpolation. *)
Definition ArcAlgorithm_s (a b t : Q) : Q := (1 - t) * a + b * t.

(** Cubic interpolation; [Math.pow(o, 3)] is [o ^ 3]. *)
Definition ArcAlgorithm_b (a b t : Q) : Q :=
  let o := 1 - t in
  o ^ 3 * a + 3 * o ^ 2 * t * a + 3 * o * t ^ 2 * b + t ^ 3 * b.

Definition ArcAlgorithm_qi (v : Q) : Q := v ^ 3.

(** [Math.pow(--v, 3) + 1] *)
Definition ArcAlgorithm_qo (v : Q) : Q := (v - 1) ^ 3 + 1.

(** ** CameraEvent.update

    The method computes [this.percent] from the event and the time alone;
    the value it stores is what is returned here. *)
Definition CameraEvent_update (this : CameraEvent.t Q) (timing : Q) : Q :=
  if Qlt_bool (CameraEvent.time this + CameraEvent.duration this) timing then 1
  else if Qlt_bool timing (CameraEvent.time this) then 0
  else
    let percent :=
      Utils_clamp ((timing - CameraEvent.time this) / CameraEvent.duration this)
                  0 1 in
    if String.eqb (CameraEvent.type this) "qi" then ArcAlgorithm_qi percent
    else if String.eqb (CameraEvent.type this) "qo" then ArcAlgorithm_qo percent
    else if String.eqb (CameraEvent.type this) "s" then ArcAlgorithm_s 0 1 percent
    else percent.

(** ** CameraManager.updateCameraTilt

    [isReset] and [currentTilt] are fields of the manager; [autoplay],
    [arcJudgePos] and [isPlaying] are read from the other managers.  The
    new [currentTilt] is returned. *)
Definition CameraManager_updateCameraTilt (isReset : bool) (currentTilt : Q)
    (autoplay : bool) (arcJudgePos : Q) (isPlaying : bool) : Q :=
  if negb isReset then 0
  else
    let currentArcPos := if autoplay then - arcJudgePos else 0 in
    let pos := Utils_clamp (currentArcPos / 4.25) (-1) 1 * 0.05 in
    let delta := pos - currentTilt in
    let speed :=
      if isPlaying then (if Qeq_bool currentArcPos 0 then 0.02 else 0.04)
      else 0.03 in
    currentTilt + speed * delta.

(** ** Autoplay judging

    The fields [judged], [judging], [audioPlayed] and [shouldPlayAudio] of
    a note are passed and returned. *)

(** The body of the [forEach] of [TapNoteManager.judgeTapNotes], for one
    tap: the new value of [judged]. *)
Definition TapNote_judge (gm : GameplayManager.t) (t : TapNote.t Q)
    (judged : bool) : bool :=
  let offset := GameplayManager.offset gm in
  let time := inject_Z (GameplayManager.timing gm) in
  if judged && Qlt_bool (TapNote.time t + offset + 150) time then judged
  else
    let judged :=
      if Qlt_bool time (TapNote.time t + offset) then false else judged in
    if Qlt_bool (TapNote.time t + offset) time
       && Qle_bool time (TapNote.time t + offset + 150)
    then true
    else if Qlt_bool (TapNote.time t + offset + 150) time then true
    else judged.

Module HoldState.
Record t : Type := new {
  judged : bool;
  judging : bool;
  audioPlayed : bool;
  shouldPlayAudio : bool
}.
End HoldState.

(** The body of the [forEach] of [HoldManager.judgeHoldNotes], for one
    hold. *)
Definition HoldNote_judge (gm : GameplayManager.t) (isPlaying : bool)
    (t : HoldNote.t Q) (st : HoldState.t) : HoldState.t :=
  let offset := GameplayManager.offset gm in
  let time := inject_Z (GameplayManager.timing gm) in
  let st :=
    if Qlt_bool time (HoldNote.time t + offset)
    then HoldState.new false false (HoldState.audioPlayed st)
                       (HoldState.shouldPlayAudio st)
    else st in
  if HoldState.judged st then st
  else if Qle_bool (HoldNote.time t + offset) time
          && Qle_bool time (HoldNote.endTime t + offset) then
    HoldState.new (HoldState.judged st) true
      (if negb (HoldState.audioPlayed st)
       then (if isPlaying && HoldState.shouldPlayAudio st then true
             else HoldState.audioPlayed st)
       else HoldState.audioPlayed st)
      (HoldState.shouldPlayAudio st)
  else if Qlt_bool (HoldNote.endTime t + offset) time then
    HoldState.new true false true (HoldState.shouldPlayAudio st)
  else
    HoldState.new (HoldState.judged st) (HoldState.judging st)
                  (HoldState.audioPlayed st) true.

(** A void arc with two arc taps, for the counts. *)
Definition void_arc_with_taps : Arc.t Q :=
  Arc.new 0 0 1000 (Vector2.new 0 0) (Vector2.new 1 0) "s" 0 true
          [ArctapNote.new 0 200; ArctapNote.new 0 800] None [] true.

(** [camera(1000,...,qo,500)] *)
Definition ease_out_camera : CameraEvent.t Q :=
  CameraEvent.new 0 1000 (Vector3.new 0 0 0) (Vector3.new 0 0 0) "qo" 500.

(** The body of the [forEach] of [ArcManager.judgeArcTaps], for one arc
    tap: the new value of [judged].  The last test of the source compares
    the arc tap itself, an object, with a number; the object converts to
    [NaN] and the comparison is false. *)
Definition ArctapNote_judge (gm : GameplayManager.t) (t : ArctapNote.t Q)
    (judged : bool) : bool :=
  let offset := GameplayManager.offset gm in
  let time := inject_Z (GameplayManager.timing gm) in
  let judged :=
    if Qlt_bool time (ArctapNote.time t + offset) then false else judged in
  if judged then judged
  else if Qlt_bool (ArctapNote.time t + offset) time
          && Qle_bool time (ArctapNote.time t + offset + 150)
  then true
  else if false then true
  else judged.

(** ** Chart: the events by class

    [result.push.apply(result, t.events.filter(e => e instanceof C))] for
    every group, in order. *)
Definition events_of {A : Type} (pick : ArcaeaEvent number -> option A)
    (this : Chart.t) : list A :=
  fold_left
    (fun result t =>
       (result
        ++ flat_map (fun e => match pick e with Some x => [x] | None => [] end)
                    (TimingGroup.events t))%list)
    (Chart.timingGroups this) [].

Definition Chart_taps : Chart.t -> list (TapNote.t number) :=
  events_of (fun e => match e with EvTap x => Some x | _ => None end).

Definition Chart_arcs : Chart.t -> list (Arc.t number) :=
  events_of (fun e => match e with EvArc x => Some x | _ => None end).

Definition Chart_holds : Chart.t -> list (HoldNote.t number) :=
  events_of (fun e => match e with EvHold x => Some x | _ => None end).

Definition Chart_cameras : Chart.t -> list (CameraEvent.t number) :=
  events_of (fun e => match e with EvCamera x => Some x | _ => None end).

(** ** TimingManager.calculateBeatlineTimes

    The three loops of the method; [fuel] bounds the number of rounds of
    each and [None] means that the bound was reached with the loop still
    running.

    [while(true) { var j = timings[i].time + (n++) * segment;
                   if(j >= timings[i + 1].time) break;
                   this.beatlineTimings.push(j); }] *)
Fixpoint beatline_segment_loop (fuel : nat) (time segment next : Q) (n : Z)
    (beatlineTimings : list Q) : option (list Q) :=
  match fuel with
  | O => None
  | S fuel' =>
      let j := time + inject_Z n * segment in
      let n := (n + 1)%Z in
      if Qle_bool next j then Some beatlineTimings
      else beatline_segment_loop fuel' time segment next n
                                 (beatlineTimings ++ [j])%list
  end.

(** The [for] loop over the pairs of consecutive timing events. *)
Fixpoint beatline_segments (fuel : nat) (timings : list (TimingEvent.t Q))
    (beatlineTimings : list Q) : option (list Q) :=
  match timings with
  | e :: ((e' :: _) as rest) =>
      let segment :=
        if Qeq_bool (TimingEvent.bpm e) 0
        then TimingEvent.time e' - TimingEvent.time e
        else 60000 / Qabs (TimingEvent.bpm e) * TimingEvent.beatsPerLine e in
      if Qeq_bool segment 0 then beatline_segments fuel rest beatlineTimings
      else
        match beatline_segment_loop fuel (TimingEvent.time e) segment
                                    (TimingEvent.time e') 0 beatlineTimings with
        | None => None
        | Some beatlineTimings => beatline_segments fuel rest beatlineTimings
        end
  | _ => Some beatlineTimings
  end.

(** [while(j < length) { j = time + (n++) * segmentsRemain;
                         this.beatlineTimings.push(j); }] *)
Fixpoint beatline_remain_loop (fuel : nat) (time segmentsRemain length : Q)
    (n : Z) (j : Q) (beatlineTimings : list Q) : option (list Q) :=
  match fuel with
  | O => None
  | S fuel' =>
      if Qlt_bool j length then
        let j := time + inject_Z n * segmentsRemain in
        let n := (n + 1)%Z in
        beatline_remain_loop fuel' time segmentsRemain length n j
                             (beatlineTimings ++ [j])%list
      else Some beatlineTimings
  end.

(** [while(t >= -3000) { t = -(++n) * delta;
                         this.beatlineTimings.unshift(t); }] *)
Fixpoint beatline_lead_loop (fuel : nat) (delta : Q) (n : Z) (t : Q)
    (beatlineTimings : list Q) : option (list Q) :=
  match fuel with
  | O => None
  | S fuel' =>
      if Qle_bool (-3000) t then
        let n := (n + 1)%Z in
        let t := - inject_Z n * delta in
        beatline_lead_loop fuel' delta n t (t :: beatlineTimings)
      else Some beatlineTimings
  end.

(** [TimingManager.calculateBeatlineTimes]: the new [beatlineTimings]. *)
Definition TimingManager_calculateBeatlineTimes (fuel : nat)
    (gm : GameplayManager.t) (timings : list (TimingEvent.t Q))
  : option (list Q) :=
  let length := inject_Z (GameplayManager.length gm) in
  match beatline_segments fuel timings [] with
  | None => None
  | Some beatlineTimings =>
      let remain :=
        match nth_error timings (List.length timings - 1) with
        | Some last =>
            let segmentsRemain :=
              if Qeq_bool (TimingEvent.bpm last) 0
              then length - TimingEvent.time last
              else 60000 / Qabs (TimingEvent.bpm last)
                   * TimingEvent.beatsPerLine last in
            if negb (Qeq_bool segmentsRemain 0) then
              beatline_remain_loop fuel (TimingEvent.time last) segmentsRemain
                                   length 0 (TimingEvent.time last)
                                   beatlineTimings
            else Some beatlineTimings
        | None => Some beatlineTimings
        end in
      match remain with
      | None => None
      | Some beatlineTimings =>
          match nth_error timings 0 with
          | Some first =>
              if negb (Qeq_bool (TimingEvent.bpm first) 0)
                 && negb (Qeq_bool (TimingEvent.beatsPerLine first) 0) then
                let delta :=
                  60000 / Qabs (TimingEvent.bpm first)
                  * TimingEvent.beatsPerLine first in
                if negb (Qeq_bool delta 0)
                then beatline_lead_loop fuel delta 0 0 beatlineTimings
                else Some beatlineTimings
              else Some beatlineTimings
          | None => Some beatlineTimings
          end
      end
  end.

(** ** Arc groups: what the pairing loop keeps

    [Arc_shape] forgets the three fields that [calculateArcRelationship]
    writes; [hides arcs ia ib] is the test under which the pairing loop
    clears [renderHead] of the arc of index [ib] when it is met from the
    arc of index [ia]. *)
Definition Arc_shape (a : Arc.t Q) : Arc.t Q :=
  Arc_set_judgeTimings (Arc_set_renderHead true (Arc_set_arcGroup None a)) [].

Definition hides (arcs : list (Arc.t Q)) (ia ib : nat) : bool :=
  negb (Nat.eqb ia ib)
  && match nth_error arcs ia, nth_error arcs ib with
     | Some a, Some b =>
         arcs_touch a b && Bool.eqb (Arc.isVoid a) (Arc.isVoid b)
     | _, _ => false
     end.

Definition renderHead_at (m : ArcManager.t) (j : nat) : option bool :=
  option_map (@Arc.renderHead Q) (nth_error (ArcManager.arcs m) j).

(** Every group reference points into the store, and every group array
    is a non-empty array of arcs of the manager. *)
Definition groups_ok (n : nat) (m : ArcManager.t) : Prop :=
  Forall (fun a => match Arc.arcGroup a with
                   | Some g => (g < List.length (ArcManager.store m))%nat
                   | None => True
                   end) (ArcManager.arcs m)
  /\ Forall (fun array => array <> []
                          /\ Forall (fun i => (i < n)%nat) array)
            (ArcManager.store m).

(** The state of the manager during [calculateArcRelationship], for the
    arcs [arcs0] it was loaded with. *)
Definition arcs_inv (arcs0 : list (Arc.t Q)) (m : ArcManager.t) : Prop :=
  map Arc_shape (ArcManager.arcs m) = map Arc_shape arcs0
  /\ groups_ok (List.length arcs0) m.

Definition array_ok (n : nat) (array : list nat) : Prop :=
  array <> [] /\ Forall (fun i => (i < n)%nat) array.

Definition has_group (m : ArcManager.t) (j : nat) : Prop :=
  exists a g, nth_error (ArcManager.arcs m) j = Some a
              /\ Arc.arcGroup a = Some g.

(** The manager left by [calculateArcRelationship] on the chain listed out
    of order, under a steady tempo. *)
Definition chain_manager : ArcManager.t :=
  match ArcManager_calculateArcRelationship 8 (fun _ => steady_group)
          chain_out_of_order with
  | Some (Ok m) => m
  | _ => ArcManager.new [] []
  end.

(** Every character of a string is in a class. *)
Fixpoint all_chars (p : ascii -> bool) (s : string) : bool :=
  match s with
  | EmptyString => true
  | String c s' => p c && all_chars p s'
  end.

(** ** Where exact numbers and doubles agree

    The rationals of the model are the values of the doubles of the source.
    On whole numbers of ordinary size the arithmetic of doubles is exact,
    so a theorem that gives a value exactly asks for whole inputs;
    [whole x] says that [x] is a whole number of at most 2^26 in size
    (18 hours in milliseconds): sums, differences and products of two such
    numbers are doubles, without rounding. *)
Definition whole (x : Q) : bool :=
  Qeq_bool x (inject_Z (Qfloor x)) && Qle_bool (Qabs x) 67108864.

(** The two ends [a.end.x] and [b.start.x] are not within a thousandth of
    the threshold 0.1 of the touch test. *)
Definition clear_of_threshold (a b : Arc.t Q) : bool :=
  let dx := Qabs (Vector2.x (Arc.end_ a) - Vector2.x (Arc.start b)) in
  Qle_bool dx (99 # 1000) || Qle_bool (101 # 1000) dx.

(** Arcs on which the touch test of [calculateArcRelationship] compares
    what it would compare in exact arithmetic: times in whole
    milliseconds and no two ends near the threshold. *)
Definition clear_arcs (arcs : list (Arc.t Q)) : bool :=
  forallb (fun a => whole (Arc.time a) && whole (Arc.endTime a)
                    && forallb (clear_of_threshold a) arcs) arcs.

(** A chart with two groups after the primary one. *)
Definition grouped : string :=
  "AudioOffset:0" ++ nl ++ "-" ++ nl
  ++ "timing(0,120.00,4.00);" ++ nl
  ++ "timinggroup(){" ++ nl
  ++ "timing(0,240.00,4.00);" ++ nl
  ++ "(1000,1);" ++ nl
  ++ "};" ++ nl
  ++ "timinggroup(){" ++ nl
  ++ "timing(0,60.00,4.00);" ++ nl
  ++ "};" ++ nl.

Definition grouped_chart : Chart.t :=
  match Chart_fromRaw grouped with
  | Ok chart => chart
  | Throw _ => Chart.new [] NaN
  end.

(** * Properties *)

Local Open Scope Q_scope.

(** ** Booleans of the number comparisons *)

Lemma Qlt_bool_iff (x y : Q) : Qlt_bool x y = true <-> x < y.
Proof.
  unfold Qlt_bool. rewrite negb_true_iff. split; intro H.
  - apply Qnot_le_lt. intro Hle. apply Qle_bool_iff in Hle. congruence.
  - destruct (Qle_bool y x) eqn:E; [|reflexivity].
    apply Qle_bool_iff in E. exfalso. apply (Qlt_not_le _ _ H E).
Qed.

Lemma Qlt_bool_false (x y : Q) : Qlt_bool x y = false <-> y <= x.
Proof.
  unfold Qlt_bool. rewrite negb_false_iff. apply Qle_bool_iff.
Qed.

Lemma Qle_bool_false (x y : Q) : Qle_bool x y = false <-> y < x.
Proof.
  rewrite <- Qlt_bool_iff. unfold Qlt_bool.
  destruct (Qle_bool x y); simpl; split; congruence.
Qed.

(** ** getBpmByTiming *)

(** C5.  A query time equal to an interior breakpoint's time does not get
    that breakpoint's tempo: both comparisons of the scan are strict, so no
    interval holds the time and the scan falls through to the tempo of the
    last breakpoint.  With [timing(0,120,4); timing(1000,0,4);
    timing(2000,240,4)], the tempo at time 1000 is 240 and not 0, while one
    millisecond later it is 0; the interval test of the two conversions,
    whose lower comparison is not strict, puts time 1000 in the interval of
    the second breakpoint. *)
Theorem getBpmByTiming_at_breakpoint :
  TimingGroup_getBpmByTiming three_tempi 1000 = Ok 240
  /\ TimingGroup_getBpmByTiming three_tempi 1001 = Ok 0
  /\ interval_index three_tempi (timing 0 120 4) 1000 = 1%nat.
Proof. repeat split; reflexivity. Qed.

(** ** HoldNote.calculateJudgeTimings *)

Lemma judge_loop_past_total (fuel : nat) (time interval endTime : Q)
    (total n : Z) (l : list Z) :
  (total <= n)%Z ->
  judge_loop fuel time interval endTime total n l = None.
Proof.
  revert n l. induction fuel as [|fuel IH]; intros n l Hn; simpl.
  - reflexivity.
  - destruct (Z.eqb_spec total (n + 1)) as [E|_]; [lia|].
    apply IH. lia.
Qed.

(** C6.  A hold of one subdivision: [hold(0,300,1)] under tempo 120 has
    [interval = 250] and [total = 1].  The guard [u ^ 1 > total] is false
    there, the loop starts at [n = 1] and compares [total] with 2, 3, ...:
    whatever the bound on the rounds, the loop is still running.  An arc of
    the same span takes the guard [(u ^ 1) >= total] and gets the midpoint
    150. *)
Theorem HoldNote_judge_loop_runs_forever :
  (forall fuel : nat,
     HoldNote_calculateJudgeTimings fuel steady_group short_hold = None)
  /\ (forall fuel : nat,
        Arc_calculateJudgeTimings fuel steady_group short_arc
        = Some (Ok (Arc_set_judgeTimings short_arc [150%Z]))).
Proof.
  split; intro fuel; [|reflexivity].
  unfold HoldNote_calculateJudgeTimings.
  change (TimingGroup_getBpmByTiming steady_group (HoldNote.time short_hold))
    with (@Ok Q 120).
  cbv beta iota.
  change (Qle_bool 120 0) with false. cbv iota.
  change (Qfloor ((HoldNote.endTime short_hold - HoldNote.time short_hold)
                  / judge_interval 120)) with 1%Z.
  cbv beta iota zeta.
  change (negb (Z.lxor 0 (if (1 >? 1)%Z then 1 else 0) =? 0)%Z) with false.
  cbv iota.
  rewrite judge_loop_past_total; [reflexivity|].
  simpl. lia.
Qed.

(** ** ArcManager.calculateArcRelationship *)

(** C10.  The chain [arc(0,1000)], [arc(1000,2000)], [arc(2000,3000)] listed
    with its earliest arc last.  The pair (second, third of the chain) is
    met first and founds the group array; when the earliest arc then meets
    its successor, it has no group and the successor has one, and the branch
    for that case only copies the reference: the earliest arc (index 2) ends
    up pointing at the array [[0; 1]], which does not hold it. *)
Theorem arcGroup_without_its_own_arc :
  exists m,
    ArcManager_calculateArcRelationship 8 (fun _ => steady_group)
      chain_out_of_order = Some (Ok m)
    /\ arcGroup_of m 0 = Some [0; 1]%nat
    /\ arcGroup_of m 1 = Some [0; 1]%nat
    /\ arcGroup_of m 2 = Some [0; 1]%nat
    /\ ~ In 2%nat [0; 1]%nat.
Proof.
  eexists. split; [vm_compute; reflexivity|].
  repeat split; try reflexivity.
  simpl. intros [H|[H|[]]]; discriminate.
Qed.

(** ** The chart codec *)

(** C8.  The chart of the scenario parses to one primary group with the
    timing event (0, 120, 4) and the tap (1000, 1); [export(false)] prints
    it with the tempo fields in fixed precision, and that text parses to
    the same chart. *)
Theorem scenario_round_trip :
  Chart_fromRaw scenario = Ok scenario_chart
  /\ Chart_export scenario_chart false = Ok scenario_exported
  /\ Chart_fromRaw scenario_exported = Ok scenario_chart.
Proof. repeat split; vm_compute; reflexivity. Qed.

(** C9, as stated, fails: the line [garbage] is not blank and is neither an
    opener nor a closer; it has no parenthesis, so [ArcaeaEvent.fromRaw]
    returns [null] and the parse goes on without it and without an error. *)
Lemma stray_line_is_skipped :
  trim "garbage" <> ""%string
  /\ startsWith "timinggroup(" "garbage" = false
  /\ startsWith "};" "garbage" = false
  /\ (forall chart targetGroup,
        Chart_fromRaw_line (chart, targetGroup) 3 "garbage"
        = Ok (chart, targetGroup))
  /\ Chart_fromRaw chart_with_stray_line = Ok scenario_chart.
Proof.
  repeat split; try reflexivity.
  vm_compute. discriminate.
Qed.

(** C9, amended.  From line 2 on, a line that is neither an opener nor a
    closer is trimmed and dispatched on what precedes its first opening
    parenthesis.  Without a parenthesis the line is skipped: the state is
    unchanged.  With an unknown prefix the line throws the format error
    naming the prefix.  With a known prefix the line is either pushed onto
    the current group as an event or throws.  An exception thrown by a line
    is the outcome of the whole parse. *)
Theorem body_line_outcome (chart : Chart.t) (targetGroup i : nat)
    (line : string) :
  (2 <= i)%nat ->
  startsWith "timinggroup(" line = false ->
  startsWith "};" line = false ->
  let outcome := Chart_fromRaw_line (chart, targetGroup) i line in
  match indexOf "(" (trim line) with
  | None => outcome = Ok (chart, targetGroup)
  | Some index =>
      let type := substring 0 index (trim line) in
      if known_type type then
        (exists e, outcome = Ok (with_event chart targetGroup e, targetGroup))
        \/ (exists ex, outcome = Throw ex)
      else
        outcome = Throw (AffFormatError ("Unknown event type: " ++ type ++ "."))
  end
  /\ (forall ex rest,
        outcome = Throw ex ->
        Chart_fromRaw_lines (chart, targetGroup) i (line :: rest) = Throw ex).
Proof.
  intros Hi Hopen Hclose outcome. split.
  - subst outcome. unfold Chart_fromRaw_line.
    destruct i as [|[|i]]; [lia|lia|].
    rewrite Hopen, Hclose. unfold ArcaeaEvent_fromRaw, known_type.
    destruct (indexOf "(" (trim line)) as [index|]; [|reflexivity].
    cbv zeta.
    destruct (String.eqb (substring 0 index (trim line)) "").
    { simpl. destruct (TapNote_fromRaw (trim line) targetGroup); simpl;
        [left|right]; eexists; reflexivity. }
    destruct (String.eqb (substring 0 index (trim line)) "hold").
    { simpl. destruct (HoldNote_fromRaw (trim line) targetGroup); simpl;
        [left|right]; eexists; reflexivity. }
    destruct (String.eqb (substring 0 index (trim line)) "arc").
    { simpl. destruct (Arc_fromRaw (trim line) targetGroup); simpl;
        [left|right]; eexists; reflexivity. }
    destruct (String.eqb (substring 0 index (trim line)) "timing").
    { simpl. destruct (TimingEvent_fromRaw (trim line) targetGroup); simpl;
        [left|right]; eexists; reflexivity. }
    destruct (String.eqb (substring 0 index (trim line)) "camera").
    { simpl. destruct (CameraEvent_fromRaw (trim line) targetGroup); simpl;
        [left|right]; eexists; reflexivity. }
    reflexivity.
  - intros ex rest Hthrow. subst outcome.
    cbn [Chart_fromRaw_lines]. rewrite Hthrow. reflexivity.
Qed.

Lemma body_line_outcome_witness :
  Chart_fromRaw_line (scenario_chart, O) 2 "foo(1,2);"
  = Throw (AffFormatError "Unknown event type: foo.")
  /\ Chart_fromRaw_lines (scenario_chart, O) 2 ["foo(1,2);"; "(1000,1);"]
     = Throw (AffFormatError "Unknown event type: foo.").
Proof.
  pose proof (@body_line_outcome scenario_chart O 2 "foo(1,2);"
                (le_n 2) eq_refl eq_refl) as [H1 H2].
  split.
  - exact H1.
  - apply H2. exact H1.
Defined.

(** ** The timing events of a group are in ascending order *)

Lemma insert_by_time_Forall (P : TimingEvent.t Q -> Prop) e l :
  P e -> Forall P l -> Forall P (insert_by_time e l).
Proof.
  intros He Hl. induction Hl as [|x l Hx Hl IH]; simpl.
  - constructor; [exact He|constructor].
  - destruct (Qle_bool (TimingEvent.time e) (TimingEvent.time x)).
    + constructor; [exact He|]. constructor; assumption.
    + constructor; assumption.
Qed.

Lemma insert_by_time_sorted e l :
  StronglySorted by_time l -> StronglySorted by_time (insert_by_time e l).
Proof.
  intros Hs. induction Hs as [|x l Hs IH Hx]; simpl.
  - constructor; constructor.
  - destruct (Qle_bool (TimingEvent.time e) (TimingEvent.time x)) eqn:E.
    + apply Qle_bool_iff in E.
      constructor; [constructor; assumption|].
      constructor; [exact E|].
      apply Forall_impl with (P := by_time x); [|exact Hx].
      intros y Hy. unfold by_time in *. lra.
    + apply Qle_bool_false in E.
      constructor; [exact IH|].
      apply insert_by_time_Forall; [|exact Hx].
      unfold by_time. lra.
Qed.

Lemma sort_by_time_sorted l : StronglySorted by_time (sort_by_time l).
Proof.
  induction l as [|e l IH]; simpl.
  - constructor.
  - apply insert_by_time_sorted, IH.
Qed.

Lemma StronglySorted_ascending l : StronglySorted by_time l -> ascending l.
Proof.
  intros Hs. induction Hs as [|x l Hs IH Hx]; intros i j d Hij.
  - simpl in Hij. lia.
  - destruct i as [|i], j as [|j]; simpl in *.
    + lra.
    + rewrite Forall_forall in Hx. apply Hx. apply nth_In. lia.
    + lia.
    + apply IH. lia.
Qed.

Lemma getTimingEvents_ascending (g : TimingGroup.t Q) :
  ascending (TimingGroup_getTimingEvents g).
Proof.
  apply StronglySorted_ascending, sort_by_time_sorted.
Qed.

(** ** The scans for an index *)

Lemma first_index_Some p lo n i :
  first_index p lo n = Some i -> (lo <= i < lo + n)%nat /\ p i = true.
Proof.
  revert lo. induction n as [|n IH]; intros lo H; simpl in H.
  - discriminate.
  - destruct (p lo) eqn:E.
    + injection H as <-. split; [lia|exact E].
    + apply IH in H. split; [lia|apply H].
Qed.

Lemma first_index_None p lo n :
  first_index p lo n = None ->
  forall i, (lo <= i < lo + n)%nat -> p i = false.
Proof.
  revert lo. induction n as [|n IH]; intros lo H i Hi; simpl in H.
  - lia.
  - destruct (p lo) eqn:E; [discriminate|].
    destruct (Nat.eq_dec i lo) as [->|Hne]; [exact E|].
    apply (IH _ H). lia.
Qed.

Lemma first_index_ext (p q : nat -> bool) :
  (forall i, p i = q i) ->
  forall n lo, first_index p lo n = first_index q lo n.
Proof.
  intros H. induction n as [|n IH]; intro lo; simpl.
  - reflexivity.
  - rewrite H, IH. reflexivity.
Qed.

Section IndexFacts.

Variable timings : list (TimingEvent.t Q).
Variable d : TimingEvent.t Q.

Let n := List.length timings.
Let T := time_at timings d.
Let idx := interval_index timings d.

Lemma in_interval_iff off x i :
  in_interval timings d off x i = true <-> T i + off <= x /\ x < T (i + 1) + off.
Proof.
  unfold in_interval. rewrite andb_true_iff, Qle_bool_iff, Qlt_bool_iff.
  reflexivity.
Qed.

Lemma interval_index_bound x : (idx x <= n - 1)%nat.
Proof.
  unfold idx, interval_index. fold n.
  destruct (Qle_bool _ x); [lia|].
  destruct (first_index _ 0 (n - 1)) as [i|] eqn:E; [|lia].
  apply first_index_Some in E. lia.
Qed.

(** Without a hit and below the last breakpoint, the time is below the
    second breakpoint: otherwise the breakpoints up to the last one would
    all be at or below it. *)
Lemma no_interval_below x :
  first_index (in_interval timings d 0 x) 0 (n - 1) = None ->
  x < T (n - 1)%nat ->
  forall j, (1 <= j <= n - 1)%nat -> x < T j.
Proof.
  intros Hnone Hlast j Hj.
  destruct (Qlt_le_dec x (T j)) as [H|H]; [exact H|exfalso].
  assert (Hup : forall k, (j + k <= n - 1)%nat -> T (j + k)%nat <= x).
  { induction k as [|k IH]; intro Hk.
    - rewrite Nat.add_0_r. exact H.
    - assert (Hf := @first_index_None _ _ _ Hnone (j + k)%nat ltac:(lia)).
      destruct (Qlt_le_dec x (T (j + S k)%nat)) as [Hlt|Hle]; [|exact Hle].
      exfalso. apply not_true_iff_false in Hf. apply Hf.
      apply in_interval_iff. split.
      + specialize (IH ltac:(lia)). lra.
      + replace (j + k + 1)%nat with (j + S k)%nat by lia. lra. }
  specialize (Hup (n - 1 - j)%nat ltac:(lia)).
  replace (j + (n - 1 - j))%nat with (n - 1)%nat in Hup by lia.
  lra.
Qed.

Lemma interval_index_upper x :
  (idx x < n - 1)%nat -> x < T (idx x + 1)%nat.
Proof.
  unfold idx, interval_index. fold n. fold T.
  destruct (Qle_bool (T (n - 1)%nat + 0) x) eqn:Elast; [lia|].
  apply Qle_bool_false in Elast.
  destruct (first_index _ 0 (n - 1)) as [i|] eqn:E; intro Hi.
  - apply first_index_Some in E. destruct E as [_ E].
    apply in_interval_iff in E. fold T in E. lra.
  - apply (no_interval_below E); [lra|lia].
Qed.

Lemma interval_index_lower x :
  (0 < idx x)%nat -> T (idx x) <= x.
Proof.
  unfold idx, interval_index. fold n. fold T.
  destruct (Qle_bool (T (n - 1)%nat + 0) x) eqn:Elast.
  - apply Qle_bool_iff in Elast. intros _. lra.
  - destruct (first_index _ 0 (n - 1)) as [i|] eqn:E; intro Hi; [|lia].
    apply first_index_Some in E. destruct E as [_ E].
    apply in_interval_iff in E. fold T in E. lra.
Qed.

Hypothesis Hasc : ascending timings.

Lemma T_ascending i j : (i <= j <= n - 1)%nat -> (0 < n)%nat -> T i <= T j.
Proof. intros Hij Hn. apply Hasc. fold n. lia. Qed.

Lemma interval_index_mono x y : x <= y -> (idx x <= idx y)%nat.
Proof.
  intros Hxy.
  destruct (Nat.le_gt_cases (idx x) (idx y)) as [H|H]; [exact H|exfalso].
  pose proof (interval_index_bound x) as Bx.
  assert (Hy : y < T (idx y + 1)%nat) by (apply interval_index_upper; lia).
  assert (Hx : T (idx x) <= x) by (apply interval_index_lower; lia).
  assert (HT : T (idx y + 1)%nat <= T (idx x)) by (apply T_ascending; lia).
  lra.
Qed.

End IndexFacts.

(** ** getPosByTimingWithStart is a difference of positions *)

Section PositionFacts.

Variable gm : GameplayManager.t.
Variable dropRate : Q.
Variable d : TimingEvent.t Q.
Variable tl : list (TimingEvent.t Q).

Let timings := d :: tl.
Let n := List.length timings.
Let T := time_at timings d.
Let idx := interval_index timings d.
Let r := rate dropRate timings d.
Let S_ := scrolled dropRate timings d.
Let base := TimingEvent.bpm d.

Lemma getPos_unfold (start timing : Q) :
  TimingGroup_getPosByTimingWithStart gm dropRate timings start timing
  = Ok (let offset := GameplayManager.offset gm in
        let reverse := Qlt_bool timing start in
        let current := (if reverse then timing else start) - offset in
        let target := (if reverse then start else timing) - offset in
        let a := idx current in
        let b := idx target in
        let pos :=
          if Nat.eqb a b then
            0 + (target - current) * bpm_at timings d a / base * dropRate
          else
            fold_left (pos_step dropRate timings d base current target a b)
                      (seq a (b + 1 - a)) 0 in
        if reverse then - pos else pos).
Proof. reflexivity. Qed.

Lemma scrolled_S (i : nat) :
  S_ (S i) = S_ i + (T (S i) - T i) * r i.
Proof. reflexivity. Qed.

Lemma fold_interior (current target : Q) (a b : nat) :
  forall (k s : nat) (init : Q),
    (a < s)%nat -> (s + k <= b)%nat ->
    fold_left (pos_step dropRate timings d base current target a b)
              (seq s k) init
    == init + (S_ (s + k)%nat - S_ s).
Proof.
  induction k as [|k IH]; intros s init Has Hsb; simpl.
  - rewrite Nat.add_0_r. ring.
  - rewrite IH by lia.
    unfold pos_step.
    destruct (Nat.eqb_spec s a) as [E|_]; [lia|].
    destruct (Nat.eqb_spec s b) as [E|_]; [lia|].
    simpl negb. cbv iota. simpl andb. cbv iota.
    replace (s + S k)%nat with (S s + k)%nat by lia.
    replace (s + 1)%nat with (S s) by lia.
    rewrite (scrolled_S s). unfold r, rate, T, base, Qdiv. ring.
Qed.

Lemma fold_segments (current target : Q) (a b : nat) :
  (a < b)%nat ->
  fold_left (pos_step dropRate timings d base current target a b)
            (seq a (b + 1 - a)) 0
  == (T (a + 1)%nat - current) * r a + (S_ b - S_ (a + 1)%nat)
     + (target - T b) * r b.
Proof.
  intro Hab.
  replace (b + 1 - a)%nat with (S (S (b - a - 1))) by lia.
  rewrite seq_S. simpl seq.
  change (a :: seq (S a) (b - a - 1) ++ [(a + S (b - a - 1))%nat])
    with ((a :: seq (S a) (b - a - 1)) ++ [(a + S (b - a - 1))%nat]).
  rewrite fold_left_app. cbn [fold_left].
  replace (a + S (b - a - 1))%nat with b by lia.
  set (mid := fold_left _ (seq (S a) (b - a - 1)) _).
  unfold pos_step at 1.
  destruct (Nat.eqb_spec b a) as [E|_]; [lia|].
  rewrite Nat.eqb_refl. simpl negb. simpl andb. cbv iota.
  subst mid. rewrite fold_interior by lia.
  replace (S a + (b - a - 1))%nat with b by lia.
  unfold pos_step. rewrite Nat.eqb_refl.
  replace (a + 1)%nat with (S a) by lia.
  unfold r, rate, T, base, Qdiv. ring.
Qed.

Hypothesis Hasc : ascending timings.

(** The position from [start] to [timing] is the difference of their
    positions on the chart's own time axis. *)
Lemma getPos_position (start timing : Q) :
  exists p,
    TimingGroup_getPosByTimingWithStart gm dropRate timings start timing = Ok p
    /\ p == position dropRate timings d (timing - GameplayManager.offset gm)
            - position dropRate timings d (start - GameplayManager.offset gm).
Proof.
  rewrite getPos_unfold. eexists. split; [reflexivity|].
  cbv zeta.
  set (offset := GameplayManager.offset gm).
  assert (Hdiff : forall x y, x <= y ->
    (if Nat.eqb (idx x) (idx y) then
       0 + (y - x) * bpm_at timings d (idx x) / base * dropRate
     else
       fold_left (pos_step dropRate timings d base x y (idx x) (idx y))
                 (seq (idx x) (idx y + 1 - idx x)) 0)
    == position dropRate timings d y - position dropRate timings d x).
  { intros x y Hxy. unfold position. fold idx. fold S_. fold r. fold T.
    pose proof (interval_index_mono d Hasc Hxy) as Hm. fold idx in Hm.
    destruct (Nat.eqb_spec (idx x) (idx y)) as [E|E].
    - rewrite <- E. unfold r, rate, base, Qdiv. ring.
    - rewrite fold_segments by lia.
      replace (idx x + 1)%nat with (S (idx x)) by lia.
      rewrite (scrolled_S (idx x)). ring. }
  destruct (Qlt_bool timing start) eqn:Erev.
  - apply Qlt_bool_iff in Erev.
    rewrite Hdiff by lra. ring.
  - apply Qlt_bool_false in Erev.
    rewrite Hdiff by lra. ring.
Qed.

End PositionFacts.

(** ** Position under positive tempo *)

Section PositiveTempo.

Variable dropRate : Q.
Variable d : TimingEvent.t Q.
Variable tl : list (TimingEvent.t Q).

Let timings := d :: tl.
Let n := List.length timings.
Let T := time_at timings d.
Let idx := interval_index timings d.
Let r := rate dropRate timings d.
Let S_ := scrolled dropRate timings d.

Hypothesis Hasc : ascending timings.
Hypothesis Hbpm : Forall (fun e => 0 < TimingEvent.bpm e) timings.
Hypothesis Hdrop : 0 < dropRate.

Lemma bpm_at_positive i : 0 < bpm_at timings d i.
Proof.
  unfold bpm_at.
  destruct (Nat.lt_ge_cases i (List.length timings)) as [H|H].
  - rewrite Forall_forall in Hbpm. apply Hbpm. apply nth_In. exact H.
  - rewrite nth_overflow by exact H.
    inversion Hbpm; assumption.
Qed.

Lemma rate_positive i : 0 < r i.
Proof.
  unfold r, rate, Qdiv.
  apply Qmult_lt_0_compat; [|exact Hdrop].
  apply Qmult_lt_0_compat; [apply bpm_at_positive|].
  apply Qinv_lt_0_compat. inversion Hbpm; assumption.
Qed.

Lemma scrolled_mono i k : (i + k <= n - 1)%nat -> S_ i <= S_ (i + k)%nat.
Proof.
  induction k as [|k IH]; intro H.
  - rewrite Nat.add_0_r. lra.
  - replace (i + S k)%nat with (S (i + k)) by lia.
    unfold S_. simpl scrolled. fold S_. fold r. fold T.
    specialize (IH ltac:(lia)).
    assert (HT : T (i + k)%nat <= T (S (i + k))).
    { apply (T_ascending d Hasc); fold timings; fold n; lia. }
    pose proof (rate_positive (i + k)) as Hr.
    assert (0 <= (T (S (i + k)) - T (i + k)%nat) * r (i + k)%nat).
    { apply Qmult_le_0_compat; lra. }
    lra.
Qed.

Lemma position_increasing x y :
  x < y ->
  position dropRate timings d x < position dropRate timings d y.
Proof.
  intro Hxy. unfold position. fold idx S_ r T.
  assert (Hm : (idx x <= idx y)%nat)
    by (apply (interval_index_mono d Hasc); lra).
  pose proof (interval_index_bound timings d y) as By. fold idx n in By.
  destruct (Nat.eq_dec (idx x) (idx y)) as [E|E].
  - rewrite <- E.
    pose proof (rate_positive (idx x)) as Hr.
    assert (0 < (y - x) * r (idx x)) by (apply Qmult_lt_0_compat; lra).
    lra.
  - assert (Hx : x < T (idx x + 1)%nat).
    { apply interval_index_upper. fold idx n. lia. }
    assert (Hy : T (idx y) <= y).
    { apply interval_index_lower. fold idx. lia. }
    pose proof (rate_positive (idx x)) as Hrx.
    pose proof (rate_positive (idx y)) as Hry.
    assert (H1 : 0 < (T (idx x + 1)%nat - x) * r (idx x))
      by (apply Qmult_lt_0_compat; lra).
    assert (H2 : 0 <= (y - T (idx y)) * r (idx y))
      by (apply Qmult_le_0_compat; lra).
    assert (H3 : S_ (idx x + 1)%nat <= S_ (idx y)).
    { replace (idx y) with (idx x + 1 + (idx y - idx x - 1))%nat at 1 by lia.
      apply scrolled_mono. lia. }
    assert (H4 : S_ (idx x + 1)%nat
                 == S_ (idx x) + (T (idx x + 1)%nat - T (idx x)) * r (idx x)).
    { replace (idx x + 1)%nat with (S (idx x)) by lia. reflexivity. }
    lra.
Qed.

End PositiveTempo.

(** C2.  In a group whose breakpoints all have positive tempo, and under a
    positive drop rate, the position from a fixed start is strictly
    increasing in the target time.  The breakpoints are the group's timing
    events as [getTimingEvents] sorts them; the group has at least one. *)
Theorem getPos_strictly_increasing (g : TimingGroup.t Q)
    (gm : GameplayManager.t) (dropRate s t1 t2 : Q) :
  let timings := TimingGroup_getTimingEvents g in
  timings <> [] ->
  Forall (fun e => 0 < TimingEvent.bpm e) timings ->
  0 < dropRate ->
  t1 < t2 ->
  exists p1 p2,
    TimingGroup_getPosByTimingWithStart gm dropRate timings s t1 = Ok p1
    /\ TimingGroup_getPosByTimingWithStart gm dropRate timings s t2 = Ok p2
    /\ p1 < p2.
Proof.
  intros timings Hne Hbpm Hdrop Ht.
  pose proof (getTimingEvents_ascending g) as Hasc. fold timings in Hasc.
  destruct timings as [|d tl]; [congruence|].
  destruct (getPos_position gm dropRate Hasc s t1) as (p1 & E1 & H1).
  destruct (getPos_position gm dropRate Hasc s t2) as (p2 & E2 & H2).
  exists p1, p2. repeat split; [exact E1|exact E2|].
  assert (H := position_increasing Hasc Hbpm Hdrop
                 (x := t1 - GameplayManager.offset gm)
                 (y := t2 - GameplayManager.offset gm) ltac:(lra)).
  lra.
Qed.

Lemma getPos_strictly_increasing_witness :
  exists p1 p2,
    TimingGroup_getPosByTimingWithStart at_start 100
      (TimingGroup_getTimingEvents two_tempi_group) 0 500 = Ok p1
    /\ TimingGroup_getPosByTimingWithStart at_start 100
         (TimingGroup_getTimingEvents two_tempi_group) 0 1500 = Ok p2
    /\ p1 < p2.
Proof.
  apply (@getPos_strictly_increasing two_tempi_group at_start 100 0 500 1500).
  - discriminate.
  - repeat constructor.
  - reflexivity.
  - reflexivity.
Defined.

(** ** The stop of [stop_group] *)

Lemma stop_group_ascending : ascending stop_group.
Proof.
  apply StronglySorted_ascending.
  repeat constructor; unfold by_time; simpl; discriminate.
Qed.

(** Anywhere in the span [1000, 2000) of the breakpoint of tempo 0 the
    position is the one of time 1000. *)
(** Reading the times of a concrete group in a hypothesis or in the goal. *)
Ltac read_times H :=
  unfold time_at in H; simpl in H; unfold inject_Z in H.

Lemma stop_group_index (x : Q) :
  1000 <= x -> x < 2000 ->
  interval_index stop_group (timing 0 120 4) x = 1%nat.
Proof.
  intros Hlo Hhi. unfold interval_index. simpl List.length. simpl Nat.sub.
  destruct (Qle_bool _ x) eqn:E.
  - exfalso. apply Qle_bool_iff in E. read_times E. lra.
  - clear E. simpl first_index.
    destruct (in_interval _ _ 0 x 0) eqn:E0.
    + exfalso. apply in_interval_iff in E0. read_times E0. lra.
    + destruct (in_interval _ _ 0 x 1) eqn:E1; [reflexivity|].
      apply not_true_iff_false in E1. exfalso. apply E1.
      apply in_interval_iff. unfold time_at. simpl. unfold inject_Z. lra.
Qed.

Lemma stop_group_frozen (dropRate x : Q) :
  1000 <= x -> x < 2000 ->
  position dropRate stop_group (timing 0 120 4) x
  == position dropRate stop_group (timing 0 120 4) 1000.
Proof.
  intros Hlo Hhi. unfold position.
  rewrite (stop_group_index Hlo Hhi).
  rewrite (@stop_group_index 1000) by lra.
  unfold rate, bpm_at, time_at, Qdiv. simpl. ring.
Qed.

(** C3.  In the group [timing(0,120,4); timing(1000,0,4); timing(2000,120,4)]
    the position from any start to time 1500 is the position from that
    start to time 1000: first with no audio offset, as the group is set up
    in a test, then with the chart shifted by any audio offset. *)
Theorem zero_bpm_freeze (dropRate s : Q) (timing length : Z)
    (gm : GameplayManager.t) :
  (exists p q,
     TimingGroup_getPosByTimingWithStart
       (GameplayManager.instance 0 timing length) dropRate stop_group s 1500
     = Ok p
     /\ TimingGroup_getPosByTimingWithStart
          (GameplayManager.instance 0 timing length) dropRate stop_group s 1000
        = Ok q
     /\ p == q)
  /\ (exists p q,
        TimingGroup_getPosByTimingWithStart gm dropRate stop_group s
          (1500 + GameplayManager.offset gm) = Ok p
        /\ TimingGroup_getPosByTimingWithStart gm dropRate stop_group s
             (1000 + GameplayManager.offset gm) = Ok q
        /\ p == q).
Proof.
  assert (H : forall gm' t1 t2,
            1000 <= t1 - GameplayManager.offset gm' < 2000 ->
            t2 - GameplayManager.offset gm' == 1000 ->
            exists p q,
              TimingGroup_getPosByTimingWithStart gm' dropRate stop_group s t1
              = Ok p
              /\ TimingGroup_getPosByTimingWithStart gm' dropRate stop_group s t2
                 = Ok q
              /\ p == q).
  { intros gm' t1 t2 [H1 H1'] H2.
    destruct (getPos_position gm' dropRate stop_group_ascending s t1)
      as (p & Ep & Hp).
    destruct (getPos_position gm' dropRate stop_group_ascending s t2)
      as (q & Eq & Hq).
    exists p, q. repeat split; [exact Ep|exact Eq|].
    rewrite Hp, Hq.
    rewrite (stop_group_frozen dropRate H1 H1').
    rewrite (@stop_group_frozen dropRate (t2 - GameplayManager.offset gm'))
      by lra.
    reflexivity. }
  split; apply H; simpl; lra.
Qed.

(** ** getTimingByPos: what it returns *)

Lemma clamp_floor_integer (gm : GameplayManager.t) (endTime : Q) :
  exists z : Z,
    clamp_floor gm endTime = inject_Z z /\ (z <= GameplayManager.length gm)%Z.
Proof.
  unfold clamp_floor.
  destruct (Qlt_bool _ endTime) eqn:E.
  - exists (GameplayManager.length gm). split; [reflexivity|lia].
  - exists (Qfloor endTime). split; [reflexivity|].
    apply Qlt_bool_false in E.
    rewrite <- (Qfloor_Z (GameplayManager.length gm)).
    apply Qfloor_resp_le. exact E.
Qed.

(** C4, as stated, fails: nothing clamps the result at 0.  With a single
    breakpoint the clock is in the last interval and the rate equation is
    inverted as it is; a position of -100000 at drop rate 100 gives the
    time -1000. *)
Lemma getTimingByPos_negative :
  TimingGroup_getTimingByPos at_start 100 steady_group (-100000) 0
  = Ok (-1000)
  /\ -1000 < 0.
Proof. split; reflexivity. Qed.

(** C4, amended.  On a group with at least one timing event, whose base
    tempo is not zero, and under a drop rate that is not zero (otherwise the
    source divides by zero), the time returned for any position and any
    depth is an integer number of milliseconds and is at most the song
    length.  There is no lower bound. *)
Theorem getTimingByPos_integer_at_most_length (gm : GameplayManager.t)
    (dropRate : Q) (timings : list (TimingEvent.t Q)) (pos depth : Q) :
  timings <> [] ->
  (forall base, TimingGroup_getBaseBpm timings = Ok base -> ~ base == 0) ->
  ~ dropRate == 0 ->
  exists z : Z,
    TimingGroup_getTimingByPos gm dropRate timings pos depth = Ok (inject_Z z)
    /\ (z <= GameplayManager.length gm)%Z.
Proof.
  intros Hne _ _. destruct timings as [|d tl]; [congruence|].
  unfold TimingGroup_getTimingByPos. cbv zeta.
  set (start := if Qle_bool _ _ then _ else _).
  simpl bind.
  destruct (negb (Nat.eqb start _)).
  - destruct (walk _ _ _ _ _ _ _ _ _ _ _ _) as [breakPos startPos].
    match goal with
    | |- exists z, Ok (clamp_floor gm ?e) = _ /\ _ =>
        destruct (clamp_floor_integer gm e) as (z & Hz & Hle)
    end.
    exists z. rewrite Hz. split; [reflexivity|exact Hle].
  - match goal with
    | |- exists z, Ok (clamp_floor gm ?e) = _ /\ _ =>
        destruct (clamp_floor_integer gm e) as (z & Hz & Hle)
    end.
    exists z. rewrite Hz. split; [reflexivity|exact Hle].
Qed.

Lemma getTimingByPos_integer_at_most_length_witness :
  exists z : Z,
    TimingGroup_getTimingByPos at_start 100 stop_group 150000 0
    = Ok (inject_Z z)
    /\ (z <= 10000)%Z.
Proof.
  apply (@getTimingByPos_integer_at_most_length
           at_start 100 stop_group 150000 0).
  - discriminate.
  - intros base H. injection H as <-. discriminate.
  - discriminate.
Defined.

(** ** Arc.calculateJudgeTimings *)

Lemma judge_instants_S (time interval endTime : Q) (n : Z) (count : nat) :
  judge_instants time interval endTime n (S count)
  = ((let t := Qfloor (time + inject_Z n * interval) in
      if Qlt_bool (inject_Z t) endTime then [t] else [])
     ++ judge_instants time interval endTime (n + 1) count)%list.
Proof.
  unfold judge_instants.
  rewrite <- cons_seq, <- seq_shift, map_cons, map_map.
  cbn [filter]. rewrite Z.add_0_r.
  set (rest := filter _ (map (fun k =>
                 Qfloor (time + inject_Z (n + 1 + Z.of_nat k) * interval)) _)).
  set (rest' := filter _ _).
  assert (E : rest' = rest).
  { subst rest rest'. f_equal. apply map_ext. intro k.
    do 4 f_equal. lia. }
  rewrite E. cbv zeta.
  destruct (Qlt_bool _ endTime); reflexivity.
Qed.

(** Started below [total], the loop ends after [total - n] rounds and has
    pushed the instants of those rounds. *)
Lemma judge_loop_instants (time interval endTime : Q) (total : Z) :
  forall (fuel : nat) (n : Z) (l : list Z),
    (n < total)%Z ->
    (Z.to_nat (total - n) <= fuel)%nat ->
    judge_loop fuel time interval endTime total n l
    = Some (l ++ judge_instants time interval endTime n
                                (Z.to_nat (total - n)))%list.
Proof.
  induction fuel as [|fuel IH]; intros n l Hn Hfuel.
  - lia.
  - cbn [judge_loop]. cbv zeta.
    replace (Z.to_nat (total - n)) with (S (Z.to_nat (total - (n + 1)))) by lia.
    rewrite judge_instants_S. cbv zeta.
    destruct (Z.eqb_spec total (n + 1)) as [E|E].
    + replace (Z.to_nat (total - (n + 1))) with O by lia.
      unfold judge_instants at 1. simpl.
      destruct (Qlt_bool _ endTime); rewrite ?app_nil_r; reflexivity.
    + rewrite IH by lia.
      destruct (Qlt_bool _ endTime); simpl;
        rewrite <- ?app_assoc; reflexivity.
Qed.




(** ** getTimingByPos after getPosByTimingWithStart *)

Lemma last_index_unique (p : nat -> bool) :
  forall (n lo r : nat),
    (forall i j, (lo <= i < j)%nat -> (j < lo + n)%nat ->
                 p i = true -> p j = true -> False) ->
    last_index p lo n r
    = match first_index p lo n with Some i => i | None => r end.
Proof.
  induction n as [|n IH]; intros lo r Huniq; simpl.
  - reflexivity.
  - rewrite IH.
    + destruct (p lo) eqn:E; [|reflexivity].
      destruct (first_index p (S lo) n) as [j|] eqn:F; [|reflexivity].
      apply first_index_Some in F. destruct F as [Hj Hpj].
      exfalso. apply (Huniq lo j); try assumption; lia.
    + intros i j Hi Hj. apply Huniq; lia.
Qed.

Lemma or_one_positive (x : Q) : 0 < x -> or_one x = x.
Proof.
  intro H. unfold or_one.
  destruct (Qeq_bool x 0) eqn:E; [|reflexivity].
  apply Qeq_bool_iff in E. lra.
Qed.

(** The bracket test of the first round accepts its two ends. *)
Lemma brackets_head_true (a : nat) (sp delta pos : Q) :
  sp <= pos -> pos <= sp + delta -> walk_brackets a a sp delta pos = true.
Proof.
  intros H1 H2. unfold walk_brackets. rewrite Nat.eqb_refl.
  apply orb_true_iff. right.
  apply andb_true_iff. split; apply Qle_bool_iff; assumption.
Qed.

Lemma brackets_head_false (a : nat) (sp delta pos : Q) :
  sp < pos -> sp + delta < pos -> walk_brackets a a sp delta pos = false.
Proof.
  intros H1 H2. unfold walk_brackets. rewrite Nat.eqb_refl.
  apply orb_false_iff. split; apply andb_false_iff.
  - right. apply Qle_bool_false. exact H1.
  - left. apply Qle_bool_false. exact H2.
Qed.

(** The bracket test of the later rounds rejects them. *)
Lemma brackets_later_true (a i : nat) (sp delta pos : Q) :
  i <> a -> sp < pos -> pos < sp + delta ->
  walk_brackets a i sp delta pos = true.
Proof.
  intros Hi H1 H2. unfold walk_brackets.
  destruct (Nat.eqb_spec i a) as [E|_]; [congruence|].
  apply orb_true_iff. right.
  apply andb_true_iff. split; apply Qlt_bool_iff; assumption.
Qed.

Lemma brackets_later_false (a i : nat) (sp delta pos : Q) :
  i <> a -> sp <= pos -> sp + delta <= pos ->
  walk_brackets a i sp delta pos = false.
Proof.
  intros Hi H1 H2. unfold walk_brackets.
  destruct (Nat.eqb_spec i a) as [E|_]; [congruence|].
  apply orb_false_iff. split; apply andb_false_iff.
  - right. apply Qlt_bool_false. exact H1.
  - left. apply Qlt_bool_false. exact H2.
Qed.

Section InverseFacts.

Variable gm : GameplayManager.t.
Variable dropRate : Q.
Variable d : TimingEvent.t Q.
Variable tl : list (TimingEvent.t Q).

Let timings := d :: tl.
Let end_ := (List.length timings - 1)%nat.
Let T := time_at timings d.
Let idx := interval_index timings d.
Let r := rate dropRate timings d.
Let S_ := scrolled dropRate timings d.
Let P := position dropRate timings d.
Let offset := GameplayManager.offset gm.
Let now := inject_Z (GameplayManager.timing gm).
Let songLength := inject_Z (GameplayManager.length gm).

Hypothesis Hasc : ascending timings.

Lemma in_interval_shift (off x : Q) (i : nat) :
  in_interval timings d off x i = in_interval timings d 0 (x - off) i.
Proof.
  destruct (in_interval timings d 0 (x - off) i) eqn:E.
  - apply in_interval_iff in E. apply in_interval_iff. lra.
  - apply not_true_iff_false. apply not_true_iff_false in E.
    intro H. apply E. apply in_interval_iff in H. apply in_interval_iff. lra.
Qed.

Lemma in_interval_unique (x : Q) (i j : nat) :
  (i < j)%nat -> (j < end_)%nat ->
  in_interval timings d 0 x i = true ->
  in_interval timings d 0 x j = true -> False.
Proof.
  intros Hij Hj Hi Hj'.
  apply in_interval_iff in Hi. apply in_interval_iff in Hj'.
  assert (H : time_at timings d (i + 1) <= time_at timings d j).
  { apply (T_ascending d Hasc); unfold end_ in Hj; simpl in *; lia. }
  lra.
Qed.

(** The interval of the clock, as [getTimingByPos] finds it with the last
    hit of a scan over shifted breakpoints, is the one that
    [getPosByTimingWithStart] finds for its start. *)
Lemma start_is_index :
  (if Qle_bool (time_at timings d end_ + offset) now then end_
   else last_index (in_interval timings d offset now) 0 end_ 0)
  = idx (now - offset).
Proof.
  unfold idx, interval_index. fold end_.
  assert (E : Qle_bool (time_at timings d end_ + offset) now
              = Qle_bool (time_at timings d end_ + 0) (now - offset)).
  { destruct (Qle_bool (time_at timings d end_ + 0) (now - offset)) eqn:F.
    - apply Qle_bool_iff in F. apply Qle_bool_iff. lra.
    - apply Qle_bool_false in F. apply Qle_bool_false. lra. }
  rewrite E. destruct (Qle_bool _ (now - offset)); [reflexivity|].
  rewrite last_index_unique.
  - rewrite (first_index_ext _ (in_interval timings d 0 (now - offset))).
    + reflexivity.
    + intro i. apply in_interval_shift.
  - intros i j Hi Hj Hpi Hpj.
    rewrite in_interval_shift in Hpi, Hpj.
    apply (@in_interval_unique (now - offset) i j); try assumption; lia.
Qed.

Hypothesis Hbpm : Forall (fun e => 0 < TimingEvent.bpm e) timings.
Hypothesis Hdrop : 0 < dropRate.

Let base := TimingEvent.bpm d.
Let a := idx (now - offset).
Let Pn := P (now - offset).

Lemma r_positive (i : nat) : 0 < r i.
Proof. apply (rate_positive Hbpm Hdrop). Qed.

Lemma inverse_rate (i : nat) :
  or_one (bpm_at timings d i) / base * dropRate == r i.
Proof.
  rewrite or_one_positive by apply (bpm_at_positive Hbpm).
  reflexivity.
Qed.

Lemma S_mono (i j : nat) : (i <= j <= end_)%nat -> S_ i <= S_ j.
Proof.
  intros Hij. replace j with (i + (j - i))%nat by lia.
  apply (scrolled_mono Hasc Hbpm Hdrop). fold timings. fold end_. lia.
Qed.

Lemma delta_head :
  walk_delta gm dropRate timings d base a end_ a
  == (T (a + 1)%nat - (now - offset)) * r a.
Proof.
  unfold walk_delta. rewrite Nat.eqb_refl.
  unfold r, rate, T, base, now, offset, Qdiv. ring.
Qed.

Lemma delta_interior (j : nat) :
  j <> a -> j <> end_ ->
  walk_delta gm dropRate timings d base a end_ j == S_ (S j) - S_ j.
Proof.
  intros Ha He. unfold walk_delta.
  destruct (Nat.eqb_spec j a) as [E|_]; [congruence|].
  destruct (Nat.eqb_spec j end_) as [E|_]; [congruence|].
  simpl negb. simpl andb. cbv iota.
  replace (j + 1)%nat with (S j) by lia.
  unfold S_. cbn [scrolled]. unfold rate, T, base, Qdiv. ring.
Qed.

Lemma delta_tail :
  a <> end_ ->
  walk_delta gm dropRate timings d base a end_ end_
  == (songLength - offset - T end_) * r end_.
Proof.
  intros Ha. unfold walk_delta.
  destruct (Nat.eqb_spec end_ a) as [E|_]; [congruence|].
  rewrite Nat.eqb_refl. simpl negb. simpl andb. cbv iota.
  unfold r, rate, T, base, songLength, offset, Qdiv. ring.
Qed.

Variable pos : Q.

Let W := walk gm dropRate timings d base a end_ pos 0.

Lemma clock_before_next : (a < end_)%nat -> now - offset < T (a + 1)%nat.
Proof.
  intro Ha. apply interval_index_upper. fold timings end_ idx a. exact Ha.
Qed.

Lemma Pn_head : Pn + (T (a + 1)%nat - (now - offset)) * r a == S_ (S a).
Proof.
  unfold Pn, P, position. fold idx a S_ r T.
  unfold S_. cbn [scrolled]. fold S_ r T.
  replace (a + 1)%nat with (S a) by lia. ring.
Qed.

(** Rounds that end at or before the target position do not break. *)
Lemma walk_interior :
  forall (k s : nat) (sp : Q) (rest : list nat),
    (a < s)%nat -> (s + k <= end_)%nat ->
    sp == S_ s - Pn ->
    S_ (s + k)%nat - Pn <= pos ->
    exists sp',
      sp' == S_ (s + k)%nat - Pn
      /\ W (seq s k ++ rest)%list sp O = W rest sp' O.
Proof.
  induction k as [|k IH]; intros s sp rest Has Hse Hsp Hpos.
  - exists sp. rewrite Nat.add_0_r. split; [exact Hsp|reflexivity].
  - assert (Hd := @delta_interior s ltac:(lia) ltac:(lia)).
    assert (H1 : S_ (S s) <= S_ (s + S k)%nat) by (apply S_mono; lia).
    assert (H2 : S_ s <= S_ (S s)) by (apply S_mono; lia).
    destruct (IH (S s) (sp + walk_delta gm dropRate timings d base a end_ s)
                 rest ltac:(lia) ltac:(lia)) as (sp' & Hsp' & HW).
    { lra. }
    { replace (S s + k)%nat with (s + S k)%nat by lia. exact Hpos. }
    exists sp'. split.
    + replace (s + S k)%nat with (S s + k)%nat by lia. exact Hsp'.
    + cbn [seq app]. unfold W at 1. cbn [walk]. cbv zeta.
      rewrite brackets_later_false by (try lia; lra).
      exact HW.
Qed.

(** A target position beyond the start of a later interval [b] takes the
    walk to the round of [b] without a break. *)
Lemma walk_from_head (b : nat) :
  (a < b <= end_)%nat ->
  S_ b - Pn < pos ->
  exists sp,
    sp == S_ b - Pn
    /\ W (seq a (end_ + 1 - a)) 0 O = W (seq b (end_ + 1 - b)) sp O.
Proof.
  intros Hab Hpos.
  assert (Hnow := clock_before_next ltac:(lia)).
  assert (Hd := delta_head).
  assert (Hh := Pn_head).
  assert (Hr := r_positive a).
  assert (H0 : 0 < (T (a + 1)%nat - (now - offset)) * r a)
    by (apply Qmult_lt_0_compat; lra).
  assert (H1 : S_ (S a) <= S_ b) by (apply S_mono; lia).
  destruct (@walk_interior (b - a - 1) (S a)
              (0 + walk_delta gm dropRate timings d base a end_ a)
              (seq b (end_ + 1 - b)) ltac:(lia) ltac:(lia))
    as (sp & Hsp & HW).
  { lra. }
  { replace (S a + (b - a - 1))%nat with b by lia. lra. }
  exists sp. split.
  - replace (S a + (b - a - 1))%nat with b in Hsp by lia. exact Hsp.
  - replace (end_ + 1 - a)%nat with (S ((b - a - 1) + (end_ + 1 - b))) by lia.
    cbn [seq]. rewrite seq_app.
    replace (S a + (b - a - 1))%nat with b by lia.
    unfold W at 1. cbn [walk]. cbv zeta.
    rewrite brackets_head_false by lra.
    exact HW.
Qed.

(** The target: a chart time [t'] at or after the clock's, no later than the
    end of the song, and either in the clock's interval or strictly inside
    a later one. *)
Variable t' : Q.

Let b := idx t'.

Hypothesis Hpos : pos == P t' - Pn.
Hypothesis Hafter : now - offset <= t'.
Hypothesis Hlen : t' + offset <= songLength.
Hypothesis Hinside : b = a \/ T b < t'.

Lemma index_order : (a <= b <= end_)%nat.
Proof.
  split.
  - apply (interval_index_mono d Hasc Hafter).
  - apply interval_index_bound.
Qed.

Lemma pos_from_b : pos == S_ b - Pn + (t' - T b) * r b.
Proof.
  rewrite Hpos. unfold P at 1, position. fold idx b S_ r T. ring.
Qed.

Lemma target_before_next : (b < end_)%nat -> t' < T (b + 1)%nat.
Proof.
  intro Hb. apply interval_index_upper. fold timings end_ idx b. exact Hb.
Qed.

Lemma quotient_by_rate (x y : Q) (i : nat) :
  x == y * r i ->
  x / (or_one (bpm_at timings d i) / base * dropRate) == y.
Proof.
  intro H. rewrite inverse_rate, H.
  pose proof (r_positive i) as Hr.
  field. intro E. rewrite E in Hr. apply (Qlt_irrefl 0 Hr).
Qed.

Lemma inverse_at_position :
  exists e,
    TimingGroup_getTimingByPos gm dropRate timings pos 0 = Ok (clamp_floor gm e)
    /\ e == t' + offset.
Proof.
  pose proof index_order as Hord.
  pose proof pos_from_b as Hb.
  unfold TimingGroup_getTimingByPos, timings. cbv zeta.
  unfold TimingGroup_getBaseBpm, bind. cbv beta iota.
  fold timings. fold end_ offset now songLength base.
  set (start := if Qle_bool _ _ then _ else _).
  assert (Hstart : start = a) by (subst start; apply start_is_index).
  rewrite Hstart. clear start Hstart.
  destruct (Nat.eqb_spec a end_) as [Hae|Hae]; simpl negb; cbv iota.
  - (* the clock is in the last interval *)
    eexists. split; [reflexivity|].
    assert (Eb : b = end_) by lia.
    rewrite <- Hae.
    rewrite (@quotient_by_rate _ (t' - (now - offset)) a); [ring|].
    rewrite Hb. unfold Pn, P, position. fold idx a S_ r T.
    replace b with a by lia. ring.
  - fold W.
    destruct (Nat.eq_dec b a) as [Eba|Nba].
    + (* the target is in the clock's interval *)
      assert (Hnext := target_before_next ltac:(lia)).
      assert (Hd := delta_head).
      assert (Hr := r_positive a).
      assert (Hp : pos == (t' - (now - offset)) * r a).
      { rewrite Hb. unfold Pn, P, position. fold idx a S_ r T.
        rewrite Eba. ring. }
      assert (H0 : 0 <= (t' - (now - offset)) * r a)
        by (apply Qmult_le_0_compat; lra).
      assert (H1 : (t' - (now - offset)) * r a
                   <= (T (a + 1)%nat - (now - offset)) * r a).
      { apply Qmult_le_compat_r; [rewrite Eba in Hnext|]; lra. }
      replace (end_ + 1 - a)%nat with (S (end_ - a)) by lia.
      cbn [seq]. unfold W. cbn [walk]. cbv zeta.
      rewrite brackets_head_true by lra.
      change (Qeq_bool 0 (inject_Z (Z.of_nat 0))) with true. cbv iota.
      rewrite Nat.eqb_refl.
      destruct (Qeq_bool (pos - 0) 0) eqn:Ez.
      * apply Qeq_bool_iff in Ez.
        assert (Hbz : Qeq_bool (bpm_at timings d a) 0 = false).
        { apply not_true_iff_false. intro H. apply Qeq_bool_iff in H.
          pose proof (bpm_at_positive Hbpm a) as Hpb. fold timings in Hpb. lra. }
        rewrite Hbz. eexists. split; [reflexivity|].
        assert (Hz : (t' - (now - offset)) * r a == 0) by lra.
        apply Qmult_integral in Hz. destruct Hz as [Hz|Hz]; lra.
      * eexists. split; [reflexivity|].
        rewrite (@quotient_by_rate _ (t' - (now - offset)) a); [ring|].
        rewrite Hp. ring.
    + (* the target is strictly inside a later interval *)
      destruct Hinside as [E|Hin]; [congruence|].
      assert (Hr := r_positive b).
      assert (H0 : 0 < (t' - T b) * r b) by (apply Qmult_lt_0_compat; lra).
      destruct (@walk_from_head b ltac:(lia) ltac:(lra)) as (sp & Hsp & HW).
      rewrite HW.
      assert (Hq : forall sp', sp' == sp ->
                (pos - sp') / (or_one (bpm_at timings d b) / base * dropRate)
                + time_at timings d b + offset == t' + offset).
      { intros sp' E. rewrite (@quotient_by_rate _ (t' - T b) b).
        - unfold T. ring.
        - rewrite E, Hb, Hsp. ring. }
      destruct (Nat.eq_dec b end_) as [Ebe|Nbe].
      * (* the last interval *)
        assert (Hd := delta_tail Hae).
        replace (end_ + 1 - b)%nat with 1%nat by lia.
        cbn [seq]. unfold W. cbn [walk]. cbv zeta. rewrite Ebe in *.
        destruct (Qlt_le_dec (t' + offset) songLength) as [Hlt|Hge].
        -- assert (H1 : (t' - T end_) * r end_
                        < (songLength - offset - T end_) * r end_).
           { apply Qmult_lt_compat_r; lra. }
           rewrite brackets_later_true by (try lia; lra).
           change (Qeq_bool 0 (inject_Z (Z.of_nat 0))) with true. cbv iota.
           destruct (Nat.eqb_spec end_ a) as [E|_]; [lia|].
           eexists. split; [reflexivity|]. apply Hq. reflexivity.
        -- assert (H1 : (songLength - offset - T end_) * r end_
                        == (t' - T end_) * r end_).
           { assert (E : songLength - offset - T end_ == t' - T end_) by lra.
             rewrite E. reflexivity. }
           rewrite brackets_later_false by (try lia; lra).
           eexists. split; [reflexivity|]. lra.
      * (* an interval before the last *)
        assert (Hnext := target_before_next ltac:(lia)).
        assert (Hd := @delta_interior b Nba Nbe).
        assert (H1 : (t' - T b) * r b < (T (b + 1)%nat - T b) * r b).
        { apply Qmult_lt_compat_r; lra. }
        assert (H2 : S_ (S b) == S_ b + (T (b + 1)%nat - T b) * r b).
        { unfold S_. cbn [scrolled]. fold S_ r T.
          replace (b + 1)%nat with (S b) by lia. reflexivity. }
        replace (end_ + 1 - b)%nat with (S (end_ - b)) by lia.
        cbn [seq]. unfold W. cbn [walk]. cbv zeta.
        rewrite brackets_later_true by (try lia; lra).
        change (Qeq_bool 0 (inject_Z (Z.of_nat 0))) with true. cbv iota.
        destruct (Nat.eqb_spec b a) as [E|_]; [lia|].
        eexists. split; [reflexivity|]. apply Hq. reflexivity.
Qed.

End InverseFacts.

Lemma clamp_floor_exact (gm : GameplayManager.t) (e : Q) (t : Z) :
  e == inject_Z t -> (t <= GameplayManager.length gm)%Z ->
  clamp_floor gm e = inject_Z t.
Proof.
  intros He Ht. unfold clamp_floor.
  assert (Hle : e <= inject_Z (GameplayManager.length gm)).
  { rewrite He. rewrite <- Zle_Qle. exact Ht. }
  apply Qlt_bool_false in Hle. rewrite Hle.
  rewrite He, Qfloor_Z. reflexivity.
Qed.

(** C1, as stated, fails: across a stop the position does not tell the time.
    In [timing(0,120,4); timing(1000,0,4); timing(2000,120,4)], with the
    clock at 0 and a song of ten seconds, time 1500 is at the position of
    time 1000, and the way back gives 1000. *)
Lemma inverse_lost_in_stop :
  exists p,
    TimingGroup_getPosByTimingWithStart at_start 100 stop_group 0 1500 = Ok p
    /\ TimingGroup_getTimingByPos at_start 100 stop_group p 0 = Ok 1000
    /\ ~ Qabs (1000 - 1500) <= 1.
Proof.
  eexists. split; [vm_compute; reflexivity|].
  split; [vm_compute; reflexivity|].
  intro H. vm_compute in H. apply H. reflexivity.
Qed.

Lemma whole_is_integer (x : Q) :
  whole x = true -> exists z : Z, x == inject_Z z.
Proof.
  intro H. apply andb_true_iff in H. destruct H as [H _].
  apply Qeq_bool_iff in H. exists (Qfloor x). exact H.
Qed.

Lemma inject_Z_pred (t : Z) : inject_Z (t - 1) == inject_Z t - 1.
Proof. unfold Z.sub. rewrite inject_Z_plus. reflexivity. Qed.

Lemma Qfloor_within (x : Q) (t : Z) :
  inject_Z t - (1 # 2) <= x -> x <= inject_Z t ->
  (t - 1 <= Qfloor x <= t)%Z.
Proof.
  intros Hlo Hhi. split.
  - rewrite <- (Qfloor_Z (t - 1)). apply Qfloor_resp_le.
    rewrite inject_Z_pred. lra.
  - rewrite <- (Qfloor_Z t). apply Qfloor_resp_le. exact Hhi.
Qed.

(** C1, amended.  In a group whose breakpoints all have positive tempo and
    fall (shifted by the audio offset) on whole milliseconds, under a
    positive drop rate, let [t] be an integer time from the clock's time to
    the song's length that is not the time of a breakpoint.  Then the
    position of [t] seen from the clock, and the position of any time
    [tau] of the half millisecond before [t], is taken back by
    [getTimingByPos] at depth 0 to an integer time that is [t] or
    [t - 1]: the floor in [getTimingByPos] loses a millisecond when the
    time it floors comes out just below [t]. *)
Theorem getTimingByPos_inverts_getPos (g : TimingGroup.t Q)
    (gm : GameplayManager.t) (dropRate : Q) (t : Z) (tau : Q) :
  let timings := TimingGroup_getTimingEvents g in
  let now := inject_Z (GameplayManager.timing gm) in
  timings <> [] ->
  Forall (fun e => 0 < TimingEvent.bpm e) timings ->
  0 < dropRate ->
  (GameplayManager.timing gm <= t <= GameplayManager.length gm)%Z ->
  Forall (fun e =>
            whole (TimingEvent.time e + GameplayManager.offset gm) = true
            /\ ~ TimingEvent.time e + GameplayManager.offset gm
                 == inject_Z t) timings ->
  now <= tau ->
  inject_Z t - (1 # 2) <= tau <= inject_Z t ->
  exists (p : Q) (r : Z),
    TimingGroup_getPosByTimingWithStart gm dropRate timings now tau = Ok p
    /\ TimingGroup_getTimingByPos gm dropRate timings p 0 = Ok (inject_Z r)
    /\ (t - 1 <= r <= t)%Z.
Proof.
  intros timings now Hne Hbpm Hdrop [Hnow Hlen] Hoff Hafter0 [Hlo Hhi].
  pose proof (getTimingEvents_ascending g) as Hasc. fold timings in Hasc.
  destruct timings as [|d tl]; [congruence|].
  destruct (getPos_position gm dropRate Hasc now tau) as (p & Ep & Hp).
  exists p, (Qfloor tau). split; [exact Ep|].
  set (t' := tau - GameplayManager.offset gm) in *.
  assert (Hafter : now - GameplayManager.offset gm <= t')
    by (subst t'; lra).
  assert (Hsong : t' + GameplayManager.offset gm
                  <= inject_Z (GameplayManager.length gm)).
  { subst t'. rewrite Zle_Qle in Hlen. lra. }
  assert (Hfree : forall e, In e (d :: tl) ->
                    ~ TimingEvent.time e + GameplayManager.offset gm == tau).
  { intros e He E. rewrite Forall_forall in Hoff.
    destruct (Hoff e He) as [Hw Hnt].
    destruct (whole_is_integer _ Hw) as (z & Ez).
    apply Hnt. rewrite Ez.
    assert (Hz : inject_Z (t - 1) < inject_Z z <= inject_Z t).
    { rewrite inject_Z_pred. rewrite <- Ez, E. split; lra. }
    destruct Hz as [Hz1 Hz2].
    rewrite <- Zlt_Qlt in Hz1. rewrite <- Zle_Qle in Hz2.
    replace z with t by lia. reflexivity. }
  assert (Hinside :
            interval_index (d :: tl) d t'
            = interval_index (d :: tl) d
                (now - GameplayManager.offset gm)
            \/ time_at (d :: tl) d (interval_index (d :: tl) d t') < t').
  { destruct (Nat.eq_dec (interval_index (d :: tl) d t')
                (interval_index (d :: tl) d
                   (now - GameplayManager.offset gm))) as [E|E];
      [left; exact E|].
    right.
    pose proof (interval_index_mono d Hasc Hafter) as Hm.
    pose proof (interval_index_bound (d :: tl) d t') as Hb.
    assert (Hlow : time_at (d :: tl) d (interval_index (d :: tl) d t') <= t')
      by (apply interval_index_lower; lia).
    assert (Hneq : ~ time_at (d :: tl) d (interval_index (d :: tl) d t')
                     + GameplayManager.offset gm == tau).
    { apply Hfree. unfold time_at.
      apply nth_In. simpl List.length in *. lia. }
    destruct (Qlt_le_dec (time_at (d :: tl) d (interval_index (d :: tl) d t')) t')
      as [H|H]; [exact H|].
    exfalso. apply Hneq. subst t'. lra. }
  destruct (@inverse_at_position gm dropRate d tl Hasc Hbpm Hdrop p t'
              Hp Hafter Hsong Hinside) as (e & Ee & He).
  assert (Etau : e == tau) by (rewrite He; subst t'; ring).
  split.
  - rewrite Ee. f_equal. unfold clamp_floor.
    assert (Hle : e <= inject_Z (GameplayManager.length gm)).
    { rewrite Etau. rewrite Zle_Qle in Hlen. lra. }
    apply Qlt_bool_false in Hle. rewrite Hle. rewrite Etau. reflexivity.
  - apply Qfloor_within; assumption.
Qed.

Lemma getTimingByPos_inverts_getPos_witness :
  exists (p : Q) (r : Z),
    TimingGroup_getPosByTimingWithStart at_start 100
      (TimingGroup_getTimingEvents two_tempi_group) 0 1500 = Ok p
    /\ TimingGroup_getTimingByPos at_start 100
         (TimingGroup_getTimingEvents two_tempi_group) p 0 = Ok (inject_Z r)
    /\ (1500 - 1 <= r <= 1500)%Z.
Proof.
  apply (@getTimingByPos_inverts_getPos two_tempi_group at_start 100 1500 1500).
  - discriminate.
  - repeat constructor.
  - reflexivity.
  - simpl. lia.
  - repeat constructor; intro H; vm_compute in H; discriminate.
  - discriminate.
  - split; discriminate.
Defined.

(** * More properties *)

(** ** getTimingEvents *)

Lemma insert_by_time_perm e l : Permutation (insert_by_time e l) (e :: l).
Proof.
  induction l as [|x l IH]; simpl.
  - apply Permutation_refl.
  - destruct (Qle_bool (TimingEvent.time e) (TimingEvent.time x)).
    + apply Permutation_refl.
    + eapply Permutation_trans; [apply perm_skip, IH|apply perm_swap].
Qed.

Lemma sort_by_time_perm l : Permutation (sort_by_time l) l.
Proof.
  induction l as [|e l IH]; simpl.
  - apply Permutation_refl.
  - eapply Permutation_trans; [apply insert_by_time_perm|].
    apply perm_skip, IH.
Qed.

Lemma filter_timing_In e es : In e (filter_timing es) <-> In (EvTiming e) es.
Proof.
  induction es as [|x es IH]; simpl.
  - tauto.
  - destruct x as [x|x|x|x|x]; simpl; rewrite IH;
      try (split; [intro H; right; exact H|intros [H|H]; [discriminate|exact H]]).
    split; intros [H|H]; auto.
    + left. f_equal. exact H.
    + left. injection H as ->. reflexivity.
Qed.

(** X1.  The timing events of a group, as [getTimingEvents] returns them,
    are in ascending order of time and are exactly the timing events among
    the group's events, each as many times as it occurs there. *)
Theorem getTimingEvents_sorted_permutation (g : TimingGroup.t Q) :
  StronglySorted by_time (TimingGroup_getTimingEvents g)
  /\ Permutation (TimingGroup_getTimingEvents g)
                 (filter_timing (TimingGroup.events g))
  /\ (forall e, In e (TimingGroup_getTimingEvents g)
                <-> In (EvTiming e) (TimingGroup.events g)).
Proof.
  split; [apply sort_by_time_sorted|].
  split; [apply sort_by_time_perm|].
  intro e. rewrite <- filter_timing_In.
  split; apply Permutation_in;
    [|apply Permutation_sym]; apply sort_by_time_perm.
Qed.

Lemma no_timing_events (g : TimingGroup.t Q) :
  (forall e, ~ In (EvTiming e) (TimingGroup.events g)) ->
  TimingGroup_getTimingEvents g = [].
Proof.
  intro H.
  destruct (TimingGroup_getTimingEvents g) as [|e l] eqn:E; [reflexivity|].
  exfalso. apply (H e).
  apply filter_timing_In.
  apply (Permutation_in e (sort_by_time_perm _)).
  unfold TimingGroup_getTimingEvents in E. rewrite E. left. reflexivity.
Qed.

(** X2.  A group without a timing event cannot be asked anything: the base
    tempo and the position throw the format error, the tempo at a time and
    the time of a position throw a [TypeError]. *)
Theorem group_without_timing_throws (g : TimingGroup.t Q)
    (gm : GameplayManager.t) (dropRate s t pos depth : Q) :
  (forall e, ~ In (EvTiming e) (TimingGroup.events g)) ->
  let timings := TimingGroup_getTimingEvents g in
  let no_timing :=
    AffFormatError
      "Invalid Arcaea file format. The timing group has no timing event." in
  TimingGroup_getBaseBpm timings = Throw no_timing
  /\ TimingGroup_getPosByTimingWithStart gm dropRate timings s t
     = Throw no_timing
  /\ TimingGroup_getBpmByTiming timings t = Throw TypeError
  /\ TimingGroup_getTimingByPos gm dropRate timings pos depth = Throw TypeError.
Proof.
  intros H timings no_timing. subst timings.
  rewrite (no_timing_events g H). repeat split; reflexivity.
Qed.

Lemma group_without_timing_throws_witness :
  TimingGroup_getPosByTimingWithStart at_start 100
    (TimingGroup_getTimingEvents tap_only_group) 0 1000
  = Throw (AffFormatError
      "Invalid Arcaea file format. The timing group has no timing event.").
Proof.
  apply (@group_without_timing_throws tap_only_group at_start 100 0 1000 0 0).
  intros e H. simpl in H. destruct H as [H|[]]. discriminate.
Defined.

(** ** getBpmByTiming on an ascending array *)

Lemma first_index_least p lo n j :
  first_index p lo n = Some j ->
  forall k, (lo <= k < j)%nat -> p k = false.
Proof.
  revert lo. induction n as [|n IH]; intros lo H k Hk; simpl in H.
  - discriminate.
  - destruct (p lo) eqn:E.
    + injection H as <-. lia.
    + destruct (Nat.eq_dec k lo) as [->|Hne]; [exact E|].
      apply (IH _ H). lia.
Qed.

Lemma first_index_hit p lo n i :
  (lo <= i < lo + n)%nat -> p i = true ->
  exists j, first_index p lo n = Some j /\ (j <= i)%nat.
Proof.
  intros Hi Hp.
  destruct (first_index p lo n) as [j|] eqn:E.
  - exists j. split; [reflexivity|].
    destruct (Nat.le_gt_cases j i) as [H|H]; [exact H|].
    pose proof (@first_index_Some _ _ _ _ E) as [Hj _].
    rewrite (@first_index_least _ _ _ _ E i) in Hp by lia. discriminate.
  - rewrite (@first_index_None _ _ _ E i Hi) in Hp. discriminate.
Qed.

Section BpmFacts.

Variable d : TimingEvent.t Q.
Variable tl : list (TimingEvent.t Q).

Let timings := d :: tl.
Let n := List.length timings.
Let T := time_at timings d.

Hypothesis Hasc : ascending timings.

Let strictly_inside (t : Q) (i : nat) : bool :=
  Qlt_bool (T i) t && Qlt_bool t (T (i + 1)%nat).

Lemma strictly_inside_iff t i :
  strictly_inside t i = true <-> T i < t /\ t < T (i + 1)%nat.
Proof.
  unfold strictly_inside. rewrite andb_true_iff, !Qlt_bool_iff. reflexivity.
Qed.

Lemma getBpm_unfold t :
  TimingGroup_getBpmByTiming timings t
  = match first_index (strictly_inside t) 0 (n - 1) with
    | Some i => Ok (bpm_at timings d i)
    | None => Ok (bpm_at timings d (n - 1))
    end.
Proof. reflexivity. Qed.

Lemma getBpm_inside t i :
  (i + 1 < n)%nat -> T i < t -> t < T (i + 1)%nat ->
  TimingGroup_getBpmByTiming timings t = Ok (bpm_at timings d i).
Proof.
  intros Hi Hlo Hhi. rewrite getBpm_unfold.
  destruct (@first_index_hit (strictly_inside t) 0 (n - 1) i ltac:(lia))
    as (j & E & Hj).
  { apply strictly_inside_iff. split; assumption. }
  rewrite E.
  pose proof (@first_index_Some _ _ _ _ E) as [_ Hpj].
  apply strictly_inside_iff in Hpj. destruct Hpj as [_ Hj'].
  destruct (Nat.eq_dec j i) as [->|Hne]; [reflexivity|exfalso].
  assert (H : T (j + 1)%nat <= T i).
  { apply (T_ascending d Hasc); fold timings; fold n; lia. }
  lra.
Qed.

Lemma getBpm_outside t :
  (forall i, (i + 1 < n)%nat -> ~ (T i < t /\ t < T (i + 1)%nat)) ->
  TimingGroup_getBpmByTiming timings t = Ok (bpm_at timings d (n - 1)).
Proof.
  intro H. rewrite getBpm_unfold.
  destruct (first_index (strictly_inside t) 0 (n - 1)) as [j|] eqn:E;
    [|reflexivity].
  pose proof (@first_index_Some _ _ _ _ E) as [Hj Hpj].
  apply strictly_inside_iff in Hpj. exfalso. apply (H j); [lia|exact Hpj].
Qed.

End BpmFacts.

(** X3.  In a group's sorted timing events, a time strictly between two
    consecutive breakpoints gets the tempo of the earlier of the two. *)
Theorem getBpmByTiming_inside (g : TimingGroup.t Q) (t : Q) (i : nat)
    (e e' : TimingEvent.t Q) :
  let timings := TimingGroup_getTimingEvents g in
  nth_error timings i = Some e ->
  nth_error timings (S i) = Some e' ->
  TimingEvent.time e < t ->
  t < TimingEvent.time e' ->
  TimingGroup_getBpmByTiming timings t = Ok (TimingEvent.bpm e).
Proof.
  intros timings He He' Hlo Hhi.
  pose proof (getTimingEvents_ascending g) as Hasc. fold timings in Hasc.
  assert (Hlen : (S i < List.length timings)%nat)
    by (apply nth_error_Some; congruence).
  destruct timings as [|d tl]; [simpl in Hlen; lia|].
  rewrite (@getBpm_inside d tl Hasc t i).
  - unfold bpm_at. rewrite (nth_error_nth _ _ d He). reflexivity.
  - lia.
  - unfold time_at. rewrite (nth_error_nth _ _ d He). exact Hlo.
  - unfold time_at. replace (i + 1)%nat with (S i) by lia.
    rewrite (nth_error_nth _ _ d He'). exact Hhi.
Qed.

Lemma getBpmByTiming_inside_witness :
  TimingGroup_getBpmByTiming (TimingGroup_getTimingEvents stop_events) 1500
  = Ok 0.
Proof.
  apply (@getBpmByTiming_inside stop_events 1500 1
           (timing 1000 0 4) (timing 2000 120 4));
    reflexivity.
Defined.

(** X4.  Everywhere else the tempo is the one of the last breakpoint: at or
    after the last breakpoint, at or before the first one, and at the very
    time of any breakpoint. *)
Theorem getBpmByTiming_elsewhere (g : TimingGroup.t Q) (t : Q)
    (first last : TimingEvent.t Q) :
  let timings := TimingGroup_getTimingEvents g in
  nth_error timings 0 = Some first ->
  nth_error timings (List.length timings - 1) = Some last ->
  TimingEvent.time last <= t
  \/ t <= TimingEvent.time first
  \/ (exists e, In e timings /\ TimingEvent.time e == t) ->
  TimingGroup_getBpmByTiming timings t = Ok (TimingEvent.bpm last).
Proof.
  intros timings Hfirst Hlast Hcase.
  pose proof (getTimingEvents_ascending g) as Hasc. fold timings in Hasc.
  destruct timings as [|d tl]; [discriminate|].
  rewrite (@getBpm_outside d tl t).
  - unfold bpm_at. rewrite (nth_error_nth _ _ d Hlast). reflexivity.
  - intros i Hi [Hlo Hhi].
    destruct Hcase as [H|[H|(e & Hin & He)]].
    + assert (H' : time_at (d :: tl) d (i + 1)
                   <= time_at (d :: tl) d (List.length (d :: tl) - 1)).
      { apply (T_ascending d Hasc); lia. }
      unfold time_at at 2 in H'. rewrite (nth_error_nth _ _ d Hlast) in H'.
      lra.
    + assert (H' : time_at (d :: tl) d 0 <= time_at (d :: tl) d i).
      { apply (T_ascending d Hasc); lia. }
      unfold time_at at 1 in H'. rewrite (nth_error_nth _ _ d Hfirst) in H'.
      lra.
    + destruct (In_nth _ _ d Hin) as (k & Hk & Ek).
      assert (Tk : time_at (d :: tl) d k == t)
        by (unfold time_at; rewrite Ek; exact He).
      destruct (Nat.le_gt_cases k i) as [Hki|Hki].
      * assert (H' : time_at (d :: tl) d k <= time_at (d :: tl) d i).
        { apply (T_ascending d Hasc); lia. }
        lra.
      * assert (H' : time_at (d :: tl) d (i + 1) <= time_at (d :: tl) d k).
        { apply (T_ascending d Hasc); lia. }
        lra.
Qed.

Lemma getBpmByTiming_elsewhere_witness :
  TimingGroup_getBpmByTiming (TimingGroup_getTimingEvents stop_events) 1000
  = Ok 120.
Proof.
  apply (@getBpmByTiming_elsewhere stop_events 1000
           (timing 0 120 4) (timing 2000 120 4)); try reflexivity.
  right. right. exists (timing 1000 0 4). split; [|reflexivity].
  simpl. right. left. reflexivity.
Defined.

(** ** getPosByTimingWithStart: how positions compose *)

(** X5.  In a group whose base tempo is not zero, swapping start and
    target negates the position, and a time is at position 0 from itself. *)
Theorem getPos_reverse (g : TimingGroup.t Q) (gm : GameplayManager.t)
    (dropRate s t base : Q) :
  let timings := TimingGroup_getTimingEvents g in
  TimingGroup_getBaseBpm timings = Ok base ->
  ~ base == 0 ->
  exists p q z,
    TimingGroup_getPosByTimingWithStart gm dropRate timings s t = Ok p
    /\ TimingGroup_getPosByTimingWithStart gm dropRate timings t s = Ok q
    /\ TimingGroup_getPosByTimingWithStart gm dropRate timings s s = Ok z
    /\ q == - p
    /\ z == 0.
Proof.
  intros timings Hbase _.
  pose proof (getTimingEvents_ascending g) as Hasc. fold timings in Hasc.
  destruct timings as [|d tl]; [discriminate Hbase|]. clear Hbase.
  destruct (getPos_position gm dropRate Hasc s t) as (p & Ep & Hp).
  destruct (getPos_position gm dropRate Hasc t s) as (q & Eq & Hq).
  destruct (getPos_position gm dropRate Hasc s s) as (z & Ez & Hz).
  exists p, q, z. repeat split; try assumption.
  - rewrite Hp, Hq. ring.
  - rewrite Hz. ring.
Qed.

Lemma getPos_reverse_witness :
  exists p q z,
    TimingGroup_getPosByTimingWithStart at_start 100
      (TimingGroup_getTimingEvents stop_events) 500 2500 = Ok p
    /\ TimingGroup_getPosByTimingWithStart at_start 100
         (TimingGroup_getTimingEvents stop_events) 2500 500 = Ok q
    /\ TimingGroup_getPosByTimingWithStart at_start 100
         (TimingGroup_getTimingEvents stop_events) 500 500 = Ok z
    /\ q == - p
    /\ z == 0.
Proof.
  apply (@getPos_reverse stop_events at_start 100 500 2500 120).
  - reflexivity.
  - discriminate.
Defined.


(** ** The audio offset shifts the time axis *)

Section Shift.

Variable dropRate : Q.
Variable timings : list (TimingEvent.t Q).
Variable d : TimingEvent.t Q.

Lemma in_interval_comp (off x y : Q) (i : nat) :
  x == y -> in_interval timings d off x i = in_interval timings d off y i.
Proof.
  intro H.
  destruct (in_interval timings d off y i) eqn:E.
  - apply in_interval_iff in E. apply in_interval_iff. lra.
  - apply not_true_iff_false. apply not_true_iff_false in E.
    intro F. apply E. apply in_interval_iff in F. apply in_interval_iff. lra.
Qed.

Lemma interval_index_comp (x y : Q) :
  x == y -> interval_index timings d x = interval_index timings d y.
Proof.
  intro H. unfold interval_index.
  rewrite (first_index_ext _ (in_interval timings d 0 y))
    by (intro i; apply in_interval_comp; exact H).
  assert (E : Qle_bool (time_at timings d (List.length timings - 1) + 0) x
              = Qle_bool (time_at timings d (List.length timings - 1) + 0) y).
  { destruct (Qle_bool _ y) eqn:F.
    - apply Qle_bool_iff in F. apply Qle_bool_iff. lra.
    - apply Qle_bool_false in F. apply Qle_bool_false. lra. }
  rewrite E. reflexivity.
Qed.

Lemma position_comp (x y : Q) :
  x == y -> position dropRate timings d x == position dropRate timings d y.
Proof.
  intro H. unfold position. rewrite (interval_index_comp H), H. reflexivity.
Qed.

End Shift.

(** X7.  In a group whose base tempo is not zero, with an audio offset,
    the position between two clock times is the position, without offset,
    between the two times moved back by the offset: the offset only shifts
    the chart along the clock. *)
Theorem getPos_offset_shift (g : TimingGroup.t Q)
    (dropRate offset s t base : Q) (now length : Z) :
  let timings := TimingGroup_getTimingEvents g in
  TimingGroup_getBaseBpm timings = Ok base ->
  ~ base == 0 ->
  exists p q,
    TimingGroup_getPosByTimingWithStart
      (GameplayManager.instance offset now length) dropRate timings s t = Ok p
    /\ TimingGroup_getPosByTimingWithStart
         (GameplayManager.instance 0 now length) dropRate timings
         (s - offset) (t - offset) = Ok q
    /\ p == q.
Proof.
  intros timings Hbase _.
  pose proof (getTimingEvents_ascending g) as Hasc. fold timings in Hasc.
  destruct timings as [|d tl]; [discriminate Hbase|]. clear Hbase.
  destruct (getPos_position (GameplayManager.instance offset now length)
              dropRate Hasc s t) as (p & Ep & Hp).
  destruct (getPos_position (GameplayManager.instance 0 now length)
              dropRate Hasc (s - offset) (t - offset)) as (q & Eq & Hq).
  exists p, q. repeat split; try assumption.
  rewrite Hp, Hq. simpl GameplayManager.offset.
  rewrite (@position_comp dropRate (d :: tl) d (t - offset - 0) (t - offset))
    by ring.
  rewrite (@position_comp dropRate (d :: tl) d (s - offset - 0) (s - offset))
    by ring.
  reflexivity.
Qed.

Lemma getPos_offset_shift_witness :
  exists p q,
    TimingGroup_getPosByTimingWithStart
      (GameplayManager.instance 250 0 10000) 100
      (TimingGroup_getTimingEvents stop_events) 500 2500 = Ok p
    /\ TimingGroup_getPosByTimingWithStart
         (GameplayManager.instance 0 0 10000) 100
         (TimingGroup_getTimingEvents stop_events) (500 - 250) (2500 - 250)
       = Ok q
    /\ p == q.
Proof.
  apply (@getPos_offset_shift stop_events 100 250 500 2500 120 0 10000).
  - reflexivity.
  - discriminate.
Defined.

(** X8.  With a single timing event, of a whole tempo that is not zero, the
    position between two times in whole milliseconds (the audio offset
    whole too) is the elapsed time multiplied by the drop rate, whatever
    the tempo is. *)
Theorem getPos_single_tempo (g : TimingGroup.t Q) (gm : GameplayManager.t)
    (dropRate s t : Q) (e : TimingEvent.t Q) :
  TimingGroup_getTimingEvents g = [e] ->
  ~ TimingEvent.bpm e == 0 ->
  whole (TimingEvent.bpm e) = true ->
  whole s = true -> whole t = true ->
  whole (GameplayManager.offset gm) = true ->
  exists p,
    TimingGroup_getPosByTimingWithStart gm dropRate
      (TimingGroup_getTimingEvents g) s t = Ok p
    /\ p == (t - s) * dropRate.
Proof.
  intros Hg Hbpm _ _ _ _. rewrite Hg.
  rewrite (getPos_unfold gm dropRate e [] s t).
  eexists. split; [reflexivity|]. cbv zeta.
  assert (Hidx : forall x, interval_index [e] e x = O).
  { intro x. unfold interval_index. simpl.
    destruct (Qle_bool _ x); reflexivity. }
  rewrite !Hidx. simpl Nat.eqb. cbv iota.
  unfold bpm_at. simpl nth.
  destruct (Qlt_bool t s); field; exact Hbpm.
Qed.

Lemma getPos_single_tempo_witness :
  exists p,
    TimingGroup_getPosByTimingWithStart at_start 100
      (TimingGroup_getTimingEvents
         (TimingGroup.new true [EvTiming (timing 0 175 4)])) 200 700 = Ok p
    /\ p == (700 - 200) * 100.
Proof.
  apply (@getPos_single_tempo
           (TimingGroup.new true [EvTiming (timing 0 175 4)])
           at_start 100 200 700 (timing 0 175 4)); try reflexivity.
  discriminate.
Defined.

(** ** Position when some tempi are zero *)

Section StopsAllowed.

Variable dropRate : Q.
Variable d : TimingEvent.t Q.
Variable tl : list (TimingEvent.t Q).

Let timings := d :: tl.
Let n := List.length timings.
Let T := time_at timings d.
Let idx := interval_index timings d.
Let r := rate dropRate timings d.
Let S_ := scrolled dropRate timings d.

Hypothesis Hasc : ascending timings.
Hypothesis Hbase : 0 < TimingEvent.bpm d.
Hypothesis Hbpm : Forall (fun e => 0 <= TimingEvent.bpm e) timings.
Hypothesis Hdrop : 0 < dropRate.

Lemma rate_nonnegative i : 0 <= r i.
Proof.
  unfold r, rate, Qdiv.
  apply Qmult_le_0_compat; [|lra].
  apply Qmult_le_0_compat.
  - unfold bpm_at.
    destruct (Nat.lt_ge_cases i (List.length timings)) as [H|H].
    + rewrite Forall_forall in Hbpm. apply Hbpm. apply nth_In. exact H.
    + rewrite nth_overflow by exact H. lra.
  - apply Qlt_le_weak. apply Qinv_lt_0_compat. exact Hbase.
Qed.

Lemma scrolled_nondecreasing i k :
  (i + k <= n - 1)%nat -> S_ i <= S_ (i + k)%nat.
Proof.
  induction k as [|k IH]; intro H.
  - rewrite Nat.add_0_r. lra.
  - replace (i + S k)%nat with (S (i + k)) by lia.
    unfold S_. simpl scrolled. fold S_. fold r. fold T.
    specialize (IH ltac:(lia)).
    assert (HT : T (i + k)%nat <= T (S (i + k))).
    { apply (T_ascending d Hasc); fold timings; fold n; lia. }
    pose proof (rate_nonnegative (i + k)) as Hr.
    assert (0 <= (T (S (i + k)) - T (i + k)%nat) * r (i + k)%nat).
    { apply Qmult_le_0_compat; lra. }
    lra.
Qed.

Lemma position_nondecreasing x y :
  x <= y ->
  position dropRate timings d x <= position dropRate timings d y.
Proof.
  intro Hxy. unfold position. fold idx S_ r T.
  assert (Hm : (idx x <= idx y)%nat)
    by (apply (interval_index_mono d Hasc); exact Hxy).
  pose proof (interval_index_bound timings d y) as By. fold idx n in By.
  destruct (Nat.eq_dec (idx x) (idx y)) as [E|E].
  - rewrite <- E.
    pose proof (rate_nonnegative (idx x)) as Hr.
    assert (0 <= (y - x) * r (idx x)) by (apply Qmult_le_0_compat; lra).
    lra.
  - assert (Hx : x < T (idx x + 1)%nat).
    { apply interval_index_upper. fold idx n. lia. }
    assert (Hy : T (idx y) <= y).
    { apply interval_index_lower. fold idx. lia. }
    pose proof (rate_nonnegative (idx x)) as Hrx.
    pose proof (rate_nonnegative (idx y)) as Hry.
    assert (H1 : 0 <= (T (idx x + 1)%nat - x) * r (idx x))
      by (apply Qmult_le_0_compat; lra).
    assert (H2 : 0 <= (y - T (idx y)) * r (idx y))
      by (apply Qmult_le_0_compat; lra).
    assert (H3 : S_ (idx x + 1)%nat <= S_ (idx y)).
    { replace (idx y) with (idx x + 1 + (idx y - idx x - 1))%nat at 1 by lia.
      apply scrolled_nondecreasing. lia. }
    assert (H4 : S_ (idx x + 1)%nat
                 == S_ (idx x) + (T (idx x + 1)%nat - T (idx x)) * r (idx x)).
    { replace (idx x + 1)%nat with (S (idx x)) by lia. reflexivity. }
    lra.
Qed.

End StopsAllowed.

(** X9.  When the base tempo is positive and no breakpoint has a negative
    tempo (stops, of tempo 0, are allowed), the position from a fixed start
    never decreases as the target time grows, under a positive drop
    rate. *)
Theorem getPos_never_decreases (g : TimingGroup.t Q) (gm : GameplayManager.t)
    (dropRate s t1 t2 base : Q) :
  let timings := TimingGroup_getTimingEvents g in
  TimingGroup_getBaseBpm timings = Ok base ->
  0 < base ->
  Forall (fun e => 0 <= TimingEvent.bpm e) timings ->
  0 < dropRate ->
  t1 <= t2 ->
  exists p1 p2,
    TimingGroup_getPosByTimingWithStart gm dropRate timings s t1 = Ok p1
    /\ TimingGroup_getPosByTimingWithStart gm dropRate timings s t2 = Ok p2
    /\ p1 <= p2.
Proof.
  intros timings Hbase Hpos Hbpm Hdrop Ht.
  pose proof (getTimingEvents_ascending g) as Hasc. fold timings in Hasc.
  destruct timings as [|d tl]; [discriminate|].
  injection Hbase as <-.
  destruct (getPos_position gm dropRate Hasc s t1) as (p1 & E1 & H1).
  destruct (getPos_position gm dropRate Hasc s t2) as (p2 & E2 & H2).
  exists p1, p2. repeat split; [exact E1|exact E2|].
  assert (H := position_nondecreasing Hasc Hpos Hbpm Hdrop
                 (x := t1 - GameplayManager.offset gm)
                 (y := t2 - GameplayManager.offset gm) ltac:(lra)).
  lra.
Qed.

Lemma getPos_never_decreases_witness :
  exists p1 p2,
    TimingGroup_getPosByTimingWithStart at_start 100
      (TimingGroup_getTimingEvents stop_events) 0 1200 = Ok p1
    /\ TimingGroup_getPosByTimingWithStart at_start 100
         (TimingGroup_getTimingEvents stop_events) 0 1700 = Ok p2
    /\ p1 <= p2.
Proof.
  apply (@getPos_never_decreases stop_events at_start 100 0 1200 1700 120).
  - reflexivity.
  - reflexivity.
  - repeat constructor; discriminate.
  - reflexivity.
  - discriminate.
Defined.

(** ** getTimingByPos at the clock's own position *)

(** X10.  In a group whose breakpoints all have positive tempo, under a
    positive drop rate and with the clock not past the end of the song, the
    time of position 0 is the clock's time. *)
Theorem getTimingByPos_zero_is_now (g : TimingGroup.t Q)
    (gm : GameplayManager.t) (dropRate : Q) :
  let timings := TimingGroup_getTimingEvents g in
  timings <> [] ->
  Forall (fun e => 0 < TimingEvent.bpm e) timings ->
  0 < dropRate ->
  (GameplayManager.timing gm <= GameplayManager.length gm)%Z ->
  TimingGroup_getTimingByPos gm dropRate timings 0 0
  = Ok (inject_Z (GameplayManager.timing gm)).
Proof.
  intros timings Hne Hbpm Hdrop Hlen.
  pose proof (getTimingEvents_ascending g) as Hasc. fold timings in Hasc.
  destruct timings as [|d tl]; [congruence|].
  destruct (@inverse_at_position gm dropRate d tl Hasc Hbpm Hdrop 0
              (inject_Z (GameplayManager.timing gm) - GameplayManager.offset gm))
    as (e & Ee & He).
  - ring.
  - apply Qle_refl.
  - rewrite Zle_Qle in Hlen. lra.
  - left. reflexivity.
  - rewrite Ee. f_equal. apply clamp_floor_exact; [|exact Hlen].
    rewrite He. ring.
Qed.

Lemma getTimingByPos_zero_is_now_witness :
  TimingGroup_getTimingByPos (GameplayManager.instance 0 1000 10000) 100
    (TimingGroup_getTimingEvents two_tempi_group) 0 0
  = Ok (inject_Z 1000).
Proof.
  apply (@getTimingByPos_zero_is_now two_tempi_group
           (GameplayManager.instance 0 1000 10000) 100).
  - discriminate.
  - repeat constructor.
  - reflexivity.
  - simpl. lia.
Defined.

(** ** The render range *)

Lemma getTimingByPos_returns (gm : GameplayManager.t) (dropRate : Q)
    (timings : list (TimingEvent.t Q)) (pos depth : Q) :
  timings <> [] ->
  exists t, TimingGroup_getTimingByPos gm dropRate timings pos depth = Ok t.
Proof.
  intro Hne. destruct timings as [|d tl]; [congruence|].
  unfold TimingGroup_getTimingByPos. cbv zeta.
  unfold TimingGroup_getBaseBpm, bind. cbv beta iota.
  destruct (negb _).
  - destruct (walk _ _ _ _ _ _ _ _ _ _ _ _). eexists. reflexivity.
  - eexists. reflexivity.
Qed.

Lemma array_get_set_same {A : Type} (i : nat) (x : option A) l :
  array_get i (array_set i x l) = x.
Proof.
  revert l. induction i as [|i IH]; intros [|y l]; simpl; try reflexivity.
  - apply (IH []).
  - apply IH.
Qed.

Lemma array_get_nil {A : Type} (j : nat) : @array_get A j [] = None.
Proof. unfold array_get. destruct j; reflexivity. Qed.

Lemma array_get_cons {A : Type} (j : nat) (y : option A) l :
  array_get (S j) (y :: l) = array_get j l.
Proof. reflexivity. Qed.

Lemma array_get_set_other {A : Type} (i j : nat) (x : option A) l :
  i <> j -> array_get j (array_set i x l) = array_get j l.
Proof.
  revert j l. induction i as [|i IH]; intros j l H.
  - destruct j as [|j]; [congruence|].
    destruct l as [|y l]; simpl; rewrite ?array_get_cons, ?array_get_nil;
      reflexivity.
  - destruct j as [|j].
    + destruct l as [|y l]; reflexivity.
    + destruct l as [|y l]; simpl; rewrite !array_get_cons.
      * rewrite IH by congruence. rewrite !array_get_nil. reflexivity.
      * apply IH. congruence.
Qed.

(** X11.  On a group with a timing event, [updateRenderRange] does not
    throw and leaves two pairs: the clock's time with itself, and the times
    of positions 0 and 100000.  Afterwards [shouldRender(time, delay)] holds
    exactly for the times from [delay] before the start of a pair to its
    end, whatever [starts] and [ends] held before. *)
Theorem render_range_after_update (gm : GameplayManager.t) (dropRate : Q)
    (timings : list (TimingEvent.t Q)) (this : RenderRange.t) :
  timings <> [] ->
  let now := inject_Z (GameplayManager.timing gm) in
  exists t0 t1 this',
    TimingGroup_getTimingByPos gm dropRate timings 0 0 = Ok t0
    /\ TimingGroup_getTimingByPos gm dropRate timings 100000 0 = Ok t1
    /\ TimingGroup_updateRenderRange gm dropRate timings this = Ok this'
    /\ RenderRange.pairCount this' = 2%nat
    /\ RenderRange.keyTimes this' = [now; now; t0; t1]
    /\ (forall time delay,
          TimingGroup_shouldRender this' time delay = true
          <-> (now - delay <= time /\ time <= now)
              \/ (t0 - delay <= time /\ time <= t1)).
Proof.
  intros Hne now.
  destruct (@getTimingByPos_returns gm dropRate timings 0 0 Hne)
    as (t0 & E0).
  destruct (@getTimingByPos_returns gm dropRate timings 100000 0 Hne)
    as (t1 & E1).
  exists t0, t1. eexists.
  split; [exact E0|]. split; [exact E1|].
  unfold TimingGroup_updateRenderRange. rewrite E0, E1. cbn [bind].
  split; [reflexivity|]. split; [reflexivity|]. split; [reflexivity|].
  intros time delay.
  unfold TimingGroup_shouldRender. cbn [pair_up render_pair RenderRange.pairCount
    RenderRange.starts RenderRange.ends RenderRange.keyTimes seq existsb].
  rewrite !array_get_set_same.
  rewrite !(@array_get_set_other Q 1 0) by lia.
  rewrite !array_get_set_same.
  rewrite orb_false_r, orb_true_iff, !andb_true_iff, !Qle_bool_iff.
  fold now. reflexivity.
Qed.

Lemma render_range_after_update_witness :
  exists this',
    TimingGroup_updateRenderRange at_start 100 two_tempi
      (RenderRange.new [] 0 [] []) = Ok this'
    /\ RenderRange.pairCount this' = 2%nat.
Proof.
  destruct (@render_range_after_update at_start 100 two_tempi
              (RenderRange.new [] 0 [] []) ltac:(discriminate))
    as (t0 & t1 & this' & _ & _ & E & Hp & _).
  exists this'. split; assumption.
Defined.

(** ** Judge timings: what the loops produce *)

(** Whenever the loop ends, it was started below [total] and has pushed
    the instants of its rounds. *)
Lemma judge_loop_result (time interval endTime : Q) (total : Z) :
  forall (fuel : nat) (n : Z) (l l' : list Z),
    judge_loop fuel time interval endTime total n l = Some l' ->
    (n < total)%Z
    /\ l' = (l ++ judge_instants time interval endTime n
                                 (Z.to_nat (total - n)))%list.
Proof.
  induction fuel as [|fuel IH]; intros n l l' H.
  - discriminate.
  - cbn [judge_loop] in H. cbv zeta in H.
    destruct (Z.eqb_spec total (n + 1)) as [E|E].
    + injection H as <-. split; [lia|].
      replace (Z.to_nat (total - n)) with 1%nat by lia.
      rewrite judge_instants_S. cbv zeta.
      unfold judge_instants at 1. simpl.
      destruct (Qlt_bool _ endTime); rewrite ?app_nil_r; reflexivity.
    + apply IH in H. destruct H as [Hn ->]. split; [lia|].
      replace (Z.to_nat (total - n)) with (S (Z.to_nat (total - (n + 1))))
        by lia.
      rewrite judge_instants_S. cbv zeta.
      destruct (Qlt_bool _ endTime); simpl; rewrite <- ?app_assoc; reflexivity.
Qed.

Lemma floor_step (x y : Q) : x + 1 <= y -> (Qfloor x + 1 <= Qfloor y)%Z.
Proof.
  intro H.
  rewrite <- (Qfloor_Z (Qfloor x + 1)).
  apply Qfloor_resp_le.
  pose proof (Qfloor_le x) as Hx.
  rewrite inject_Z_plus. change (inject_Z 1) with 1. lra.
Qed.

Lemma judge_instants_in_range (time interval endTime : Q) (first : Z)
    (count : nat) :
  0 <= interval -> (0 <= first)%Z ->
  Forall (fun t => (Qfloor time <= t)%Z /\ inject_Z t < endTime)
         (judge_instants time interval endTime first count).
Proof.
  intros Hi Hf. apply Forall_forall. intros t Ht.
  unfold judge_instants in Ht. apply filter_In in Ht. destruct Ht as [Hin Hlt].
  apply Qlt_bool_iff in Hlt. split; [|exact Hlt].
  apply in_map_iff in Hin. destruct Hin as (k & <- & _).
  apply Qfloor_resp_le.
  assert (H : 0 <= inject_Z (first + Z.of_nat k) * interval).
  { apply Qmult_le_0_compat; [|exact Hi].
    change 0 with (inject_Z 0). rewrite <- Zle_Qle. lia. }
  lra.
Qed.

Lemma judge_instants_increasing (time interval endTime : Q) :
  1 <= interval ->
  forall (count : nat) (first : Z),
    StronglySorted Z.lt (judge_instants time interval endTime first count).
Proof.
  intros Hi. induction count as [|count IH]; intro first.
  - constructor.
  - rewrite judge_instants_S. cbv zeta.
    assert (Hrest : Forall (Z.lt (Qfloor (time + inject_Z first * interval)))
                      (judge_instants time interval endTime (first + 1) count)).
    { apply Forall_forall. intros t Ht.
      unfold judge_instants in Ht. apply filter_In in Ht.
      destruct Ht as [Hin _].
      apply in_map_iff in Hin. destruct Hin as (k & <- & _).
      assert (Hstep : (Qfloor (time + inject_Z first * interval) + 1
                       <= Qfloor (time + inject_Z (first + 1 + Z.of_nat k)
                                         * interval))%Z).
      { apply floor_step.
        assert (H : inject_Z (first + 1 + Z.of_nat k)
                    == inject_Z first + 1 + inject_Z (Z.of_nat k)).
        { rewrite !inject_Z_plus. reflexivity. }
        rewrite H.
        assert (Hk : 0 <= inject_Z (Z.of_nat k) * interval).
        { apply Qmult_le_0_compat; [|lra].
          change 0 with (inject_Z 0). rewrite <- Zle_Qle. lia. }
        lra. }
      lia. }
    destruct (Qlt_bool _ endTime); simpl.
    + constructor; [apply IH|exact Hrest].
    + apply IH.
Qed.

Lemma judge_interval_positive (bpm : Q) : 0 < bpm -> 0 < judge_interval bpm.
Proof.
  intro H. unfold judge_interval, Qdiv.
  apply Qmult_lt_0_compat.
  - apply Qmult_lt_0_compat; [reflexivity|apply Qinv_lt_0_compat; exact H].
  - destruct (Qle_bool 255 bpm); reflexivity.
Qed.

Lemma judge_interval_at_least_one (bpm : Q) :
  0 < bpm -> bpm <= 60000 -> 1 <= judge_interval bpm.
Proof.
  intros H0 H1. unfold judge_interval.
  destruct (Qle_bool 255 bpm) eqn:E.
  - apply Qle_shift_div_l; [reflexivity|].
    apply Qle_shift_div_l; [exact H0|]. lra.
  - apply Qle_bool_false in E.
    apply Qle_shift_div_l; [reflexivity|].
    apply Qle_shift_div_l; [exact H0|]. lra.
Qed.

Lemma midpoint_in_range (time endTime : Q) :
  time < endTime ->
  (Qfloor time <= judge_midpoint time endTime)%Z
  /\ inject_Z (judge_midpoint time endTime) < endTime.
Proof.
  intro H. unfold judge_midpoint. split.
  - apply Qfloor_resp_le.
    assert (0 <= (endTime - time) * (5 # 10)) by (apply Qmult_le_0_compat; lra).
    lra.
  - eapply Qle_lt_trans; [apply Qfloor_le|].
    assert (E : (endTime - time) * (5 # 10) == (endTime - time) / 2) by field.
    rewrite E.
    assert ((endTime - time) / 2 < endTime - time).
    { apply Qlt_shift_div_r; [reflexivity|]. lra. }
    lra.
Qed.

(** X12.  The judge timings of a hold whose times are whole milliseconds, by
    the number of subdivisions.  Under a tempo that is not positive there
    are none.  Under a positive tempo whose judge interval is a whole
    number of milliseconds (so that the quotient the source floors is the
    exact one): without a whole subdivision ([total <= 0]) the only
    instant is the midpoint; from two subdivisions on the loop ends after
    [total - 1] rounds and the instants are [floor(time + n * interval)]
    for [n] from 1 to [total - 1], those at or after [endTime] left out. *)
Theorem HoldNote_judge_timings (timings : list (TimingEvent.t Q))
    (this : HoldNote.t Q) (bpm : Q) :
  TimingGroup_getBpmByTiming timings (HoldNote.time this) = Ok bpm ->
  whole (HoldNote.time this) = true ->
  whole (HoldNote.endTime this) = true ->
  let interval := judge_interval bpm in
  let total :=
    Qfloor ((HoldNote.endTime this - HoldNote.time this) / interval) in
  (bpm <= 0 ->
   forall fuel,
     HoldNote_calculateJudgeTimings fuel timings this
     = Some (Ok (HoldNote_set_judgeTimings this [])))
  /\ (0 < bpm -> whole interval = true -> (total <= 0)%Z ->
      forall fuel,
        HoldNote_calculateJudgeTimings fuel timings this
        = Some (Ok (HoldNote_set_judgeTimings this
                      [judge_midpoint (HoldNote.time this)
                                      (HoldNote.endTime this)])))
  /\ (0 < bpm -> whole interval = true -> (2 <= total)%Z ->
      forall fuel, (Z.to_nat (total - 1) <= fuel)%nat ->
        HoldNote_calculateJudgeTimings fuel timings this
        = Some (Ok (HoldNote_set_judgeTimings this
                      (judge_instants (HoldNote.time this) interval
                                      (HoldNote.endTime this) 1
                                      (Z.to_nat (total - 1)))))).
Proof.
  intros Hbpm _ _ interval total.
  repeat split.
  - intros Hle fuel. unfold HoldNote_calculateJudgeTimings.
    rewrite Hbpm. apply Qle_bool_iff in Hle. rewrite Hle. reflexivity.
  - intros Hpos _ Htot fuel. unfold HoldNote_calculateJudgeTimings.
    rewrite Hbpm. apply Qle_bool_false in Hpos. rewrite Hpos.
    cbv zeta. fold interval. fold total.
    destruct (Z.gtb_spec 1 total) as [_|H]; [reflexivity|lia].
  - intros Hpos _ Htot fuel Hfuel. unfold HoldNote_calculateJudgeTimings.
    rewrite Hbpm. apply Qle_bool_false in Hpos. rewrite Hpos.
    cbv zeta. fold interval. fold total.
    destruct (Z.gtb_spec 1 total) as [H|_]; [lia|].
    change (Z.lxor 0 0) with 0%Z. change (Z.lxor 0 1) with 1%Z.
    simpl negb. cbv iota.
    rewrite judge_loop_instants by (try assumption; lia). reflexivity.
Qed.

Lemma HoldNote_judge_timings_witness :
  HoldNote_calculateJudgeTimings 3 steady_group long_hold
  = Some (Ok (HoldNote_set_judgeTimings long_hold [250; 500; 750]%Z)).
Proof.
  pose proof (@HoldNote_judge_timings steady_group long_hold 120
                eq_refl eq_refl eq_refl) as (_ & _ & H).
  apply (H eq_refl eq_refl); vm_compute; [discriminate|lia].
Defined.

(** The judge timings of an arc lie within the arc. *)
Lemma Arc_judge_timings_in_range (fuel : nat)
    (timings : list (TimingEvent.t Q)) (this a' : Arc.t Q) :
  Arc_calculateJudgeTimings fuel timings this = Some (Ok a') ->
  Arc.time this < Arc.endTime this ->
  a' = Arc_set_judgeTimings this (Arc.judgeTimings a')
  /\ Forall (fun t => (Qfloor (Arc.time this) <= t)%Z
                      /\ inject_Z t < Arc.endTime this)
            (Arc.judgeTimings a')
  /\ ((forall bpm,
         TimingGroup_getBpmByTiming timings (Arc.time this) = Ok bpm ->
         bpm <= 60000) ->
      StronglySorted Z.lt (Arc.judgeTimings a')).
Proof.
  intros H Htime. unfold Arc_calculateJudgeTimings in H.
  assert (Hnil : forall x, Some (Ok (Arc_set_judgeTimings this [])) = Some (Ok x) ->
            x = Arc_set_judgeTimings this (Arc.judgeTimings x)
            /\ Forall (fun t => (Qfloor (Arc.time this) <= t)%Z
                                /\ inject_Z t < Arc.endTime this)
                      (Arc.judgeTimings x)
            /\ ((forall bpm,
                   TimingGroup_getBpmByTiming timings (Arc.time this) = Ok bpm ->
                   bpm <= 60000) ->
                StronglySorted Z.lt (Arc.judgeTimings x))).
  { intros x E. injection E as <-. simpl.
    split; [reflexivity|]. split; [constructor|]. intros _. constructor. }
  destruct (Arc.isVoid this); [apply Hnil; exact H|].
  destruct (Qeq_bool _ _); [apply Hnil; exact H|].
  destruct (TimingGroup_getBpmByTiming timings (Arc.time this))
    as [bpm|e] eqn:Hbpm; [|discriminate].
  destruct (Qle_bool bpm 0) eqn:Hle; [apply Hnil; exact H|].
  apply Qle_bool_false in Hle.
  cbv zeta in H.
  set (first := Z.lxor (if Arc.renderHead this then 0 else 1) 1) in H.
  assert (Hfirst : (0 <= first)%Z)
    by (subst first; destruct (Arc.renderHead this); simpl; lia).
  destruct (first >=? _)%Z.
  - injection H as <-. simpl. split; [reflexivity|].
    split.
    + constructor; [apply midpoint_in_range; exact Htime|constructor].
    + intros _. constructor; constructor.
  - destruct (judge_loop _ _ _ _ _ _ _) as [l|] eqn:Hloop; [|discriminate].
    injection H as <-. simpl.
    apply judge_loop_result in Hloop. destruct Hloop as [_ ->]. simpl.
    split; [reflexivity|]. split.
    + apply judge_instants_in_range; [|exact Hfirst].
      apply Qlt_le_weak, judge_interval_positive, Hle.
    + intro Hmax. apply judge_instants_increasing.
      apply judge_interval_at_least_one; [exact Hle|].
      apply Hmax. reflexivity.
Qed.

(** The judge timings of a hold lie within the hold. *)
Lemma HoldNote_judge_timings_in_range (fuel : nat)
    (timings : list (TimingEvent.t Q)) (this h' : HoldNote.t Q) :
  HoldNote_calculateJudgeTimings fuel timings this = Some (Ok h') ->
  HoldNote.time this < HoldNote.endTime this ->
  h' = HoldNote_set_judgeTimings this (HoldNote.judgeTimings h')
  /\ Forall (fun t => (Qfloor (HoldNote.time this) <= t)%Z
                      /\ inject_Z t < HoldNote.endTime this)
            (HoldNote.judgeTimings h')
  /\ ((forall bpm,
         TimingGroup_getBpmByTiming timings (HoldNote.time this) = Ok bpm ->
         bpm <= 60000) ->
      StronglySorted Z.lt (HoldNote.judgeTimings h')).
Proof.
  intros H Htime. unfold HoldNote_calculateJudgeTimings in H.
  destruct (TimingGroup_getBpmByTiming timings (HoldNote.time this))
    as [bpm|e] eqn:Hbpm; [|discriminate].
  destruct (Qle_bool bpm 0) eqn:Hle.
  { injection H as <-. simpl. split; [reflexivity|].
    split; [constructor|]. intros _. constructor. }
  apply Qle_bool_false in Hle.
  cbv zeta in H.
  destruct (negb _).
  - injection H as <-. simpl. split; [reflexivity|].
    split.
    + constructor; [apply midpoint_in_range; exact Htime|constructor].
    + intros _. constructor; constructor.
  - destruct (judge_loop _ _ _ _ _ _ _) as [l|] eqn:Hloop; [|discriminate].
    injection H as <-. simpl.
    apply judge_loop_result in Hloop. destruct Hloop as [_ ->]. simpl.
    split; [reflexivity|]. split.
    + apply judge_instants_in_range; [|simpl; lia].
      apply Qlt_le_weak, judge_interval_positive, Hle.
    + intro Hmax. apply judge_instants_increasing.
      apply judge_interval_at_least_one; [exact Hle|].
      apply Hmax. reflexivity.
Qed.

(** ** Combo and score *)

Lemma fold_left_le {A : Type} (f g : nat -> A -> nat) (l : list A) :
  (forall c c' x, (c <= c')%nat -> (f c x <= g c' x)%nat) ->
  forall i i', (i <= i')%nat -> (fold_left f l i <= fold_left g l i')%nat.
Proof.
  intro H. induction l as [|x l IH]; intros i i' Hi; simpl.
  - exact Hi.
  - apply IH. apply H. exact Hi.
Qed.

Lemma filter_length_implies {A : Type} (p q : A -> bool) (l : list A) :
  (forall x, p x = true -> q x = true) ->
  (List.length (filter p l) <= List.length (filter q l))%nat.
Proof.
  intro H. induction l as [|x l IH]; simpl.
  - lia.
  - destruct (p x) eqn:E.
    + rewrite (H x E). simpl. lia.
    + destruct (q x); simpl; lia.
Qed.

Lemma filter_length_at_most {A : Type} (p : A -> bool) (l : list A) :
  (List.length (filter p l) <= List.length l)%nat.
Proof.
  induction l as [|x l IH]; simpl.
  - lia.
  - destruct (p x); simpl; lia.
Qed.

Lemma countCombo_le_countTotal (gm : GameplayManager.t)
    (taps : list (TapNote.t Q)) (holds : list (HoldNote.t Q))
    (arcs : list (Arc.t Q)) :
  (GameBase_countCombo gm taps holds arcs
   <= GameBase_countTotal taps holds arcs)%nat.
Proof.
  unfold GameBase_countCombo, GameBase_countTotal. cbv zeta.
  apply fold_left_le.
  - intros c c' a Hc.
    destruct (Arc.isVoid a);
      match goal with
      | |- (_ + List.length (filter ?p ?l) <= _)%nat =>
          pose proof (filter_length_at_most p l)
      end; lia.
  - apply fold_left_le.
    + intros c c' h Hc.
      match goal with
      | |- context [List.length (filter ?p ?l)] =>
          pose proof (filter_length_at_most p l)
      end.
      destruct (Qlt_bool _ _); lia.
    + simpl.
      match goal with
      | |- (List.length (filter ?p ?l) <= _)%nat =>
          apply (filter_length_at_most p l)
      end.
Qed.

Lemma fold_left_agree {A : Type} (f g : nat -> A -> nat) (l : list A) :
  (forall c x, In x l -> f c x = g c x) ->
  forall i, fold_left f l i = fold_left g l i.
Proof.
  induction l as [|x l IH]; intros H i; simpl.
  - reflexivity.
  - rewrite (H i x (or_introl eq_refl)).
    apply IH. intros c y Hy. apply H. right. exact Hy.
Qed.

Lemma filter_all {A : Type} (p : A -> bool) (l : list A) :
  (forall x, In x l -> p x = true) -> filter p l = l.
Proof.
  induction l as [|x l IH]; intro H; simpl.
  - reflexivity.
  - rewrite (H x (or_introl eq_refl)). f_equal.
    apply IH. intros y Hy. apply H. right. exact Hy.
Qed.

(** X14.  Once the clock is past every tap, every hold's start and judge
    instants, every arc tap of the void arcs and every judge instant of the
    other arcs, the combo equals the total. *)
Theorem combo_reaches_total (gm : GameplayManager.t)
    (taps : list (TapNote.t Q)) (holds : list (HoldNote.t Q))
    (arcs : list (Arc.t Q)) :
  let time := inject_Z (GameplayManager.timing gm) - GameplayManager.offset gm in
  (forall t, In t taps -> TapNote.time t < time) ->
  (forall h, In h holds ->
     HoldNote.time h < time
     /\ forall j, In j (HoldNote.judgeTimings h) -> inject_Z j <= time) ->
  (forall a, In a arcs ->
     if Arc.isVoid a
     then forall t, In t (Arc.arcTaps a) -> ArctapNote.time t < time
     else forall j, In j (Arc.judgeTimings a) -> inject_Z j <= time) ->
  GameBase_countCombo gm taps holds arcs = GameBase_countTotal taps holds arcs.
Proof.
  intros time Ht Hh Ha.
  unfold GameBase_countCombo, GameBase_countTotal. cbv zeta. fold time.
  rewrite (@filter_all _ (fun t => Qlt_bool (TapNote.time t) time) taps)
    by (intros t Hin; apply Qlt_bool_iff; apply Ht; exact Hin).
  match goal with
  | |- fold_left ?f arcs (fold_left ?f1 holds ?i)
       = fold_left ?g arcs (fold_left ?g1 holds ?i) =>
      rewrite (@fold_left_agree _ f1 g1 holds);
      [ apply (@fold_left_agree _ f g arcs) | ]
  end.
  - intros c a Hin. specialize (Ha a Hin). destruct (Arc.isVoid a).
    + rewrite filter_all; [reflexivity|].
      intros t Hin'. apply Qlt_bool_iff. apply Ha. exact Hin'.
    + rewrite filter_all; [reflexivity|].
      intros j Hj. apply Qle_bool_iff. apply Ha. exact Hj.
  - intros c h Hin. destruct (Hh h Hin) as [H1 H2].
    rewrite filter_all.
    + apply Qlt_bool_iff in H1. rewrite H1. lia.
    + intros j Hj. apply Qle_bool_iff. apply H2. exact Hj.
Qed.

Lemma combo_reaches_total_witness :
  GameBase_countCombo (GameplayManager.instance 0 2000 10000)
    [TapNote.new 0%nat 500%Q 1%Q] [long_hold] [void_arc_with_taps]
  = GameBase_countTotal [TapNote.new 0%nat 500%Q 1%Q] [long_hold]
      [void_arc_with_taps].
Proof.
  apply (@combo_reaches_total (GameplayManager.instance 0 2000 10000)).
  - intros t H. simpl in H. destruct H as [H|[]]. subst t. reflexivity.
  - intros h H. simpl in H. destruct H as [H|[]]. subst h. split.
    + reflexivity.
    + intros j Hj. simpl in Hj. destruct Hj.
  - intros a H. simpl in H. destruct H as [H|[]]. subst a. simpl.
    intros t Ht. destruct Ht as [Ht|[Ht|[]]]; subst t; reflexivity.
Defined.

(** X15.  The combo never goes down as the clock advances. *)
Theorem combo_grows_with_time (offset : Q) (now now' length length' : Z)
    (taps : list (TapNote.t Q)) (holds : list (HoldNote.t Q))
    (arcs : list (Arc.t Q)) :
  (now <= now')%Z ->
  (GameBase_countCombo (GameplayManager.instance offset now length)
                       taps holds arcs
   <= GameBase_countCombo (GameplayManager.instance offset now' length')
                          taps holds arcs)%nat.
Proof.
  intro Hnow. rewrite Zle_Qle in Hnow.
  unfold GameBase_countCombo. cbv zeta. simpl GameplayManager.offset.
  simpl GameplayManager.timing.
  set (time := inject_Z now - offset).
  set (time' := inject_Z now' - offset).
  assert (Ht : time <= time') by (subst time time'; lra).
  assert (Hlt : forall x, Qlt_bool x time = true -> Qlt_bool x time' = true).
  { intros x H. apply Qlt_bool_iff in H. apply Qlt_bool_iff. lra. }
  assert (Hle : forall x, Qle_bool x time = true -> Qle_bool x time' = true).
  { intros x H. apply Qle_bool_iff in H. apply Qle_bool_iff. lra. }
  apply fold_left_le.
  - intros c c' a Hc. destruct (Arc.isVoid a).
    + pose proof (filter_length_implies
                    (fun t => Qlt_bool (ArctapNote.time t) time)
                    (fun t => Qlt_bool (ArctapNote.time t) time')
                    (Arc.arcTaps a) (fun t => Hlt _)).
      lia.
    + pose proof (filter_length_implies
                    (fun t => Qle_bool (inject_Z t) time)
                    (fun t => Qle_bool (inject_Z t) time')
                    (Arc.judgeTimings a) (fun t => Hle _)).
      lia.
  - apply fold_left_le.
    + intros c c' h Hc.
      pose proof (filter_length_implies
                    (fun t => Qle_bool (inject_Z t) time)
                    (fun t => Qle_bool (inject_Z t) time')
                    (HoldNote.judgeTimings h) (fun t => Hle _)).
      destruct (Qlt_bool (HoldNote.time h) time) eqn:E.
      * rewrite (Hlt _ E). lia.
      * destruct (Qlt_bool (HoldNote.time h) time'); lia.
    + simpl.
      apply (filter_length_implies
               (fun t => Qlt_bool (TapNote.time t) time)
               (fun t => Qlt_bool (TapNote.time t) time')
               taps (fun t => Hlt _)).
Qed.

Lemma combo_grows_with_time_witness :
  (GameBase_countCombo (GameplayManager.instance 0 300 10000)
     [TapNote.new 0%nat 500%Q 1%Q] [long_hold] [void_arc_with_taps]
   <= GameBase_countCombo (GameplayManager.instance 0 900 10000)
        [TapNote.new 0%nat 500%Q 1%Q] [long_hold] [void_arc_with_taps])%nat.
Proof.
  apply (@combo_grows_with_time 0 300 900 10000 10000). lia.
Defined.

(** X16.  The total reported by [countScore] is at least 1 and the combo
    is at most it; the score is between 0 and 10000000 plus the combo, is 0
    while the combo is 0, and is 10000000 plus the total once the combo has
    reached the total. *)
Theorem score_bounds (gm : GameplayManager.t)
    (taps : list (TapNote.t Q)) (holds : list (HoldNote.t Q))
    (arcs : list (Arc.t Q)) :
  let '(score, combo, total) := GameBase_countScore gm taps holds arcs in
  (1 <= total)%nat
  /\ (combo <= total)%nat
  /\ (0 <= score <= 10000000 + Z.of_nat combo)%Z
  /\ (combo = O -> score = 0%Z)
  /\ (combo = total -> score = (10000000 + Z.of_nat total)%Z).
Proof.
  unfold GameBase_countScore. cbv zeta.
  pose proof (countCombo_le_countTotal gm taps holds arcs) as Hct.
  set (combo := GameBase_countCombo gm taps holds arcs) in *.
  set (total := match GameBase_countTotal taps holds arcs with
                | O => 1%nat | S n => S n end).
  assert (Htotal : (1 <= total)%nat)
    by (subst total; destruct (GameBase_countTotal taps holds arcs); lia).
  assert (Hcombo : (combo <= total)%nat)
    by (subst total; destruct (GameBase_countTotal taps holds arcs); lia).
  assert (Hq : 10000000 * inject_Z (Z.of_nat combo) / inject_Z (Z.of_nat total)
               == inject_Z (10000000 * Z.of_nat combo) / inject_Z (Z.of_nat total)).
  { rewrite inject_Z_mult. reflexivity. }
  assert (Hfloor : Qfloor (10000000 * inject_Z (Z.of_nat combo)
                           / inject_Z (Z.of_nat total))
                   = (10000000 * Z.of_nat combo / Z.of_nat total)%Z).
  { rewrite Hq. unfold Qdiv, Qmult, Qinv, inject_Z, Qfloor. simpl.
    destruct (Z.of_nat total) eqn:E; try lia.
    simpl. rewrite Z.mul_1_r. reflexivity. }
  rewrite Hfloor.
  split; [exact Htotal|]. split; [exact Hcombo|].
  assert (Hdiv : (0 <= 10000000 * Z.of_nat combo / Z.of_nat total <= 10000000)%Z).
  { split.
    - apply Z.div_pos; lia.
    - apply Z.div_le_upper_bound; nia. }
  split; [lia|]. split.
  - intros ->. reflexivity.
  - intros ->. rewrite Z.div_mul by lia. reflexivity.
Qed.

(** ** Coordinates, clamping and easing *)

(** X17.  The conversions between chart coordinates and world coordinates
    by their orientation and their anchors.  On the horizontal axis both
    conversions reverse the order: chart 0, 1/2 and 1 are world 4.25, 0 and
    -4.25, and world 4.25 and -4.25 are chart 0 and 1.  On the vertical
    axis both keep the order: chart 0 and 1 are world 1 and 5.5, and
    back. *)
Theorem arc_world_orientation (x x' y y' : Q) :
  (x <= x' ->
   ArcAlgorithm_arcXToWorld x' <= ArcAlgorithm_arcXToWorld x
   /\ ArcAlgorithm_worldXToArc x' <= ArcAlgorithm_worldXToArc x)
  /\ (y <= y' ->
      ArcAlgorithm_arcYToWorld y <= ArcAlgorithm_arcYToWorld y'
      /\ ArcAlgorithm_worldYToArc y <= ArcAlgorithm_worldYToArc y')
  /\ (ArcAlgorithm_arcXToWorld 0 == 4.25
      /\ ArcAlgorithm_arcXToWorld 0.5 == 0
      /\ ArcAlgorithm_arcXToWorld 1 == -4.25)
  /\ (ArcAlgorithm_worldXToArc 4.25 == 0
      /\ ArcAlgorithm_worldXToArc (-4.25) == 1)
  /\ (ArcAlgorithm_arcYToWorld 0 == 1 /\ ArcAlgorithm_arcYToWorld 1 == 5.5)
  /\ (ArcAlgorithm_worldYToArc 1 == 0 /\ ArcAlgorithm_worldYToArc 5.5 == 1).
Proof.
  unfold ArcAlgorithm_worldXToArc, ArcAlgorithm_arcXToWorld,
         ArcAlgorithm_worldYToArc, ArcAlgorithm_arcYToWorld.
  assert (EX : forall z, (z - 4.25) / -8.5 == (4.25 - z) * (2 # 17))
    by (intro z; field).
  assert (EY : forall z, (z - 1) / 4.5 == (z - 1) * (2 # 9))
    by (intro z; field).
  repeat split; intros; rewrite ?EX, ?EY; try reflexivity; lra.
Qed.

Lemma clamp_cases (t a b : Q) :
  a <= b ->
  (t <= a /\ Utils_clamp t a b == a)
  \/ (a <= t <= b /\ Utils_clamp t a b == t)
  \/ (b <= t /\ Utils_clamp t a b == b).
Proof.
  intro Hab. unfold Utils_clamp.
  destruct (Q.min_spec b t) as [[H1 E1]|[H1 E1]];
    destruct (Q.max_spec a (Qmin b t)) as [[H2 E2]|[H2 E2]];
    rewrite E2; rewrite E1 in *.
  - right. right. split; [lra | reflexivity].
  - right. right. split; [lra | lra].
  - right. left. split; [lra | reflexivity].
  - left. split; [lra | reflexivity].
Qed.

(** [Utils.clamp] between its bounds. *)
Lemma clamp_in_range (t a b : Q) :
  a <= b ->
  a <= Utils_clamp t a b <= b
  /\ (a <= t <= b -> Utils_clamp t a b == t)
  /\ (t <= a -> Utils_clamp t a b == a)
  /\ (b <= t -> Utils_clamp t a b == b).
Proof.
  intro Hab.
  destruct (clamp_cases t Hab) as [[H E]|[[H E]|[H E]]]; rewrite E;
    repeat split; intros; lra.
Qed.

Lemma clamp_in_range_witness :
  0 <= Utils_clamp 3 0 1 <= 1
  /\ (0 <= 3 <= 1 -> Utils_clamp 3 0 1 == 3)
  /\ (3 <= 0 -> Utils_clamp 3 0 1 == 0)
  /\ (1 <= 3 -> Utils_clamp 3 0 1 == 1).
Proof.
  apply (@clamp_in_range 3 0 1). lra.
Defined.

(** [Utils.lerp] by its parameter: the value at 0 before 0, the value at 1
    after 1, and in between no step against the direction from [a] to
    [b]. *)
Lemma lerp_by_parameter (a b t t' : Q) :
  (t <= 0 -> Utils_lerp a b t == a)
  /\ (1 <= t -> Utils_lerp a b t == Utils_lerp a b 1)
  /\ (a <= b -> t <= t' -> Utils_lerp a b t <= Utils_lerp a b t')
  /\ (b <= a -> t <= t' -> Utils_lerp a b t' <= Utils_lerp a b t).
Proof.
  unfold Utils_lerp.
  assert (H01 : 0 <= 1) by lra.
  assert (E1 : Utils_clamp 1 0 1 == 1) by reflexivity.
  assert (Hc : t <= t' -> 0 <= Utils_clamp t' 0 1 - Utils_clamp t 0 1).
  { intro Ht.
    destruct (clamp_cases t H01) as [[H E]|[[H E]|[H E]]];
      destruct (clamp_cases t' H01) as [[H' E']|[[H' E']|[H' E']]];
      rewrite E, E'; lra. }
  repeat split.
  - intro Ht. destruct (clamp_cases t H01) as [[H E]|[[H E]|[H E]]];
      rewrite E; try lra.
    assert (t == 0) by lra. nra.
  - intro Ht. rewrite E1.
    destruct (clamp_cases t H01) as [[H E]|[[H E]|[H E]]];
      rewrite E; try lra.
    assert (t == 1) by lra. nra.
  - intros Hab Ht. specialize (Hc Ht).
    assert (Hp : 0 <= (b - a) * (Utils_clamp t' 0 1 - Utils_clamp t 0 1))
      by (apply Qmult_le_0_compat; lra).
    lra.
  - intros Hab Ht. specialize (Hc Ht).
    assert (Hp : 0 <= (a - b) * (Utils_clamp t' 0 1 - Utils_clamp t 0 1))
      by (apply Qmult_le_0_compat; lra).
    lra.
Qed.

Lemma square_nonneg (z : Q) : 0 <= z ^ 2.
Proof.
  destruct (Qlt_le_dec z 0) as [H|H].
  - assert (E : z ^ 2 == (- z) * (- z)) by ring.
    rewrite E. apply Qmult_le_0_compat; lra.
  - assert (E : z ^ 2 == z * z) by ring.
    rewrite E. apply Qmult_le_0_compat; lra.
Qed.

Lemma cube_le (x y : Q) : x <= y -> x ^ 3 <= y ^ 3.
Proof.
  intro H.
  pose proof (square_nonneg (x + y / 2)) as Hz.
  pose proof (square_nonneg y) as Hy.
  assert (H1 : 0 <= (y - x) * ((x + y / 2) ^ 2 + (3 # 4) * y ^ 2)).
  { apply Qmult_le_0_compat; [lra|].
    apply Qle_trans with (0 + 0); [lra|].
    apply Qplus_le_compat; [exact Hz|].
    apply Qmult_le_0_compat; [discriminate | exact Hy]. }
  assert (E : (y - x) * ((x + y / 2) ^ 2 + (3 # 4) * y ^ 2) == y ^ 3 - x ^ 3)
    by field.
  apply Qle_minus_iff. rewrite <- E. exact H1.
Qed.

(** X20.  The two camera easings mirror each other,
    [qo(v) = 1 - qi(1 - v)]; both fix 0 and 1, never decrease, and keep a
    progress between 0 and 1 in that range. *)
Theorem qi_qo_mirror (v w : Q) :
  ArcAlgorithm_qo v == 1 - ArcAlgorithm_qi (1 - v)
  /\ ArcAlgorithm_qi 0 == 0 /\ ArcAlgorithm_qi 1 == 1
  /\ ArcAlgorithm_qo 0 == 0 /\ ArcAlgorithm_qo 1 == 1
  /\ (v <= w -> ArcAlgorithm_qi v <= ArcAlgorithm_qi w
                /\ ArcAlgorithm_qo v <= ArcAlgorithm_qo w)
  /\ (0 <= v <= 1 -> 0 <= ArcAlgorithm_qi v <= 1
                     /\ 0 <= ArcAlgorithm_qo v <= 1).
Proof.
  unfold ArcAlgorithm_qo, ArcAlgorithm_qi.
  split; [ring|]. split; [reflexivity|]. split; [reflexivity|].
  split; [reflexivity|]. split; [reflexivity|]. split.
  - intro H. split.
    + apply cube_le. exact H.
    + assert (H' : v - 1 <= w - 1) by lra.
      pose proof (cube_le H'). lra.
  - intros [H0 H1].
    assert (A : 0 <= v) by exact H0.
    pose proof (cube_le H0) as C0. pose proof (cube_le H1) as C1.
    assert (B0 : -1 <= v - 1) by lra. assert (B1 : v - 1 <= 0) by lra.
    pose proof (cube_le B0) as D0. pose proof (cube_le B1) as D1.
    change (0 ^ 3) with 0 in *. change (1 ^ 3) with 1 in *.
    assert (Em : (-1) ^ 3 == -1) by reflexivity.
    repeat split; lra.
Qed.

(** ** Camera progress and tilt *)

Lemma clamp_mono (t t' a b : Q) :
  a <= b -> t <= t' -> Utils_clamp t a b <= Utils_clamp t' a b.
Proof.
  intros Hab Ht.
  destruct (clamp_cases t Hab) as [[H E]|[[H E]|[H E]]];
    destruct (clamp_cases t' Hab) as [[H' E']|[[H' E']|[H' E']]];
    rewrite E, E'; lra.
Qed.

Lemma clamp_comp (t t' a b : Q) :
  a <= b -> t == t' -> Utils_clamp t a b == Utils_clamp t' a b.
Proof.
  intros Hab Ht. apply Qle_antisym; apply clamp_mono; lra.
Qed.

(** The [switch] on the easing type of [CameraEvent.update]. *)
Lemma ease_facts (type : string) :
  let f := fun p : Q =>
    if String.eqb type "qi" then ArcAlgorithm_qi p
    else if String.eqb type "qo" then ArcAlgorithm_qo p
    else if String.eqb type "s" then ArcAlgorithm_s 0 1 p
    else p in
  (forall p p', p <= p' -> f p <= f p') /\ f 0 == 0 /\ f 1 == 1.
Proof.
  cbv zeta.
  destruct (String.eqb type "qi"); [|destruct (String.eqb type "qo");
    [|destruct (String.eqb type "s")]].
  - unfold ArcAlgorithm_qi. split; [|split; reflexivity].
    intros p p' H. apply cube_le. exact H.
  - unfold ArcAlgorithm_qo. split; [|split; reflexivity].
    intros p p' H. assert (H' : p - 1 <= p' - 1) by lra.
    pose proof (cube_le H'). lra.
  - unfold ArcAlgorithm_s. split; [|split; reflexivity].
    intros p p' H. lra.
  - split; [|split; reflexivity]. intros p p' H. exact H.
Qed.

Lemma percent_mono (time d timing timing' : Q) :
  0 < d -> timing <= timing' ->
  Utils_clamp ((timing - time) / d) 0 1
  <= Utils_clamp ((timing' - time) / d) 0 1.
Proof.
  intros Hd Ht. apply clamp_mono; [lra|].
  unfold Qdiv. apply Qmult_le_compat_r; [lra|].
  apply Qlt_le_weak. apply Qinv_lt_0_compat. exact Hd.
Qed.

Lemma percent_bounds (q : Q) : 0 <= Utils_clamp q 0 1 <= 1.
Proof.
  assert (H01 : 0 <= 1) by lra.
  destruct (clamp_cases q H01) as [[H E]|[[H E]|[H E]]]; rewrite E; lra.
Qed.

Lemma CameraEvent_update_range (this : CameraEvent.t Q) (timing : Q) :
  0 <= CameraEvent_update this timing <= 1.
Proof.
  unfold CameraEvent_update. cbv zeta.
  destruct (Qlt_bool _ timing); [lra|].
  destruct (Qlt_bool timing _); [lra|].
  destruct (ease_facts (CameraEvent.type this)) as (Hm & H0 & H1).
  cbv beta in Hm, H0, H1.
  match goal with
  | |- context [Utils_clamp ?q 0 1] =>
      pose proof (percent_bounds q) as [Hp0 Hp1];
      pose proof (Hm _ _ Hp0) as A; pose proof (Hm _ _ Hp1) as B
  end.
  split.
  - eapply Qle_trans; [|exact A]. rewrite H0. lra.
  - eapply Qle_trans; [exact B|]. rewrite H1. lra.
Qed.

(** X21.  The progress computed by [CameraEvent.update] is between 0 and 1
    whatever the easing type; for an event of positive duration it is 0 up
    to the event's time and 1 from the end of the event on. *)
Theorem camera_progress_range (this : CameraEvent.t Q) (timing : Q) :
  0 < CameraEvent.duration this ->
  0 <= CameraEvent_update this timing <= 1
  /\ (timing <= CameraEvent.time this -> CameraEvent_update this timing == 0)
  /\ (CameraEvent.time this + CameraEvent.duration this <= timing ->
      CameraEvent_update this timing == 1).
Proof.
  intro Hd. split; [apply CameraEvent_update_range|].
  unfold CameraEvent_update. cbv zeta.
  set (time := CameraEvent.time this) in *.
  set (d := CameraEvent.duration this) in *.
  destruct (ease_facts (CameraEvent.type this)) as (Hm & H0 & H1).
  cbv beta in Hm, H0, H1.
  destruct (Qlt_bool (time + d) timing) eqn:E1.
  { apply Qlt_bool_iff in E1. split; intro; lra. }
  apply Qlt_bool_false in E1.
  destruct (Qlt_bool timing time) eqn:E2.
  { apply Qlt_bool_iff in E2. split; intro; lra. }
  apply Qlt_bool_false in E2.
  assert (H01 : 0 <= 1) by lra.
  split; intro H.
  - assert (Eq : Utils_clamp ((timing - time) / d) 0 1 == 0).
    { rewrite (@clamp_comp _ 0 0 1 H01).
      - destruct (clamp_cases 0 H01) as [[A E]|[[A E]|[A E]]]; lra.
      - setoid_replace (timing - time) with 0 by lra. field. lra. }
    apply Qle_antisym.
    + eapply Qle_trans; [apply (Hm _ 0); lra|]. rewrite H0. lra.
    + eapply Qle_trans; [|apply (Hm 0 _); lra]. rewrite H0. lra.
  - assert (Eq : Utils_clamp ((timing - time) / d) 0 1 == 1).
    { rewrite (@clamp_comp _ 1 0 1 H01).
      - destruct (clamp_cases 1 H01) as [[A E]|[[A E]|[A E]]]; lra.
      - setoid_replace (timing - time) with d by lra. field. lra. }
    apply Qle_antisym.
    + eapply Qle_trans; [apply (Hm _ 1); lra|]. rewrite H1. lra.
    + eapply Qle_trans; [|apply (Hm 1 _); lra]. rewrite H1. lra.
Qed.

Lemma camera_progress_range_witness :
  0 <= CameraEvent_update ease_out_camera 1250 <= 1
  /\ (1250 <= CameraEvent.time ease_out_camera ->
      CameraEvent_update ease_out_camera 1250 == 0)
  /\ (CameraEvent.time ease_out_camera + CameraEvent.duration ease_out_camera
      <= 1250 ->
      CameraEvent_update ease_out_camera 1250 == 1).
Proof.
  apply (@camera_progress_range ease_out_camera 1250). reflexivity.
Defined.

(** X22.  For an event of positive duration the progress never goes back
    as the time advances. *)
Theorem camera_progress_monotone (this : CameraEvent.t Q) (timing timing' : Q) :
  0 < CameraEvent.duration this ->
  timing <= timing' ->
  CameraEvent_update this timing <= CameraEvent_update this timing'.
Proof.
  intros Hd Ht.
  pose proof (CameraEvent_update_range this timing) as [R0 R1].
  pose proof (CameraEvent_update_range this timing') as [R0' R1'].
  revert R0 R1 R0' R1'.
  unfold CameraEvent_update. cbv zeta.
  set (time := CameraEvent.time this) in *.
  set (d := CameraEvent.duration this) in *.
  destruct (ease_facts (CameraEvent.type this)) as (Hm & H0 & H1).
  cbv beta in Hm, H0, H1.
  destruct (Qlt_bool (time + d) timing') eqn:E1'.
  { intros. exact R1. }
  apply Qlt_bool_false in E1'.
  destruct (Qlt_bool (time + d) timing) eqn:E1.
  { apply Qlt_bool_iff in E1. lra. }
  destruct (Qlt_bool timing time) eqn:E2.
  { intros. exact R0'. }
  apply Qlt_bool_false in E2.
  destruct (Qlt_bool timing' time) eqn:E2'.
  { apply Qlt_bool_iff in E2'. lra. }
  intros _ _ _ _. apply Hm. apply percent_mono; assumption.
Qed.

Lemma camera_progress_monotone_witness :
  CameraEvent_update ease_out_camera 1100
  <= CameraEvent_update ease_out_camera 1400.
Proof.
  apply (@camera_progress_monotone ease_out_camera 1100 1400).
  - reflexivity.
  - discriminate.
Defined.

(** X23.  [CameraManager.updateCameraTilt] keeps a tilt that is within 0.05
    of level within 0.05 of level. *)
Theorem tilt_stays_bounded (isReset autoplay isPlaying : bool)
    (currentTilt arcJudgePos : Q) :
  -0.05 <= currentTilt <= 0.05 ->
  -0.05 <= CameraManager_updateCameraTilt isReset currentTilt autoplay
             arcJudgePos isPlaying <= 0.05.
Proof.
  intros [Hlo Hhi]. unfold CameraManager_updateCameraTilt. cbv zeta.
  destruct isReset; simpl negb; cbv iota; [|lra].
  assert (H11 : -1 <= 1) by lra.
  set (currentArcPos := if autoplay then - arcJudgePos else 0).
  destruct (clamp_cases (currentArcPos / 4.25) H11) as [[H E]|[[H E]|[H E]]];
    rewrite E; destruct isPlaying; try destruct (Qeq_bool currentArcPos 0);
    lra.
Qed.

Lemma tilt_stays_bounded_witness :
  -0.05 <= CameraManager_updateCameraTilt true 0.05 true 8.5 true <= 0.05.
Proof.
  apply (@tilt_stays_bounded true true true 0.05 8.5). split; discriminate.
Defined.

(** ** Autoplay judging *)

(** The flag of a tap after [judgeTapNotes], by the clock. *)
Lemma TapNote_judge_by_time (gm : GameplayManager.t) (t : TapNote.t Q)
    (judged : bool) :
  let now := inject_Z (GameplayManager.timing gm) in
  let at_ := TapNote.time t + GameplayManager.offset gm in
  (now < at_ -> TapNote_judge gm t judged = false)
  /\ (at_ < now -> TapNote_judge gm t judged = true)
  /\ (now == at_ -> TapNote_judge gm t judged = judged).
Proof.
  intros now at_. unfold TapNote_judge. cbv zeta. fold now. fold at_.
  destruct (Qlt_bool (at_ + 150) now) eqn:E1;
    [apply Qlt_bool_iff in E1 | apply Qlt_bool_false in E1];
  (destruct (Qlt_bool now at_) eqn:E2;
    [apply Qlt_bool_iff in E2 | apply Qlt_bool_false in E2]);
  (destruct (Qlt_bool at_ now) eqn:E3;
    [apply Qlt_bool_iff in E3 | apply Qlt_bool_false in E3]);
  (destruct (Qle_bool now (at_ + 150)) eqn:E4;
    [apply Qle_bool_iff in E4 | apply Qle_bool_false in E4]);
  destruct judged; simpl;
  repeat split; intro H; try reflexivity; exfalso; lra.
Qed.

(** X25.  [judgeHoldNotes] never leaves a hold both judged and judging if
    it was not so before; a hold whose end the clock has passed is judged,
    one whose start the clock has not reached (nor its end passed) is
    neither judged nor judging, one the clock is inside and that was not
    judged is judging; the audio flags are never cleared. *)
Theorem HoldNote_judge_states (gm : GameplayManager.t) (isPlaying : bool)
    (t : HoldNote.t Q) (st : HoldState.t) :
  HoldState.judged st && HoldState.judging st = false ->
  let now := inject_Z (GameplayManager.timing gm) in
  let start := HoldNote.time t + GameplayManager.offset gm in
  let end_ := HoldNote.endTime t + GameplayManager.offset gm in
  let st' := HoldNote_judge gm isPlaying t st in
  HoldState.judged st' && HoldState.judging st' = false
  /\ (end_ < now -> HoldState.judged st' = true)
  /\ (now < start -> now <= end_ ->
      HoldState.judged st' = false /\ HoldState.judging st' = false)
  /\ (start <= now <= end_ -> HoldState.judged st = false ->
      HoldState.judged st' = false /\ HoldState.judging st' = true)
  /\ (HoldState.audioPlayed st = true -> HoldState.audioPlayed st' = true)
  /\ (HoldState.shouldPlayAudio st = true ->
      HoldState.shouldPlayAudio st' = true).
Proof.
  intros Hinv now start end_ st'. subst st'.
  unfold HoldNote_judge. cbv zeta. fold now. fold start. fold end_.
  destruct st as [j g a s]. simpl in Hinv.
  destruct (Qlt_bool now start) eqn:E1;
    [apply Qlt_bool_iff in E1 | apply Qlt_bool_false in E1];
  (destruct (Qle_bool start now) eqn:E2;
    [apply Qle_bool_iff in E2 | apply Qle_bool_false in E2]);
  (destruct (Qle_bool now end_) eqn:E3;
    [apply Qle_bool_iff in E3 | apply Qle_bool_false in E3]);
  (destruct (Qlt_bool end_ now) eqn:E4;
    [apply Qlt_bool_iff in E4 | apply Qlt_bool_false in E4]);
  destruct j, g, a, s, isPlaying; simpl in *;
  try discriminate Hinv;
  repeat split; intros; try reflexivity; try assumption;
  try discriminate; exfalso; lra.
Qed.

Lemma HoldNote_judge_states_witness :
  let st' := HoldNote_judge (GameplayManager.instance 0 500 10000) true long_hold
               (HoldState.new false false false true) in
  HoldState.judged st' = false /\ HoldState.judging st' = true.
Proof.
  pose proof (@HoldNote_judge_states (GameplayManager.instance 0 500 10000)
                true long_hold (HoldState.new false false false true)
                eq_refl) as H.
  cbv zeta in H. destruct H as (_ & _ & _ & H & _).
  apply H.
  - split; discriminate.
  - reflexivity.
Defined.

(** The flag of an arc tap after [judgeArcTaps], by the clock. *)
Lemma ArctapNote_judge_by_time (gm : GameplayManager.t) (t : ArctapNote.t Q)
    (judged : bool) :
  let now := inject_Z (GameplayManager.timing gm) in
  let at_ := ArctapNote.time t + GameplayManager.offset gm in
  (now < at_ -> ArctapNote_judge gm t judged = false)
  /\ (at_ < now <= at_ + 150 -> ArctapNote_judge gm t judged = true)
  /\ (now == at_ \/ at_ + 150 < now -> ArctapNote_judge gm t judged = judged).
Proof.
  intros now at_. unfold ArctapNote_judge. cbv zeta. fold now. fold at_.
  destruct (Qlt_bool now at_) eqn:E2;
    [apply Qlt_bool_iff in E2 | apply Qlt_bool_false in E2];
  (destruct (Qlt_bool at_ now) eqn:E3;
    [apply Qlt_bool_iff in E3 | apply Qlt_bool_false in E3]);
  (destruct (Qle_bool now (at_ + 150)) eqn:E4;
    [apply Qle_bool_iff in E4 | apply Qle_bool_false in E4]);
  destruct judged; simpl;
  repeat split; intro H; try reflexivity; exfalso; lra.
Qed.

(** ** Chart: the events by class *)

Lemma events_of_from {A : Type} (pick : ArcaeaEvent number -> option A)
    (groups : list (TimingGroup.t number)) (init : list A) :
  fold_left
    (fun result t =>
       (result
        ++ flat_map (fun e => match pick e with Some x => [x] | None => [] end)
                    (TimingGroup.events t))%list)
    groups init
  = (init
     ++ flat_map
          (fun t =>
             flat_map (fun e => match pick e with Some x => [x] | None => [] end)
                      (TimingGroup.events t))
          groups)%list.
Proof.
  revert init. induction groups as [|g groups IH]; intro init; simpl.
  - rewrite app_nil_r. reflexivity.
  - rewrite IH. rewrite app_assoc. reflexivity.
Qed.

Lemma events_of_In {A : Type} (pick : ArcaeaEvent number -> option A)
    (this : Chart.t) (x : A) :
  In x (events_of pick this)
  <-> exists t e, In t (Chart.timingGroups this)
                  /\ In e (TimingGroup.events t) /\ pick e = Some x.
Proof.
  unfold events_of. rewrite events_of_from. simpl.
  rewrite in_flat_map. split.
  - intros (t & Ht & Hx). apply in_flat_map in Hx.
    destruct Hx as (e & He & Hx). exists t, e.
    destruct (pick e) as [y|]; simpl in Hx.
    + destruct Hx as [->|[]]. auto.
    + destruct Hx.
  - intros (t & e & Ht & He & Hp). exists t. split; [exact Ht|].
    apply in_flat_map. exists e. split; [exact He|].
    rewrite Hp. left. reflexivity.
Qed.

(** X26.  [taps()], [holds()], [arcs()] and [cameras()] return exactly the
    events of their class found in the groups of the chart. *)
Theorem chart_events_by_class (this : Chart.t) :
  (forall x, In x (Chart_taps this)
             <-> exists t, In t (Chart.timingGroups this)
                           /\ In (EvTap x) (TimingGroup.events t))
  /\ (forall x, In x (Chart_holds this)
                <-> exists t, In t (Chart.timingGroups this)
                              /\ In (EvHold x) (TimingGroup.events t))
  /\ (forall x, In x (Chart_arcs this)
                <-> exists t, In t (Chart.timingGroups this)
                              /\ In (EvArc x) (TimingGroup.events t))
  /\ (forall x, In x (Chart_cameras this)
                <-> exists t, In t (Chart.timingGroups this)
                              /\ In (EvCamera x) (TimingGroup.events t)).
Proof.
  unfold Chart_taps, Chart_holds, Chart_arcs, Chart_cameras.
  repeat split; try (rewrite events_of_In; intros (t & e & Ht & He & Hp);
    exists t; split; [exact Ht|]; destruct e; inversion Hp; subst; exact He);
  intros (t & Ht & He); apply events_of_In; eexists t, _;
    (split; [exact Ht | split; [exact He | reflexivity]]).
Qed.

(** ** TimingManager.calculateBeatlineTimes *)

Lemma increasing_app (l1 l2 : list Q) :
  StronglySorted Qlt l1 -> StronglySorted Qlt l2 ->
  (forall x y, In x l1 -> In y l2 -> x < y) ->
  StronglySorted Qlt (l1 ++ l2).
Proof.
  intros H1 H2 H. induction H1 as [|a l1 H1 IH Ha]; simpl.
  - exact H2.
  - constructor.
    + apply IH. intros x y Hx Hy. apply H; [right; exact Hx | exact Hy].
    + apply Forall_app. split; [exact Ha|].
      apply Forall_forall. intros y Hy. apply H; [left; reflexivity | exact Hy].
Qed.

Lemma rounds_enough (x segment : Q) :
  0 < segment -> exists B : nat, x <= inject_Z (Z.of_nat B) * segment.
Proof.
  intro Hs. exists (Z.to_nat (Qceiling (x / segment))).
  pose proof (Qle_ceiling (x / segment)) as Hc.
  assert (Hm : inject_Z (Qceiling (x / segment))
               <= inject_Z (Z.of_nat (Z.to_nat (Qceiling (x / segment))))).
  { rewrite <- Zle_Qle. lia. }
  assert (Hx : x == x / segment * segment) by (field; lra).
  rewrite Hx at 1. apply Qmult_le_compat_r; lra.
Qed.

Lemma beatline_segment_loop_ends (time segment next : Q) :
  0 < segment ->
  forall (B fuel : nat) (n : Z) (acc : list Q),
    (B < fuel)%nat ->
    next <= time + inject_Z (n + Z.of_nat B) * segment ->
    exists l,
      beatline_segment_loop fuel time segment next n acc = Some (acc ++ l)%list
      /\ Forall (fun x => time + inject_Z n * segment <= x /\ x < next) l
      /\ StronglySorted Qlt l.
Proof.
  intro Hs. induction B as [|B IH]; intros fuel n acc Hf Hb;
    (destruct fuel as [|fuel]; [lia|]); simpl;
    destruct (Qle_bool next (time + inject_Z n * segment)) eqn:E.
  - exists []. rewrite app_nil_r. repeat constructor.
  - apply Qle_bool_false in E. rewrite Z.add_0_r in Hb. lra.
  - exists []. rewrite app_nil_r. repeat constructor.
  - apply Qle_bool_false in E.
    replace (n + Z.of_nat (S B))%Z with (n + 1 + Z.of_nat B)%Z in Hb by lia.
    destruct (IH fuel (n + 1)%Z (acc ++ [time + inject_Z n * segment])%list
                 ltac:(lia) Hb) as (l & -> & Hl & Hsorted).
    exists ((time + inject_Z n * segment) :: l).
    rewrite <- app_assoc. split; [reflexivity|].
    rewrite inject_Z_plus in Hl.
    split.
    + constructor; [lra|].
      eapply Forall_impl; [|exact Hl]. cbv beta. intros x [Hx1 Hx2].
      unfold inject_Z at 2 in Hx1. lra.
    + constructor; [exact Hsorted|].
      eapply Forall_impl; [|exact Hl]. cbv beta. intros x [Hx1 Hx2].
      unfold inject_Z at 2 in Hx1. lra.
Qed.

Lemma beatline_remain_loop_ends (time segment length : Q) :
  0 < segment ->
  forall (B fuel : nat) (n : Z) (j : Q) (acc : list Q),
    (S B < fuel)%nat ->
    length <= time + inject_Z (n + Z.of_nat B) * segment ->
    exists l,
      beatline_remain_loop fuel time segment length n j acc
      = Some (acc ++ l)%list
      /\ Forall (fun x => time + inject_Z n * segment <= x) l
      /\ StronglySorted Qlt l.
Proof.
  intro Hs. induction B as [|B IH]; intros fuel n j acc Hf Hb;
    (destruct fuel as [|fuel]; [lia|]); simpl;
    destruct (Qlt_bool j length) eqn:E;
    try solve [exists []; rewrite app_nil_r; repeat constructor].
  - destruct fuel as [|fuel]; [lia|]. simpl.
    rewrite Z.add_0_r in Hb.
    destruct (Qlt_bool (time + inject_Z n * segment) length) eqn:E'.
    + apply Qlt_bool_iff in E'. lra.
    + exists ((time + inject_Z n * segment) :: []). split; [reflexivity|].
      split; repeat constructor. lra.
  - replace (n + Z.of_nat (S B))%Z with (n + 1 + Z.of_nat B)%Z in Hb by lia.
    destruct (IH fuel (n + 1)%Z (time + inject_Z n * segment)
                 (acc ++ [time + inject_Z n * segment])%list
                 ltac:(lia) Hb) as (l & -> & Hl & Hsorted).
    exists ((time + inject_Z n * segment) :: l).
    rewrite <- app_assoc. split; [reflexivity|].
    rewrite inject_Z_plus in Hl.
    split.
    + constructor; [lra|].
      eapply Forall_impl; [|exact Hl]. cbv beta. intros x Hx.
      unfold inject_Z at 2 in Hx. lra.
    + constructor; [exact Hsorted|].
      eapply Forall_impl; [|exact Hl]. cbv beta. intros x Hx.
      unfold inject_Z at 2 in Hx. lra.
Qed.

Lemma increasing_snoc (l : list Q) (t : Q) :
  StronglySorted Qlt l -> Forall (fun x => x < t) l ->
  StronglySorted Qlt (l ++ [t]).
Proof.
  intros Hs Hl. apply increasing_app.
  - exact Hs.
  - repeat constructor.
  - intros x y Hx [<-|[]]. rewrite Forall_forall in Hl. apply Hl. exact Hx.
Qed.

Lemma beatline_lead_loop_ends (delta : Q) :
  0 < delta ->
  forall (B fuel : nat) (n : Z) (t : Q) (acc : list Q),
    (S B < fuel)%nat ->
    - inject_Z (n + 1 + Z.of_nat B) * delta < -3000 ->
    exists l,
      beatline_lead_loop fuel delta n t acc = Some (l ++ acc)%list
      /\ Forall (fun x => x <= - inject_Z (n + 1) * delta) l
      /\ StronglySorted Qlt l.
Proof.
  intro Hd. induction B as [|B IH]; intros fuel n t acc Hf Hb;
    (destruct fuel as [|fuel]; [lia|]); simpl;
    destruct (Qle_bool (-3000) t) eqn:E;
    try solve [exists []; repeat constructor].
  - destruct fuel as [|fuel]; [lia|]. simpl.
    rewrite Z.add_0_r in Hb.
    destruct (Qle_bool (-3000) (- inject_Z (n + 1) * delta)) eqn:E'.
    + apply Qle_bool_iff in E'. lra.
    + exists ((- inject_Z (n + 1) * delta) :: []). split; [reflexivity|].
      split; repeat constructor. lra.
  - replace (n + 1 + Z.of_nat (S B))%Z
      with (n + 1 + 1 + Z.of_nat B)%Z in Hb by lia.
    destruct (IH fuel (n + 1)%Z (- inject_Z (n + 1) * delta)
                 ((- inject_Z (n + 1) * delta) :: acc)
                 ltac:(lia) Hb) as (l & -> & Hl & Hsorted).
    exists (l ++ [- inject_Z (n + 1) * delta])%list.
    rewrite <- app_assoc. split; [reflexivity|].
    rewrite (inject_Z_plus (n + 1) 1) in Hl.
    split.
    + apply Forall_app. split.
      * eapply Forall_impl; [|exact Hl]. cbv beta. intros x Hx.
        unfold inject_Z at 2 in Hx. lra.
      * repeat constructor. lra.
    + apply increasing_snoc; [exact Hsorted|].
      eapply Forall_impl; [|exact Hl]. cbv beta. intros x Hx.
      unfold inject_Z at 2 in Hx. lra.
Qed.

Lemma beatline_lead_loop_runs_on (delta : Q) :
  delta < 0 ->
  forall (fuel : nat) (n : Z) (t : Q) (acc : list Q),
    (0 <= n)%Z -> -3000 <= t ->
    beatline_lead_loop fuel delta n t acc = None.
Proof.
  intro Hd. induction fuel as [|fuel IH]; intros n t acc Hn Ht; simpl.
  - reflexivity.
  - apply Qle_bool_iff in Ht. rewrite Ht.
    apply IH; [lia|].
    assert (Hn' : 0 <= inject_Z (n + 1)) by (rewrite <- (Zle_Qle 0); lia).
    assert (Hp : 0 <= inject_Z (n + 1) * (- delta))
      by (apply Qmult_le_0_compat; lra).
    lra.
Qed.

Lemma beat_length_positive (bpm beatsPerLine : Q) :
  ~ bpm == 0 -> 0 < beatsPerLine -> 0 < 60000 / Qabs bpm * beatsPerLine.
Proof.
  intros Hb Hl.
  assert (Ha : 0 < Qabs bpm).
  { destruct (Qlt_le_dec bpm 0) as [H|H].
    - rewrite Qabs_neg by lra. lra.
    - rewrite Qabs_pos by lra.
      destruct (Qle_lt_or_eq _ _ H) as [H'|H']; [exact H'|].
      exfalso. apply Hb. symmetry. exact H'. }
  apply Qmult_lt_0_compat; [|exact Hl].
  unfold Qdiv. apply Qmult_lt_0_compat; [reflexivity|].
  apply Qinv_lt_0_compat. exact Ha.
Qed.

Lemma last_cons {A : Type} (a b : A) (l : list A) (d : A) :
  last (a :: b :: l) d = last (b :: l) d.
Proof. reflexivity. Qed.

Lemma last_default {A : Type} (l : list A) (b d d' : A) :
  last (b :: l) d = last (b :: l) d'.
Proof.
  revert b. induction l as [|c l IH]; intro b; [reflexivity|].
  rewrite !last_cons. apply IH.
Qed.

Lemma nth_error_last {A : Type} (l : list A) (e : A) :
  nth_error (e :: l) (List.length (e :: l) - 1) = Some (last (e :: l) e).
Proof.
  revert e. induction l as [|b l IH]; intro e; [reflexivity|].
  rewrite last_cons. rewrite (last_default l b e b). rewrite <- IH.
  simpl. rewrite Nat.sub_0_r. reflexivity.
Qed.

Lemma beatline_segments_cons (fuel : nat) (e e' : TimingEvent.t Q)
    (rest : list (TimingEvent.t Q)) (acc : list Q) :
  beatline_segments fuel (e :: e' :: rest) acc
  = let segment :=
      if Qeq_bool (TimingEvent.bpm e) 0
      then TimingEvent.time e' - TimingEvent.time e
      else 60000 / Qabs (TimingEvent.bpm e) * TimingEvent.beatsPerLine e in
    if Qeq_bool segment 0 then beatline_segments fuel (e' :: rest) acc
    else
      match beatline_segment_loop fuel (TimingEvent.time e) segment
                                  (TimingEvent.time e') 0 acc with
      | None => None
      | Some acc' => beatline_segments fuel (e' :: rest) acc'
      end.
Proof. reflexivity. Qed.

Lemma beatline_segments_end (timings : list (TimingEvent.t Q)) :
  StronglySorted by_time timings ->
  Forall (fun e => 0 < TimingEvent.beatsPerLine e) timings ->
  forall e rest, timings = e :: rest ->
  exists fuel0, forall fuel acc, (fuel0 <= fuel)%nat ->
    exists l,
      beatline_segments fuel timings acc = Some (acc ++ l)%list
      /\ Forall (fun x => TimingEvent.time e <= x
                          /\ x < TimingEvent.time (last timings e)) l
      /\ StronglySorted Qlt l.
Proof.
  intros Hsorted. induction Hsorted as [|e0 rest0 Hs IH Hall];
    intros Hbpl e rest Heq; [discriminate|].
  injection Heq as -> ->.
  destruct rest as [|e' rest'].
  - exists O. intros fuel acc _. exists []. simpl.
    rewrite app_nil_r. repeat constructor.
  - inversion Hbpl as [|? ? Hbe Hbrest]; subst.
    destruct (IH Hbrest e' rest' eq_refl) as (f0 & Hrest).
    inversion Hall as [|? ? Hee' _]; subst. unfold by_time in Hee'.
    rewrite last_cons. rewrite (last_default rest' e' e e').
    set (segment :=
           if Qeq_bool (TimingEvent.bpm e) 0
           then TimingEvent.time e' - TimingEvent.time e
           else 60000 / Qabs (TimingEvent.bpm e) * TimingEvent.beatsPerLine e).
    destruct (Qeq_bool segment 0) eqn:Ez.
    + exists f0. intros fuel acc Hf.
      rewrite beatline_segments_cons. cbv zeta. fold segment. rewrite Ez.
      destruct (Hrest fuel acc Hf) as (l & El & Hl & Hsl).
      exists l. split; [exact El|]. split; [|exact Hsl].
      eapply Forall_impl; [|exact Hl]. cbv beta. intros x [H1 H2].
      split; lra.
    + assert (Hpos : 0 < segment).
      { apply Qeq_bool_neq in Ez. subst segment.
        destruct (Qeq_bool (TimingEvent.bpm e) 0) eqn:Eb.
        - lra.
        - apply beat_length_positive; [|exact Hbe].
          apply Qeq_bool_neq. exact Eb. }
      destruct (@rounds_enough (TimingEvent.time e' - TimingEvent.time e)
                               segment Hpos) as (B & HB).
      exists (Nat.max (S B) f0). intros fuel acc Hf.
      rewrite beatline_segments_cons. cbv zeta. fold segment. rewrite Ez.
      destruct (@beatline_segment_loop_ends (TimingEvent.time e) segment
                  (TimingEvent.time e') Hpos B fuel 0%Z acc ltac:(lia))
        as (l1 & E1 & Hl1 & Hs1).
      { rewrite Z.add_0_l. lra. }
      rewrite E1. cbv iota.
      destruct (Hrest fuel (acc ++ l1)%list ltac:(lia)) as (l2 & -> & Hl2 & Hs2).
      exists (l1 ++ l2)%list. rewrite app_assoc. split; [reflexivity|].
      rewrite Forall_forall in Hl1, Hl2.
      split.
      * apply Forall_forall. intros x Hx. apply in_app_or in Hx.
        destruct Hx as [Hx|Hx].
        -- destruct (Hl1 x Hx) as [H1 H2]. unfold inject_Z in H1.
           assert (Hlast : TimingEvent.time e'
                           <= TimingEvent.time (last (e' :: rest') e')).
           { clear - Hs. 
             assert (G : forall d, In d (e' :: rest') ->
                           TimingEvent.time e' <= TimingEvent.time d).
             { intros d [<-|Hd]; [lra|].
               inversion Hs as [|? ? _ Hf]; subst.
               rewrite Forall_forall in Hf. apply Hf. exact Hd. }
             apply G. clear. revert e'.
             induction rest' as [|c l IHl]; intro e'; [left; reflexivity|].
             rewrite last_cons. right.
             rewrite (last_default l c e' c). apply IHl. }
           split; lra.
        -- destruct (Hl2 x Hx) as [H1 H2]. split; lra.
      * apply increasing_app; [exact Hs1 | exact Hs2 |].
        intros x y Hx Hy. destruct (Hl1 x Hx) as [_ H1].
        destruct (Hl2 y Hy) as [H2 _]. lra.
Qed.

(** X27.  The beat lines of a chart.  When no timing event of the group is
    before time 0 and every one has a positive [beatsPerLine], the three
    loops of [calculateBeatlineTimes] end and the beat line times come out
    strictly increasing.  When the first timing event has a non-zero tempo
    and a negative [beatsPerLine], the method never returns. *)
Theorem beatlines_increasing (g : TimingGroup.t Q) (gm : GameplayManager.t) :
  let timings := TimingGroup_getTimingEvents g in
  (Forall (fun e => 0 <= TimingEvent.time e
                    /\ 0 < TimingEvent.beatsPerLine e) timings ->
   exists fuel0, forall fuel, (fuel0 <= fuel)%nat ->
     exists l,
       TimingManager_calculateBeatlineTimes fuel gm timings = Some l
       /\ StronglySorted Qlt l)
  /\ (forall first,
        nth_error timings 0 = Some first ->
        ~ TimingEvent.bpm first == 0 ->
        TimingEvent.beatsPerLine first < 0 ->
        forall fuel,
          TimingManager_calculateBeatlineTimes fuel gm timings = None).
Proof.
  intro timings.
  assert (Hsorted : StronglySorted by_time timings)
    by apply sort_by_time_sorted.
  clearbody timings. split.
  - intro Hall.
    assert (Htime : Forall (fun e => 0 <= TimingEvent.time e) timings)
      by (eapply Forall_impl; [|exact Hall]; cbv beta; tauto).
    assert (Hbpl : Forall (fun e => 0 < TimingEvent.beatsPerLine e) timings)
      by (eapply Forall_impl; [|exact Hall]; cbv beta; tauto).
    clear Hall.
    destruct timings as [|e rest].
    { exists O. intros fuel _. exists []. split; [reflexivity|constructor]. }
    destruct (@beatline_segments_end (e :: rest) Hsorted Hbpl e rest eq_refl)
      as (f1 & Hseg).
    set (final := last (e :: rest) e) in *.
    set (length := inject_Z (GameplayManager.length gm)).
    assert (Hfinal : In final (e :: rest)).
    { subst final. clear. revert e.
      induction rest as [|c l IHl]; intro e; [left; reflexivity|].
      rewrite last_cons. right. rewrite (last_default l c e c). apply IHl. }
    assert (Hfinal_bpl : 0 < TimingEvent.beatsPerLine final)
      by (rewrite Forall_forall in Hbpl; apply Hbpl; exact Hfinal).
    inversion Htime as [|? ? He0 _]; subst.
    inversion Hbpl as [|? ? Hebpl _]; subst.
    (* the rounds of the loop after the last timing event *)
    set (segmentsRemain :=
           if Qeq_bool (TimingEvent.bpm final) 0
           then length - TimingEvent.time final
           else 60000 / Qabs (TimingEvent.bpm final)
                * TimingEvent.beatsPerLine final).
    assert (Hremain : exists f2, forall fuel acc, (f2 <= fuel)%nat ->
              exists l,
                (if negb (Qeq_bool segmentsRemain 0) then
                   beatline_remain_loop fuel (TimingEvent.time final)
                     segmentsRemain length 0 (TimingEvent.time final) acc
                 else Some acc) = Some (acc ++ l)%list
                /\ Forall (fun x => TimingEvent.time final <= x) l
                /\ StronglySorted Qlt l).
    { destruct (Qeq_bool segmentsRemain 0) eqn:Ez; simpl negb; cbv iota.
      - exists O. intros fuel acc _. exists []. rewrite app_nil_r.
        repeat constructor.
      - apply Qeq_bool_neq in Ez.
        destruct (Qlt_le_dec 0 segmentsRemain) as [Hpos|Hneg].
        + destruct (@rounds_enough (length - TimingEvent.time final)
                      segmentsRemain Hpos) as (B & HB).
          exists (S (S B)). intros fuel acc Hf.
          destruct (@beatline_remain_loop_ends (TimingEvent.time final)
                      segmentsRemain length Hpos B fuel 0%Z
                      (TimingEvent.time final) acc ltac:(lia))
            as (l & El & Hl & Hs).
          { rewrite Z.add_0_l. lra. }
          exists l. split; [exact El|]. split; [|exact Hs].
          eapply Forall_impl; [|exact Hl]. cbv beta. intros x Hx.
          unfold inject_Z in Hx. lra.
        + assert (Hlen : length <= TimingEvent.time final).
          { subst segmentsRemain.
            destruct (Qeq_bool (TimingEvent.bpm final) 0) eqn:Eb.
            - lra.
            - apply Qeq_bool_neq in Eb.
              pose proof (beat_length_positive Eb Hfinal_bpl). lra. }
          exists 1%nat. intros fuel acc Hf.
          destruct fuel as [|fuel]; [lia|]. simpl.
          apply Qlt_bool_false in Hlen. rewrite Hlen.
          exists []. rewrite app_nil_r. repeat constructor. }
    destruct Hremain as (f2 & Hremain).
    (* the rounds of the loop before time 0 *)
    set (delta := 60000 / Qabs (TimingEvent.bpm e) * TimingEvent.beatsPerLine e).
    assert (Hlead : exists f3, forall fuel acc, (f3 <= fuel)%nat ->
              exists l,
                (if negb (Qeq_bool (TimingEvent.bpm e) 0)
                    && negb (Qeq_bool (TimingEvent.beatsPerLine e) 0) then
                   if negb (Qeq_bool delta 0)
                   then beatline_lead_loop fuel delta 0 0 acc
                   else Some acc
                 else Some acc) = Some (l ++ acc)%list
                /\ Forall (fun x => x < 0) l
                /\ StronglySorted Qlt l).
    { destruct (Qeq_bool (TimingEvent.bpm e) 0) eqn:Eb; simpl negb;
        cbv iota; simpl andb; cbv iota.
      { exists O. intros fuel acc _. exists []. repeat constructor. }
      destruct (Qeq_bool (TimingEvent.beatsPerLine e) 0) eqn:El; simpl negb;
        cbv iota.
      { exists O. intros fuel acc _. exists []. repeat constructor. }
      apply Qeq_bool_neq in Eb.
      assert (Hpos : 0 < delta) by (apply beat_length_positive; assumption).
      destruct (Qeq_bool delta 0) eqn:Ed; simpl negb; cbv iota.
      { apply Qeq_bool_iff in Ed. lra. }
      destruct (@rounds_enough 3000 delta Hpos) as (B & HB).
      exists (S (S B)). intros fuel acc Hf.
      destruct (@beatline_lead_loop_ends delta Hpos B fuel 0%Z 0 acc
                  ltac:(lia)) as (l & El' & Hl & Hs).
      { rewrite inject_Z_plus, inject_Z_plus. unfold inject_Z at 1 2.
        lra. }
      exists l. split; [exact El'|]. split; [|exact Hs].
      eapply Forall_impl; [|exact Hl]. cbv beta. intros x Hx.
      unfold inject_Z in Hx. simpl Z.add in Hx. lra. }
    destruct Hlead as (f3 & Hlead).
    exists (Nat.max f1 (Nat.max f2 f3)). intros fuel Hf.
    unfold TimingManager_calculateBeatlineTimes. cbv zeta.
    destruct (Hseg fuel [] ltac:(lia)) as (l1 & -> & Hl1 & Hs1).
    rewrite nth_error_last. fold final. fold length. fold segmentsRemain.
    destruct (Hremain fuel ([] ++ l1)%list ltac:(lia))
      as (l2 & -> & Hl2 & Hs2).
    cbn [nth_error]. fold delta.
    destruct (Hlead fuel (([] ++ l1) ++ l2)%list ltac:(lia))
      as (l3 & -> & Hl3 & Hs3).
    eexists. split; [reflexivity|].
    rewrite Forall_forall in Hl1, Hl2, Hl3. simpl app.
    apply increasing_app; [exact Hs3 | |].
    + apply increasing_app; [exact Hs1 | exact Hs2 |].
      intros x y Hx Hy. destruct (Hl1 x Hx) as [_ H1].
      pose proof (Hl2 y Hy). lra.
    + intros x y Hx Hy. pose proof (Hl3 x Hx) as H3.
      assert (Hfinal0 : TimingEvent.time e <= TimingEvent.time final).
      { destruct Hfinal as [<-|Hin]; [lra|].
        inversion Hsorted as [|? ? _ Hf']; subst.
        rewrite Forall_forall in Hf'. apply (Hf' _ Hin). }
      apply in_app_or in Hy. destruct Hy as [Hy|Hy].
      * destruct (Hl1 y Hy) as [H1 _]. lra.
      * pose proof (Hl2 y Hy). lra.
  - intros first Hfirst Hbpm Hneg fuel.
    unfold TimingManager_calculateBeatlineTimes. cbv zeta.
    destruct (beatline_segments fuel timings []) as [acc1|]; [|reflexivity].
    match goal with
    | |- match ?r with _ => _ end = None =>
        destruct r as [acc2|]; [|reflexivity]
    end.
    rewrite Hfirst.
    assert (Eb : Qeq_bool (TimingEvent.bpm first) 0 = false).
    { destruct (Qeq_bool (TimingEvent.bpm first) 0) eqn:E; [|reflexivity].
      apply Qeq_bool_iff in E. contradiction. }
    assert (El : Qeq_bool (TimingEvent.beatsPerLine first) 0 = false).
    { destruct (Qeq_bool (TimingEvent.beatsPerLine first) 0) eqn:E;
        [|reflexivity].
      apply Qeq_bool_iff in E. lra. }
    rewrite Eb, El. simpl negb. simpl andb. cbv iota.
    assert (Hd : 60000 / Qabs (TimingEvent.bpm first)
                 * TimingEvent.beatsPerLine first < 0).
    { assert (Hp : 0 < 60000 / Qabs (TimingEvent.bpm first)
                       * (- TimingEvent.beatsPerLine first))
        by (apply beat_length_positive; [exact Hbpm | lra]).
      lra. }
    destruct (Qeq_bool (60000 / Qabs (TimingEvent.bpm first)
                        * TimingEvent.beatsPerLine first) 0) eqn:Ed.
    { apply Qeq_bool_iff in Ed. lra. }
    simpl negb. cbv iota.
    apply beatline_lead_loop_runs_on; [exact Hd | lia | lra].
Qed.

Lemma beatlines_increasing_witness :
  exists fuel0, forall fuel, (fuel0 <= fuel)%nat ->
    exists l,
      TimingManager_calculateBeatlineTimes fuel at_start
        (TimingGroup_getTimingEvents two_tempi_group) = Some l
      /\ StronglySorted Qlt l.
Proof.
  apply (proj1 (beatlines_increasing two_tempi_group at_start)).
  repeat constructor; discriminate.
Defined.

(** ** ArcManager.calculateArcRelationship: groups and heads *)

Lemma update_nth_length {A : Type} (i : nat) (f : A -> A) (l : list A) :
  List.length (update_nth i f l) = List.length l.
Proof.
  revert i. induction l as [|x l IH]; intros [|i]; simpl; auto.
Qed.

Lemma update_nth_same {A : Type} (i : nat) (f : A -> A) (l : list A) :
  nth_error (update_nth i f l) i = option_map f (nth_error l i).
Proof.
  revert i. induction l as [|x l IH]; intros [|i]; simpl; auto.
Qed.

Lemma update_nth_other {A : Type} (i j : nat) (f : A -> A) (l : list A) :
  i <> j -> nth_error (update_nth i f l) j = nth_error l j.
Proof.
  revert i j. induction l as [|x l IH]; intros [|i] [|j] H; simpl; auto;
    try congruence.
Qed.

Lemma update_nth_map {A B : Type} (g : A -> B) (i : nat) (f : A -> A)
    (l : list A) :
  (forall x, g (f x) = g x) -> map g (update_nth i f l) = map g l.
Proof.
  intro H. revert i. induction l as [|x l IH]; intros [|i]; simpl; auto.
  - rewrite H. reflexivity.
  - rewrite IH. reflexivity.
Qed.

Lemma update_nth_Forall {A : Type} (P : A -> Prop) (i : nat) (f : A -> A)
    (l : list A) :
  (forall x, P x -> P (f x)) -> Forall P l -> Forall P (update_nth i f l).
Proof.
  intros H Hl. revert i. induction Hl as [|x l Hx Hl IH]; intros [|i]; simpl;
    constructor; auto.
Qed.

Lemma Arc_shape_set_arcGroup (g : option nat) (a : Arc.t Q) :
  Arc_shape (Arc_set_arcGroup g a) = Arc_shape a.
Proof. destruct a. reflexivity. Qed.

Lemma Arc_shape_set_renderHead (r : bool) (a : Arc.t Q) :
  Arc_shape (Arc_set_renderHead r a) = Arc_shape a.
Proof. destruct a. reflexivity. Qed.

Lemma Arc_shape_set_judgeTimings (l : list Z) (a : Arc.t Q) :
  Arc_shape (Arc_set_judgeTimings a l) = Arc_shape a.
Proof. destruct a. reflexivity. Qed.

Lemma Arc_shape_touch (a a' b b' : Arc.t Q) :
  Arc_shape a = Arc_shape a' -> Arc_shape b = Arc_shape b' ->
  arcs_touch a b = arcs_touch a' b'
  /\ Arc.isVoid a = Arc.isVoid a' /\ Arc.isVoid b = Arc.isVoid b'.
Proof.
  destruct a, a', b, b'. unfold Arc_shape, arcs_touch. simpl.
  intros Ha Hb. injection Ha as <- <- <- <- <- <- <- <- <-.
  injection Hb as <- <- <- <- <- <- <- <- <-. auto.
Qed.

Lemma map_nth_error_eq {A B : Type} (g : A -> B) (l l' : list A) (i : nat) :
  map g l = map g l' ->
  option_map g (nth_error l i) = option_map g (nth_error l' i).
Proof.
  intro H. rewrite <- !nth_error_map. rewrite H. reflexivity.
Qed.

Lemma hides_shape (l l' : list (Arc.t Q)) (ia ib : nat) :
  map Arc_shape l = map Arc_shape l' -> hides l ia ib = hides l' ia ib.
Proof.
  intro H. unfold hides.
  pose proof (@map_nth_error_eq _ _ Arc_shape l l' ia H) as Ha.
  pose proof (@map_nth_error_eq _ _ Arc_shape l l' ib H) as Hb.
  destruct (nth_error l ia) as [a|], (nth_error l' ia) as [a'|];
    try discriminate; [|reflexivity].
  destruct (nth_error l ib) as [b|], (nth_error l' ib) as [b'|];
    try discriminate; [|reflexivity].
  simpl in Ha, Hb.
  assert (Sa : Arc_shape a = Arc_shape a') by congruence.
  assert (Sb : Arc_shape b = Arc_shape b') by congruence.
  destruct (@Arc_shape_touch a a' b b' Sa Sb) as (-> & -> & ->).
  reflexivity.
Qed.
Lemma push_if_absent_ok (n : nat) (array : list nat) (t : nat) :
  (t < n)%nat -> array_ok n array -> array_ok n (push_if_absent array t).
Proof.
  intros Ht [Hne Hall]. unfold push_if_absent.
  destruct (not_in_array t array); [|split; assumption].
  split.
  - destruct array; discriminate.
  - apply Forall_app. split; [exact Hall | repeat constructor; exact Ht].
Qed.

Lemma fold_push_ok (n : nat) (bs array : list nat) :
  Forall (fun i => (i < n)%nat) bs -> array_ok n array ->
  array_ok n (fold_left push_if_absent bs array).
Proof.
  intro Hbs. revert array. induction Hbs as [|t bs Ht Hbs IH]; intros array H.
  - exact H.
  - simpl. apply IH. apply push_if_absent_ok; assumption.
Qed.

Lemma set_arcGroup_inv (arcs0 : list (Arc.t Q)) (i g : nat)
    (m : ArcManager.t) :
  arcs_inv arcs0 m -> (g < List.length (ArcManager.store m))%nat ->
  arcs_inv arcs0 (set_arcGroup i (Some g) m).
Proof.
  intros (Hs & Hg & Hst) Hlt. unfold set_arcGroup. split; [|split]; simpl.
  - rewrite update_nth_map; [exact Hs|]. apply Arc_shape_set_arcGroup.
  - clear Hs Hst. revert i.
    induction Hg as [|a l Ha Hl IH]; intros [|i]; simpl; constructor; auto.
  - exact Hst.
Qed.

Lemma update_array_inv (arcs0 : list (Arc.t Q)) (g : nat)
    (f : list nat -> list nat) (m : ArcManager.t) :
  arcs_inv arcs0 m ->
  (forall array, array_ok (List.length arcs0) array ->
                 array_ok (List.length arcs0) (f array)) ->
  arcs_inv arcs0 (update_array g f m).
Proof.
  intros (Hs & Hg & Hst) Hf. unfold update_array. split; [|split]; simpl.
  - exact Hs.
  - rewrite update_nth_length. exact Hg.
  - apply update_nth_Forall; [|exact Hst]. exact Hf.
Qed.

Lemma set_renderHead_inv (arcs0 : list (Arc.t Q)) (i : nat) (r : bool)
    (m : ArcManager.t) :
  arcs_inv arcs0 m -> arcs_inv arcs0 (set_renderHead i r m).
Proof.
  intros (Hs & Hg & Hst). unfold set_renderHead. split; [|split]; simpl.
  - rewrite update_nth_map; [exact Hs|]. apply Arc_shape_set_renderHead.
  - apply update_nth_Forall; [|exact Hg]. intros a Ha. destruct a; exact Ha.
  - exact Hst.
Qed.

Lemma new_array_inv (arcs0 : list (Arc.t Q)) (ia : nat) (m : ArcManager.t) :
  arcs_inv arcs0 m -> (ia < List.length arcs0)%nat ->
  arcs_inv arcs0
    (ArcManager.new (ArcManager.arcs m) (ArcManager.store m ++ [[ia]])).
Proof.
  intros (Hs & Hg & Hst) Hlt. split; [|split]; simpl.
  - exact Hs.
  - eapply Forall_impl; [|exact Hg]. cbv beta. intros a Ha.
    destruct (Arc.arcGroup a); [|exact I].
    rewrite length_app. simpl. lia.
  - apply Forall_app. split; [exact Hst|].
    repeat constructor; [discriminate | exact Hlt].
Qed.

Lemma arcGroup_in_store (arcs0 : list (Arc.t Q)) (m : ArcManager.t)
    (i g : nat) (a : Arc.t Q) :
  arcs_inv arcs0 m -> nth_error (ArcManager.arcs m) i = Some a ->
  Arc.arcGroup a = Some g -> (g < List.length (ArcManager.store m))%nat.
Proof.
  intros (_ & Hg & _) Hi Ha. apply nth_error_In in Hi.
  rewrite Forall_forall in Hg. specialize (Hg a Hi). rewrite Ha in Hg.
  exact Hg.
Qed.

Lemma store_array_ok (arcs0 : list (Arc.t Q)) (m : ArcManager.t) (g : nat) :
  arcs_inv arcs0 m ->
  Forall (fun i => (i < List.length arcs0)%nat) (nth g (ArcManager.store m) []).
Proof.
  intros (_ & _ & Hst).
  destruct (Nat.lt_ge_cases g (List.length (ArcManager.store m))) as [H|H].
  - rewrite Forall_forall in Hst.
    apply (Hst (nth g (ArcManager.store m) [])). apply nth_In. exact H.
  - rewrite nth_overflow by exact H. constructor.
Qed.

Lemma renderHead_at_set_arcGroup (i : nat) (g : option nat)
    (m : ArcManager.t) (j : nat) :
  renderHead_at (set_arcGroup i g m) j = renderHead_at m j.
Proof.
  unfold renderHead_at, set_arcGroup. simpl.
  destruct (Nat.eq_dec i j) as [->|H].
  - rewrite update_nth_same. destruct (nth_error (ArcManager.arcs m) j) as [a|];
      [destruct a|]; reflexivity.
  - rewrite update_nth_other by exact H. reflexivity.
Qed.

Lemma renderHead_at_set_renderHead (i : nat) (r : bool) (m : ArcManager.t)
    (j : nat) :
  renderHead_at (set_renderHead i r m) j
  = if Nat.eqb j i then option_map (fun _ => r) (renderHead_at m j)
    else renderHead_at m j.
Proof.
  unfold renderHead_at, set_renderHead. simpl.
  destruct (Nat.eqb j i) eqn:E.
  - apply Nat.eqb_eq in E. subst j. rewrite update_nth_same.
    destruct (nth_error (ArcManager.arcs m) i) as [a|]; [destruct a|];
      reflexivity.
  - apply Nat.eqb_neq in E. rewrite update_nth_other by congruence.
    reflexivity.
Qed.

Lemma renderHead_at_update_array (g : nat) (f : list nat -> list nat)
    (m : ArcManager.t) (j : nat) :
  renderHead_at (update_array g f m) j = renderHead_at m j.
Proof. reflexivity. Qed.

Lemma relate_spec (arcs0 : list (Arc.t Q)) (ia ib : nat) (m : ArcManager.t) :
  arcs_inv arcs0 m ->
  (ia < List.length arcs0)%nat -> (ib < List.length arcs0)%nat ->
  arcs_inv arcs0 (relate ia ib m)
  /\ forall j,
       renderHead_at (relate ia ib m) j
       = if Nat.eqb j ib && hides (ArcManager.arcs m) ia ib
         then option_map (fun _ => false) (renderHead_at m j)
         else renderHead_at m j.
Proof.
  intros Hinv Ha Hb. unfold relate, hides.
  destruct (Nat.eqb ia ib); simpl negb; cbv iota.
  { split; [exact Hinv|]. intro j. rewrite andb_false_r. reflexivity. }
  simpl andb.
  destruct (nth_error (ArcManager.arcs m) ia) as [a|] eqn:Ea;
    [|split; [exact Hinv|]; intro j; rewrite andb_false_r; reflexivity].
  destruct (nth_error (ArcManager.arcs m) ib) as [b|] eqn:Eb;
    [|split; [exact Hinv|]; intro j; rewrite andb_false_r; reflexivity].
  destruct (arcs_touch a b); simpl andb;
    [|split; [exact Hinv|]; intro j; rewrite andb_false_r; reflexivity].
  match goal with
  | |- arcs_inv _ (if _ then set_renderHead ib false ?m1 else ?m1) /\ _ =>
      assert (H1 : arcs_inv arcs0 m1
                   /\ forall j, renderHead_at m1 j = renderHead_at m j);
      [|set (m' := m1) in *]
  end.
  { destruct (Qeq_bool (Arc.color a) (Arc.color b)
              && Bool.eqb (Arc.isVoid a) (Arc.isVoid b)
              && Nat.eqb (Arc.timingGroup a) (Arc.timingGroup b));
      [|split; [exact Hinv | reflexivity]].
    destruct (Arc.arcGroup a) as [ga|] eqn:Ga;
      destruct (Arc.arcGroup b) as [gb|] eqn:Gb.
    - pose proof (arcGroup_in_store ia Hinv Ea Ga) as Hga.
      split.
      + apply update_array_inv; [|intros; apply push_if_absent_ok; assumption].
        apply set_arcGroup_inv; [|simpl; rewrite update_nth_length; exact Hga].
        apply update_array_inv; [exact Hinv|].
        intros array Harr. apply fold_push_ok; [|exact Harr].
        apply (store_array_ok gb Hinv).
      + intro j. rewrite renderHead_at_update_array.
        rewrite renderHead_at_set_arcGroup.
        rewrite renderHead_at_update_array. reflexivity.
    - pose proof (arcGroup_in_store ia Hinv Ea Ga) as Hga.
      split.
      + apply update_array_inv; [|intros; apply push_if_absent_ok; assumption].
        apply set_arcGroup_inv; assumption.
      + intro j. rewrite renderHead_at_update_array.
        rewrite renderHead_at_set_arcGroup. reflexivity.
    - pose proof (arcGroup_in_store ib Hinv Eb Gb) as Hgb.
      split.
      + apply update_array_inv; [|intros; apply push_if_absent_ok; assumption].
        apply set_arcGroup_inv; assumption.
      + intro j. rewrite renderHead_at_update_array.
        rewrite renderHead_at_set_arcGroup. reflexivity.
    - split.
      + apply update_array_inv; [|intros; apply push_if_absent_ok; assumption].
        apply set_arcGroup_inv;
          [|simpl; rewrite length_app; simpl; lia].
        apply set_arcGroup_inv;
          [|simpl; rewrite length_app; simpl; lia].
        apply new_array_inv; assumption.
      + intro j. rewrite renderHead_at_update_array.
        rewrite !renderHead_at_set_arcGroup. reflexivity. }
  destruct H1 as [Hinv1 Hrh1].
  destruct (Bool.eqb (Arc.isVoid a) (Arc.isVoid b)).
  - split; [apply set_renderHead_inv; exact Hinv1|].
    intro j. rewrite renderHead_at_set_renderHead. rewrite Hrh1.
    rewrite andb_true_r. reflexivity.
  - split; [exact Hinv1|]. intro j. rewrite andb_false_r. apply Hrh1.
Qed.
Lemma fold_pairs {A B S : Type} (f : A -> B -> S -> S) (l1 : list A)
    (l2 : list B) (s : S) :
  fold_left (fun s a => fold_left (fun s b => f a b s) l2 s) l1 s
  = fold_left (fun s p => f (fst p) (snd p) s) (list_prod l1 l2) s.
Proof.
  revert s. induction l1 as [|a l1 IH]; intro s; simpl.
  - reflexivity.
  - rewrite fold_left_app. rewrite <- IH. f_equal.
    clear. revert s. induction l2 as [|b l2 IH2]; intro s; simpl.
    + reflexivity.
    + apply IH2.
Qed.

Lemma pairing_loop (arcs0 : list (Arc.t Q)) (pairs : list (nat * nat)) :
  forall m,
    arcs_inv arcs0 m ->
    Forall (fun p => (fst p < List.length arcs0)%nat
                     /\ (snd p < List.length arcs0)%nat) pairs ->
    let m' := fold_left (fun m p => relate (fst p) (snd p) m) pairs m in
    arcs_inv arcs0 m'
    /\ forall j,
         renderHead_at m' j
         = if existsb (fun p => Nat.eqb j (snd p) && hides arcs0 (fst p) (snd p))
                      pairs
           then option_map (fun _ => false) (renderHead_at m j)
           else renderHead_at m j.
Proof.
  induction pairs as [|[ia ib] pairs IH]; intros m Hinv Hall; simpl.
  - split; [exact Hinv | reflexivity].
  - inversion Hall as [|? ? [Ha Hb] Hrest]; subst. simpl in Ha, Hb.
    destruct (@relate_spec arcs0 ia ib m Hinv Ha Hb) as [Hinv1 Hrh1].
    destruct (IH _ Hinv1 Hrest) as [Hinv2 Hrh2].
    split; [exact Hinv2|]. intro j. rewrite Hrh2, Hrh1.
    destruct Hinv as [Hshape _].
    rewrite (@hides_shape _ _ ia ib Hshape).
    destruct (Nat.eqb j ib && hides arcs0 ia ib); simpl;
      destruct (existsb _ pairs); try reflexivity.
    destruct (renderHead_at m j); reflexivity.
Qed.

Lemma insert_arc_ok (n : nat) (arcs : list (Arc.t Q)) (i : nat)
    (l : list nat) :
  (i < n)%nat -> Forall (fun i => (i < n)%nat) l ->
  array_ok n (insert_arc arcs i l).
Proof.
  intros Hi Hl. induction Hl as [|j l Hj Hl IH]; simpl.
  - split; [discriminate | repeat constructor; exact Hi].
  - destruct (nth_error arcs i), (nth_error arcs j);
      try (split; [discriminate | repeat constructor; assumption]).
    destruct (Qle_bool _ _).
    + split; [discriminate | repeat constructor; assumption].
    + split; [discriminate|]. constructor; [exact Hj | apply IH].
Qed.

Lemma sort_arcs_ok (n : nat) (arcs : list (Arc.t Q)) (l : list nat) :
  array_ok n l -> array_ok n (sort_arcs arcs l).
Proof.
  intros [Hne Hall]. destruct l as [|i l]; [congruence|]. clear Hne.
  simpl. inversion Hall as [|? ? Hi Hl]; subst.
  apply insert_arc_ok; [exact Hi|].
  clear Hi Hall. induction Hl as [|j l Hj Hl IH]; simpl; [constructor|].
  apply insert_arc_ok; assumption.
Qed.

Lemma arcs_inv_length (arcs0 : list (Arc.t Q)) (m : ArcManager.t) :
  arcs_inv arcs0 m -> List.length (ArcManager.arcs m) = List.length arcs0.
Proof.
  intros [H _]. apply (f_equal (@List.length _)) in H.
  rewrite !length_map in H. exact H.
Qed.

Lemma has_group_set_arcGroup (i g : nat) (m : ArcManager.t) (j : nat) :
  (i < List.length (ArcManager.arcs m))%nat ->
  (j = i \/ has_group m j) -> has_group (set_arcGroup i (Some g) m) j.
Proof.
  intros Hi H. unfold has_group, set_arcGroup. simpl.
  destruct (Nat.eq_dec i j) as [->|Hne].
  - rewrite update_nth_same.
    destruct (nth_error (ArcManager.arcs m) j) as [a|] eqn:E.
    + exists (Arc_set_arcGroup (Some g) a), g. split; [reflexivity|].
      destruct a; reflexivity.
    + apply nth_error_None in E. lia.
  - rewrite update_nth_other by exact Hne.
    destruct H as [->|H]; [congruence | exact H].
Qed.

Lemma settle_spec (arcs0 : list (Arc.t Q)) (ia : nat) (m : ArcManager.t) :
  arcs_inv arcs0 m -> (ia < List.length arcs0)%nat ->
  arcs_inv arcs0 (settle ia m)
  /\ (forall j, renderHead_at (settle ia m) j = renderHead_at m j)
  /\ (forall j, j = ia \/ has_group m j -> has_group (settle ia m) j).
Proof.
  intros Hinv Ha. unfold settle.
  pose proof (arcs_inv_length Hinv) as Hlen.
  destruct (nth_error (ArcManager.arcs m) ia) as [a|] eqn:Ea;
    [|apply nth_error_None in Ea; lia].
  destruct (Arc.arcGroup a) as [g|] eqn:Ga.
  - split; [|split].
    + apply update_array_inv; [exact Hinv|]. intros. apply sort_arcs_ok.
      assumption.
    + intro j. apply renderHead_at_update_array.
    + intros j [->|H]; [|exact H]. exists a, g. auto.
  - split; [|split].
    + apply update_array_inv; [|intros; apply sort_arcs_ok; assumption].
      apply set_arcGroup_inv; [|simpl; rewrite length_app; simpl; lia].
      apply new_array_inv; assumption.
    + intro j. rewrite renderHead_at_update_array.
      rewrite renderHead_at_set_arcGroup. reflexivity.
    + intros j H.
      apply (@has_group_set_arcGroup ia (List.length (ArcManager.store m))
               (ArcManager.new (ArcManager.arcs m)
                  (ArcManager.store m ++ [[ia]])) j).
      * simpl. lia.
      * exact H.
Qed.

Lemma settle_loop (arcs0 : list (Arc.t Q)) (idx : list nat) :
  forall m,
    arcs_inv arcs0 m ->
    Forall (fun i => (i < List.length arcs0)%nat) idx ->
    let m' := fold_left (fun m ia => settle ia m) idx m in
    arcs_inv arcs0 m'
    /\ (forall j, renderHead_at m' j = renderHead_at m j)
    /\ (forall j, In j idx \/ has_group m j -> has_group m' j).
Proof.
  induction idx as [|ia idx IH]; intros m Hinv Hall; simpl.
  - split; [exact Hinv|]. split; [reflexivity|]. intros j [[]|H]. exact H.
  - inversion Hall as [|? ? Ha Hrest]; subst.
    destruct (@settle_spec arcs0 ia m Hinv Ha) as (Hinv1 & Hrh1 & Hg1).
    destruct (IH _ Hinv1 Hrest) as (Hinv2 & Hrh2 & Hg2).
    split; [exact Hinv2|]. split.
    + intro j. rewrite Hrh2. apply Hrh1.
    + intros j [[<-|Hin]|H]; apply Hg2.
      * right. apply Hg1. left. reflexivity.
      * left. exact Hin.
      * right. apply Hg1. right. exact H.
Qed.

Lemma Arc_calculateJudgeTimings_keeps (fuel : nat)
    (timings : list (TimingEvent.t Q)) (a a' : Arc.t Q) :
  Arc_calculateJudgeTimings fuel timings a = Some (Ok a') ->
  exists l, a' = Arc_set_judgeTimings a l.
Proof.
  unfold Arc_calculateJudgeTimings. cbv zeta. intro H.
  repeat match type of H with
         | (if ?c then _ else _) = _ => destruct c
         | match ?c with _ => _ end = _ => destruct c
         end;
    try discriminate; injection H as <-; eexists; reflexivity.
Qed.

Lemma judge_all_keeps (fuel : nat) (timingsOf : nat -> list (TimingEvent.t Q))
    (arcs arcs' : list (Arc.t Q)) :
  judge_all fuel timingsOf arcs = Some (Ok arcs') ->
  Forall2 (fun a a' => exists l, a' = Arc_set_judgeTimings a l) arcs arcs'.
Proof.
  revert arcs'. induction arcs as [|a arcs IH]; intros arcs' H; simpl in H.
  - injection H as <-. constructor.
  - destruct (Arc_calculateJudgeTimings fuel (timingsOf (Arc.timingGroup a)) a)
      as [[a'|e]|] eqn:Ea; try discriminate.
    destruct (judge_all fuel timingsOf arcs) as [[l|e]|]; try discriminate.
    injection H as <-. constructor.
    + apply (@Arc_calculateJudgeTimings_keeps _ _ _ _ Ea).
    + apply IH. reflexivity.
Qed.
Lemma Forall2_nth_error {A B : Type} (R : A -> B -> Prop) (l : list A)
    (l' : list B) (i : nat) (a : A) :
  Forall2 R l l' -> nth_error l i = Some a ->
  exists a', nth_error l' i = Some a' /\ R a a'.
Proof.
  intro H. revert i. induction H as [|x y l l' Hxy H IH]; intros [|i] Hi;
    simpl in *; try discriminate.
  - injection Hi as <-. exists y. auto.
  - apply IH. exact Hi.
Qed.

Lemma hides_iff (arcs : list (Arc.t Q)) (ia ib : nat) (b : Arc.t Q) :
  nth_error arcs ib = Some b ->
  hides arcs ia ib = true
  <-> exists a, ia <> ib /\ nth_error arcs ia = Some a
                /\ arcs_touch a b = true /\ Arc.isVoid a = Arc.isVoid b.
Proof.
  intro Hb. unfold hides. rewrite Hb. split.
  - intro H. apply andb_true_iff in H. destruct H as [Hne H].
    apply negb_true_iff, Nat.eqb_neq in Hne.
    destruct (nth_error arcs ia) as [a|]; [|discriminate].
    apply andb_true_iff in H. destruct H as [Ht Hv].
    apply eqb_prop in Hv. exists a. auto.
  - intros (a & Hne & -> & Ht & Hv). apply andb_true_iff. split.
    + apply negb_true_iff, Nat.eqb_neq. exact Hne.
    + rewrite Ht, Hv. simpl. apply eqb_reflx.
Qed.

(** X28.  What [calculateArcRelationship] leaves when it returns, for arcs
    with times in whole milliseconds where the end of an arc and the start
    of an arc are never between 0.099 and 0.101 apart horizontally: every
    arc keeps its place and its own data, points at a
    group array that is not empty and holds arcs of the manager only, and
    has its head hidden exactly when another arc of the same kind (void or
    not) ends where it starts. *)
Theorem calculateArcRelationship_groups_and_heads (fuel : nat)
    (timingsOf : nat -> list (TimingEvent.t Q)) (arcs : list (Arc.t Q))
    (m : ArcManager.t) :
  ArcManager_calculateArcRelationship fuel timingsOf arcs = Some (Ok m) ->
  clear_arcs arcs = true ->
  forall ib b, nth_error arcs ib = Some b ->
    exists b' array,
      nth_error (ArcManager.arcs m) ib = Some b'
      /\ Arc_shape b' = Arc_shape b
      /\ arcGroup_of m ib = Some array
      /\ array <> []
      /\ Forall (fun i => (i < List.length arcs)%nat) array
      /\ (Arc.renderHead b' = false
          <-> exists ia a,
                ia <> ib /\ nth_error arcs ia = Some a
                /\ arcs_touch a b = true /\ Arc.isVoid a = Arc.isVoid b).
Proof.
  unfold ArcManager_calculateArcRelationship. cbv zeta.
  set (n := List.length arcs). set (idx := seq 0 n).
  set (m0 := ArcManager.new
               (map (fun a => Arc_set_renderHead true (Arc_set_arcGroup None a))
                    arcs) []).
  rewrite fold_pairs.
  set (m1 := fold_left (fun m p => relate (fst p) (snd p) m)
                       (list_prod idx idx) m0).
  set (m2 := fold_left (fun m ia => settle ia m) idx m1).
  intros Hret _ ib b Hb.
  assert (Hib : (ib < n)%nat).
  { apply nth_error_Some. rewrite Hb. discriminate. }
  assert (Hinv0 : arcs_inv arcs m0).
  { split; [|split]; simpl.
    - rewrite map_map. apply map_ext. intro a. destruct a. reflexivity.
    - apply Forall_forall. intros a Ha. apply in_map_iff in Ha.
      destruct Ha as (a0 & <- & _). destruct a0. exact I.
    - constructor. }
  assert (Hidx : Forall (fun i => (i < n)%nat) idx).
  { apply Forall_forall. intros i Hi. apply in_seq in Hi. lia. }
  assert (Hpairs : Forall (fun p => (fst p < n)%nat /\ (snd p < n)%nat)
                          (list_prod idx idx)).
  { apply Forall_forall. intros [i j] Hp. apply in_prod_iff in Hp.
    destruct Hp as [Hi Hj]. apply in_seq in Hi, Hj. simpl. lia. }
  destruct (@pairing_loop arcs (list_prod idx idx) m0 Hinv0 Hpairs)
    as [Hinv1 Hrh1].
  fold m1 in Hinv1, Hrh1.
  destruct (@settle_loop arcs idx m1 Hinv1 Hidx) as (Hinv2 & Hrh2 & Hg2).
  fold m2 in Hinv2, Hrh2, Hg2.
  destruct (judge_all fuel timingsOf (ArcManager.arcs m2))
    as [[arcs'|e]|] eqn:Ej; try discriminate.
  injection Hret as <-. simpl ArcManager.arcs.
  apply judge_all_keeps in Ej.
  destruct (Hg2 ib) as (b2 & g & Eb2 & Gb2).
  { left. apply in_seq. lia. }
  destruct (@Forall2_nth_error _ _ _ _ _ ib b2 Ej Eb2) as (b' & Eb' & l & ->).
  pose proof (@arcGroup_in_store arcs m2 ib g b2 Hinv2 Eb2 Gb2) as Hg.
  destruct (nth_error (ArcManager.store m2) g) as [array|] eqn:Earr;
    [|apply nth_error_None in Earr; lia].
  destruct Hinv2 as (Hshape2 & _ & Hstore2).
  assert (Harr : array_ok n array).
  { rewrite Forall_forall in Hstore2. apply Hstore2.
    apply (nth_error_In _ _ Earr). }
  exists (Arc_set_judgeTimings b2 l), array.
  split; [exact Eb'|]. split; [|split; [|split; [|split]]].
  - rewrite Arc_shape_set_judgeTimings.
    pose proof (@map_nth_error_eq _ _ Arc_shape _ _ ib Hshape2) as H.
    rewrite Eb2, Hb in H. simpl in H. congruence.
  - unfold arcGroup_of. simpl ArcManager.arcs. rewrite Eb'.
    destruct b2; simpl in *. rewrite Gb2. exact Earr.
  - apply Harr.
  - apply Harr.
  - assert (Hr : Arc.renderHead (Arc_set_judgeTimings b2 l)
                 = Arc.renderHead b2) by (destruct b2; reflexivity).
    rewrite Hr.
    specialize (Hrh2 ib). rewrite Hrh1 in Hrh2.
    unfold renderHead_at at 1 in Hrh2. rewrite Eb2 in Hrh2. simpl in Hrh2.
    assert (H0 : renderHead_at m0 ib = Some true).
    { unfold renderHead_at, m0. simpl. rewrite nth_error_map, Hb.
      destruct b; reflexivity. }
    rewrite H0 in Hrh2.
    destruct (existsb (fun p => Nat.eqb ib (snd p)
                                && hides arcs (fst p) (snd p))
                      (list_prod idx idx)) eqn:Ex.
    + simpl in Hrh2. injection Hrh2 as ->. split; [|reflexivity]. intros _.
      apply existsb_exists in Ex. destruct Ex as ([ia jb] & _ & Hp).
      simpl in Hp. apply andb_true_iff in Hp. destruct Hp as [Hj Hh].
      apply Nat.eqb_eq in Hj. subst jb.
      apply (@hides_iff arcs ia ib b Hb) in Hh. destruct Hh as (a & Hh).
      exists ia, a. exact Hh.
    + injection Hrh2 as ->. split; [discriminate|].
      intros (ia & a & Hne & Ea & Ht & Hv). exfalso.
      assert (Hia : (ia < n)%nat).
      { apply nth_error_Some. rewrite Ea. discriminate. }
      assert (Ex' : existsb (fun p => Nat.eqb ib (snd p)
                                      && hides arcs (fst p) (snd p))
                            (list_prod idx idx) = true).
      { apply existsb_exists. exists (ia, ib). split.
        - apply in_prod_iff. split; apply in_seq; lia.
        - simpl. rewrite Nat.eqb_refl. simpl.
          apply (@hides_iff arcs ia ib b Hb). exists a. auto. }
      congruence.
Qed.
Lemma calculateArcRelationship_groups_and_heads_witness :
  exists b' array,
    nth_error (ArcManager.arcs chain_manager) 1 = Some b'
    /\ Arc_shape b' = Arc_shape (arc 2000 3000 1 (1 # 2))
    /\ arcGroup_of chain_manager 1 = Some array
    /\ array <> []
    /\ Forall (fun i => (i < List.length chain_out_of_order)%nat) array
    /\ (Arc.renderHead b' = false
        <-> exists ia a,
              ia <> 1%nat /\ nth_error chain_out_of_order ia = Some a
              /\ arcs_touch a (arc 2000 3000 1 (1 # 2)) = true
              /\ Arc.isVoid a = Arc.isVoid (arc 2000 3000 1 (1 # 2))).
Proof.
  apply (@calculateArcRelationship_groups_and_heads 8 (fun _ => steady_group)
           chain_out_of_order chain_manager).
  - vm_compute. reflexivity.
  - vm_compute. reflexivity.
  - reflexivity.
Defined.

(** ** Chart.fromRaw: the groups *)

Lemma push_event_groups (g : nat) (e : ArcaeaEvent number)
    (groups : list (TimingGroup.t number)) :
  map (@TimingGroup.isPrimary number) (push_event g e groups)
  = map (@TimingGroup.isPrimary number) groups.
Proof.
  unfold push_event. apply update_nth_map. intro t. reflexivity.
Qed.

Lemma Chart_fromRaw_lines_groups (lines : list string) :
  forall (st st' : Chart.t * nat) (i : nat),
    Chart_fromRaw_lines st i lines = Ok st' ->
    map (@TimingGroup.isPrimary number) (Chart.timingGroups (fst st'))
    = (map (@TimingGroup.isPrimary number) (Chart.timingGroups (fst st))
       ++ repeat false
            (List.length (filter (startsWith "timinggroup(")
                                 (skipn (2 - i) lines))))%list.
Proof.
  induction lines as [|line lines IH]; intros st st' i H.
  - simpl in H. injection H as <-. destruct (2 - i)%nat; simpl;
      rewrite app_nil_r; reflexivity.
  - cbn [Chart_fromRaw_lines] in H.
    destruct (Chart_fromRaw_line st i line) as [st1|e] eqn:E1;
      [|discriminate].
    simpl bind in H. apply IH in H. rewrite H. clear H IH.
    destruct st as [chart targetGroup].
    destruct i as [|[|i]].
    + simpl in E1.
      destruct (re_match AudioOffset_regex (trim line)); [|discriminate].
      injection E1 as <-. reflexivity.
    + simpl in E1. destruct (negb _); [discriminate|].
      injection E1 as <-. reflexivity.
    + replace (2 - S (S i))%nat with O by lia.
      replace (2 - S (S (S i)))%nat with O by lia.
      cbn [skipn filter].
      cbn [Chart_fromRaw_line] in E1.
      destruct (startsWith "timinggroup(" line) eqn:Eo.
      * injection E1 as <-. cbn [fst Chart.timingGroups].
        rewrite map_app. cbn [List.length repeat map TimingGroup.isPrimary].
        rewrite <- app_assoc. reflexivity.
      * destruct (startsWith "};" line).
        -- injection E1 as <-. reflexivity.
        -- destruct (ArcaeaEvent_fromRaw (trim line) targetGroup) as [[e|]|ex];
             simpl in E1; try discriminate; injection E1 as <-;
             cbn [fst Chart.timingGroups]; [|reflexivity].
           rewrite push_event_groups. reflexivity.
Qed.

(** X29.  The groups of a parsed chart.  When [Chart.fromRaw] returns, the
    chart holds the primary group first and after it one group that is not
    primary for each line, from the third on, that starts with
    [timinggroup(]. *)
Theorem fromRaw_groups (raw : string) (chart : Chart.t) :
  Chart_fromRaw raw = Ok chart ->
  let openers :=
    filter (startsWith "timinggroup(") (skipn 2 (split "010" raw)) in
  map (@TimingGroup.isPrimary number) (Chart.timingGroups chart)
  = true :: repeat false (List.length openers)
  /\ List.length (Chart.timingGroups chart) = S (List.length openers).
Proof.
  unfold Chart_fromRaw. cbv zeta. intro H.
  destruct (Chart_fromRaw_lines _ 0 (split "010" raw)) as [st|e] eqn:E;
    [|discriminate].
  simpl in H. injection H as <-.
  apply Chart_fromRaw_lines_groups in E. simpl in E.
  split; [exact E|].
  apply (f_equal (@List.length _)) in E.
  rewrite length_map in E. rewrite E. simpl. rewrite repeat_length.
  reflexivity.
Qed.

Lemma fromRaw_groups_witness :
  map (@TimingGroup.isPrimary number) (Chart.timingGroups grouped_chart)
  = [true; false; false]
  /\ List.length (Chart.timingGroups grouped_chart) = 3%nat.
Proof.
  apply (@fromRaw_groups grouped grouped_chart). vm_compute. reflexivity.
Defined.

(** X24.  Taps and arc taps under autoplay, with [at] the note's time
    shifted by the audio offset.  After [judgeTapNotes] a tap is not
    judged while the clock is before [at], is judged once the clock is
    after it, and keeps its flag when the clock is exactly on it.  After
    [judgeArcTaps] an arc tap is not judged while the clock is before
    [at], is judged while the clock is within 150 ms after it, and
    otherwise keeps its flag: an arc tap whose 150 ms have gone by
    unjudged stays unjudged. *)
Theorem taps_judged_by_time (gm : GameplayManager.t) (t : TapNote.t Q)
    (a : ArctapNote.t Q) (judged : bool) :
  let now := inject_Z (GameplayManager.timing gm) in
  let at_ := TapNote.time t + GameplayManager.offset gm in
  let at' := ArctapNote.time a + GameplayManager.offset gm in
  ((now < at_ -> TapNote_judge gm t judged = false)
   /\ (at_ < now -> TapNote_judge gm t judged = true)
   /\ (now == at_ -> TapNote_judge gm t judged = judged))
  /\ ((now < at' -> ArctapNote_judge gm a judged = false)
      /\ (at' < now <= at' + 150 -> ArctapNote_judge gm a judged = true)
      /\ (now == at' \/ at' + 150 < now ->
          ArctapNote_judge gm a judged = judged)).
Proof.
  intros now at_ at'. split.
  - apply TapNote_judge_by_time.
  - apply ArctapNote_judge_by_time.
Qed.

(** X18.  [Utils.clamp] and [Utils.lerp].  With [a <= b],
    [clamp(t, a, b)] lies between [a] and [b], is [t] itself when [t]
    already does, and is the nearer bound when not.  [lerp(a, b, t)] is
    [a] for [t <= 0], is for [t >= 1] what it is at 1, and moves with [t]
    in the direction from [a] to [b], never against it. *)
Theorem clamp_and_lerp (a b t t' : Q) :
  (a <= b ->
   a <= Utils_clamp t a b <= b
   /\ (a <= t <= b -> Utils_clamp t a b == t)
   /\ (t <= a -> Utils_clamp t a b == a)
   /\ (b <= t -> Utils_clamp t a b == b))
  /\ (t <= 0 -> Utils_lerp a b t == a)
  /\ (1 <= t -> Utils_lerp a b t == Utils_lerp a b 1)
  /\ (a <= b -> t <= t' -> Utils_lerp a b t <= Utils_lerp a b t')
  /\ (b <= a -> t <= t' -> Utils_lerp a b t' <= Utils_lerp a b t).
Proof.
  split.
  - apply clamp_in_range.
  - apply lerp_by_parameter.
Qed.

(** X13.  The judge timings lie within the note.  Whenever
    [Arc.calculateJudgeTimings] or [HoldNote.calculateJudgeTimings]
    returns, for a note that ends after it starts, only [judgeTimings] has
    changed, every judge timing is at or after the floor of the note's time
    and strictly before its end, and, if the tempo at the note's time is at
    most 60000, the judge timings are strictly increasing. *)
Theorem judge_timings_in_range (fuel : nat) (timings : list (TimingEvent.t Q))
    (a a' : Arc.t Q) (h h' : HoldNote.t Q) :
  (Arc_calculateJudgeTimings fuel timings a = Some (Ok a') ->
   Arc.time a < Arc.endTime a ->
   a' = Arc_set_judgeTimings a (Arc.judgeTimings a')
   /\ Forall (fun t => (Qfloor (Arc.time a) <= t)%Z
                       /\ inject_Z t < Arc.endTime a)
             (Arc.judgeTimings a')
   /\ ((forall bpm,
          TimingGroup_getBpmByTiming timings (Arc.time a) = Ok bpm ->
          bpm <= 60000) ->
       StronglySorted Z.lt (Arc.judgeTimings a')))
  /\ (HoldNote_calculateJudgeTimings fuel timings h = Some (Ok h') ->
      HoldNote.time h < HoldNote.endTime h ->
      h' = HoldNote_set_judgeTimings h (HoldNote.judgeTimings h')
      /\ Forall (fun t => (Qfloor (HoldNote.time h) <= t)%Z
                          /\ inject_Z t < HoldNote.endTime h)
                (HoldNote.judgeTimings h')
      /\ ((forall bpm,
             TimingGroup_getBpmByTiming timings (HoldNote.time h) = Ok bpm ->
             bpm <= 60000) ->
          StronglySorted Z.lt (HoldNote.judgeTimings h'))).
Proof.
  split.
  - apply Arc_judge_timings_in_range.
  - apply HoldNote_judge_timings_in_range.
Qed.

Lemma judge_timings_in_range_witness :
  Forall (fun t => (0 <= t)%Z /\ inject_Z t < 1000) [250; 500; 750]%Z
  /\ StronglySorted Z.lt [250; 500; 750]%Z.
Proof.
  destruct (@judge_timings_in_range 4 steady_group one_second_arc
              (Arc_set_judgeTimings one_second_arc [250; 500; 750]%Z)
              long_hold
              (HoldNote_set_judgeTimings long_hold [250; 500; 750]%Z))
    as [Ha Hh].
  destruct (Ha eq_refl eq_refl) as (_ & H & _).
  destruct (Hh eq_refl eq_refl) as (_ & _ & H').
  split; [exact H|]. apply H'.
  intros bpm E. vm_compute in E. injection E as <-. discriminate.
Defined.

(** ** Notes: printing and reading back *)

Lemma string_of_uint_digits (d : Decimal.uint) :
  all_chars is_digit (NilEmpty.string_of_uint d) = true.
Proof.
  induction d; cbn [NilEmpty.string_of_uint all_chars];
    try rewrite IHd; reflexivity.
Qed.

Lemma digits_value_of_uint (d : Decimal.uint) :
  forall (acc : Z) (d' : Decimal.uint),
    Z.of_N (DecimalPos.Unsigned.of_lu d') = acc ->
    digits_value 10 (NilEmpty.string_of_uint d) acc
    = Z.of_N (DecimalPos.Unsigned.of_lu (Decimal.revapp d d')).
Proof.
  induction d; intros acc d' H; simpl;
    try (apply IHd; cbn [DecimalPos.Unsigned.of_lu]; lia).
  symmetry. exact H.
Qed.

Lemma to_uint_not_nil (n : N) : N.to_uint n <> Decimal.Nil.
Proof.
  destruct n as [|p]; [discriminate|]. simpl.
  apply DecimalPos.Unsigned.to_uint_nonnil.
Qed.

Lemma digits_unfold (a : Z) :
  digits a = NilEmpty.string_of_uint (N.to_uint (Z.to_N a)).
Proof.
  unfold digits. pose proof (to_uint_not_nil (Z.to_N a)) as H.
  destruct (N.to_uint (Z.to_N a)); [congruence | reflexivity..].
Qed.

Lemma digits_value_digits (a : Z) :
  (0 <= a)%Z -> digits_value 10 (digits a) 0 = a.
Proof.
  intro Ha. rewrite digits_unfold.
  rewrite (@digits_value_of_uint _ 0%Z Decimal.Nil eq_refl).
  change (Decimal.revapp ?d Decimal.Nil) with (Decimal.rev d).
  rewrite <- DecimalPos.Unsigned.of_uint_alt.
  change (Pos.of_uint ?d) with (N.of_uint d).
  rewrite DecimalN.Unsigned.of_to. apply Z2N.id. exact Ha.
Qed.

Lemma digits_all_digits (a : Z) : all_chars is_digit (digits a) = true.
Proof. rewrite digits_unfold. apply string_of_uint_digits. Qed.

Lemma digits_not_empty (a : Z) : digits a <> "".
Proof.
  rewrite digits_unfold. pose proof (to_uint_not_nil (Z.to_N a)) as H.
  destruct (N.to_uint (Z.to_N a)); try discriminate. congruence.
Qed.
Lemma digit_cases (c : ascii) :
  is_digit c = true ->
  c = "0"%char \/ c = "1"%char \/ c = "2"%char \/ c = "3"%char
  \/ c = "4"%char \/ c = "5"%char \/ c = "6"%char \/ c = "7"%char
  \/ c = "8"%char \/ c = "9"%char.
Proof.
  destruct c as [[] [] [] [] [] [] [] []]; intro H; try discriminate H; tauto.
Qed.

Lemma take_while_all (p : ascii -> bool) (s : string) :
  all_chars p s = true -> take_while p s = (s, "").
Proof.
  induction s as [|c s IH]; simpl; intro H; [reflexivity|].
  apply andb_true_iff in H. destruct H as [Hc Hs].
  rewrite Hc, (IH Hs). reflexivity.
Qed.

(** [parseInt] on a run of decimal digits. *)
Lemma parseInt_digits (s : string) :
  s <> "" -> all_chars is_digit s = true ->
  parseInt s = Dec (digits_value 10 s 0) 0.
Proof.
  intros Hne Hall. destruct s as [|c s]; [congruence|]. clear Hne.
  simpl in Hall. apply andb_true_iff in Hall. destruct Hall as [Hc Hs].
  unfold parseInt.
  assert (Ht : trimStart (String c s) = String c s).
  { destruct (digit_cases c Hc) as [->|[->|[->|[->|[->|[->|[->|[->|[->| ->]]]]]]]]];
      reflexivity. }
  rewrite Ht.
  assert (Hsign : take_sign (String c s) = (false, String c s)).
  { destruct (digit_cases c Hc) as [->|[->|[->|[->|[->|[->|[->|[->|[->| ->]]]]]]]]];
      reflexivity. }
  rewrite Hsign.
  assert (Hradix :
            match String c s with
            | String "0" (String "x" s') | String "0" (String "X" s') =>
                (16%Z, s', is_hex)
            | _ => (10%Z, String c s, is_digit)
            end = (10%Z, String c s, is_digit)).
  { destruct (digit_cases c Hc) as [->|[->|[->|[->|[->|[->|[->|[->|[->| ->]]]]]]]]];
      try reflexivity.
    destruct s as [|c' s']; [reflexivity|].
    simpl in Hs. apply andb_true_iff in Hs. destruct Hs as [Hc' _].
    destruct (digit_cases c' Hc')
      as [->|[->|[->|[->|[->|[->|[->|[->|[->| ->]]]]]]]]]; reflexivity. }
  rewrite Hradix.
  rewrite take_while_all by (simpl; rewrite Hc, Hs; reflexivity).
  reflexivity.
Qed.

(** An integer of at most 21 digits prints as its digits. *)
(** The digits of a number below [10^21] are at most 21. *)
Lemma string_of_uint_length (d : Decimal.uint) :
  String.length (NilEmpty.string_of_uint d) = Decimal.nb_digits d.
Proof. induction d; simpl; congruence. Qed.

Lemma digits_value_at_least (d : Decimal.uint) :
  forall acc : Z,
    (0 <= acc)%Z ->
    (acc * 10 ^ Z.of_nat (Decimal.nb_digits d)
     <= digits_value 10 (NilEmpty.string_of_uint d) acc)%Z.
Proof.
  induction d; intros acc Hacc;
    cbn [NilEmpty.string_of_uint Decimal.nb_digits digits_value];
    [simpl; lia | ..];
    match goal with
    | |- context [hex_value ?c] =>
        let v := eval vm_compute in (hex_value c) in
        change (hex_value c) with v
    end; cbv iota;
    rewrite Nat2Z.inj_succ, Z.pow_succ_r by lia;
    (eapply Z.le_trans; [|apply IHd; lia]);
    assert (0 < 10 ^ Z.of_nat (Decimal.nb_digits d))%Z
      by (apply Z.pow_pos_nonneg; lia);
    nia.
Qed.

Lemma to_uint_leading (p : positive) :
  exists d, (Pos.to_uint p = Decimal.D1 d \/ Pos.to_uint p = Decimal.D2 d
             \/ Pos.to_uint p = Decimal.D3 d \/ Pos.to_uint p = Decimal.D4 d
             \/ Pos.to_uint p = Decimal.D5 d \/ Pos.to_uint p = Decimal.D6 d
             \/ Pos.to_uint p = Decimal.D7 d \/ Pos.to_uint p = Decimal.D8 d
             \/ Pos.to_uint p = Decimal.D9 d).
Proof.
  pose proof (DecimalPos.Unsigned.to_of (Pos.to_uint p)) as H.
  rewrite DecimalPos.Unsigned.of_to in H. simpl in H.
  pose proof (DecimalPos.Unsigned.to_uint_nonzero p) as Hz.
  assert (Hn : Decimal.nzhead (Pos.to_uint p) <> Decimal.Nil).
  { intro E. apply Hz. rewrite H. apply DecimalFacts.unorm_0. exact E. }
  rewrite (DecimalFacts.unorm_nzhead _ Hn) in H.
  pose proof (DecimalFacts.nzhead_nonzero (Pos.to_uint p)) as H0.
  rewrite <- H in H0, Hn.
  destruct (Pos.to_uint p) as [|d|d|d|d|d|d|d|d|d|d];
    [congruence | exfalso; apply (H0 d); reflexivity | exists d; tauto ..].
Qed.

Lemma digits_length (a : Z) :
  (0 <= a < 10 ^ 21)%Z -> (String.length (digits a) <= 21)%nat.
Proof.
  intros [Ha Hb].
  pose proof (digits_value_digits Ha) as Hv.
  rewrite digits_unfold in *.
  destruct (Z.to_N a) as [|p] eqn:E; [simpl; lia|].
  cbn [N.to_uint] in *.
  destruct (to_uint_leading p) as (d & Hd).
  assert (Hlow : (10 ^ Z.of_nat (Decimal.nb_digits d) <= a)%Z).
  { assert (H1 : forall k, (1 <= k)%Z ->
                  digits_value 10 (NilEmpty.string_of_uint d) k = a ->
                  (10 ^ Z.of_nat (Decimal.nb_digits d) <= a)%Z).
    { intros k Hk Ek. rewrite <- Ek.
      eapply Z.le_trans; [|apply digits_value_at_least; lia].
      assert (0 < 10 ^ Z.of_nat (Decimal.nb_digits d))%Z
        by (apply Z.pow_pos_nonneg; lia).
      nia. }
    destruct Hd as [Hd|[Hd|[Hd|[Hd|[Hd|[Hd|[Hd|[Hd|Hd]]]]]]]];
      rewrite Hd in Hv; cbn in Hv; refine (H1 _ _ Hv); vm_compute; discriminate. }
  assert (Hlen : String.length (NilEmpty.string_of_uint (Pos.to_uint p))
                 = S (Decimal.nb_digits d)).
  { destruct Hd as [Hd|[Hd|[Hd|[Hd|[Hd|[Hd|[Hd|[Hd|Hd]]]]]]]];
      rewrite Hd; simpl; rewrite string_of_uint_length; reflexivity. }
  rewrite Hlen.
  destruct (Nat.le_gt_cases (S (Decimal.nb_digits d)) 21) as [H|H];
    [exact H|exfalso].
  assert (10 ^ 21 <= 10 ^ Z.of_nat (Decimal.nb_digits d))%Z
    by (apply Z.pow_le_mono_r; lia).
  lia.
Qed.

Lemma Number_toString_digits (a : Z) :
  (0 <= a)%Z -> (String.length (digits a) <= 21)%nat ->
  Number_toString (Dec a 0) = digits a.
Proof.
  intros Ha Hlen. unfold Number_toString. cbn [mk_dec].
  destruct (a =? 0)%Z eqn:E0.
  - apply Z.eqb_eq in E0. subst a. reflexivity.
  - assert (Hneg : (a <? 0)%Z = false) by (apply Z.ltb_ge; exact Ha).
    rewrite Hneg. rewrite Z.abs_eq by exact Ha. cbn [Nat.eqb].
    assert (Hn : (Z.of_nat (String.length (digits a)) - Z.of_nat 0 <=? 21)%Z
                 = true) by (apply Z.leb_le; lia).
    rewrite Hn. reflexivity.
Qed.

(** An integer of at most 21 digits is read back from its print. *)
Lemma parseInt_toString (a : Z) :
  (0 <= a)%Z -> (String.length (digits a) <= 21)%nat ->
  parseInt (Number_toString (Dec a 0)) = Dec a 0.
Proof.
  intros Ha Hlen. rewrite Number_toString_digits by assumption.
  rewrite parseInt_digits.
  - rewrite digits_value_digits by exact Ha. reflexivity.
  - apply digits_not_empty.
  - apply digits_all_digits.
Qed.
Lemma substring_all (s : string) : String.substring 0 (String.length s) s = s.
Proof. induction s as [|c s IH]; simpl; [reflexivity|]. rewrite IH. reflexivity. Qed.

Lemma captured_prefix (a rest : string) :
  String.substring 0 (String.length (a ++ rest) - String.length rest) (a ++ rest)
  = a.
Proof.
  induction a as [|c a IH].
  - simpl. rewrite Nat.sub_diag. destruct rest; reflexivity.
  - cbn [append String.length].
    assert (H : (String.length rest <= String.length (a ++ rest))%nat).
    { clear. induction a as [|c a IH]; simpl; lia. }
    rewrite Nat.sub_succ_l by exact H. simpl. rewrite IH. reflexivity.
Qed.

Lemma re_lit_char (c : ascii) (s : string) (caps : captures) (k : cont) :
  re_lit (String c "") (String c s) caps k = k s caps.
Proof.
  unfold re_lit. simpl.
  destruct (ascii_dec c c) as [_|H]; [|congruence].
  assert (Hp : String.prefix "" s = true) by (destruct s; reflexivity).
  rewrite Hp. rewrite Nat.sub_0_r. rewrite substring_all. reflexivity.
Qed.

Lemma re_lit_other (c0 c : ascii) (l s : string) (caps : captures) (k : cont) :
  c <> c0 -> re_lit (String c0 l) (String c s) caps k = None.
Proof.
  intro H. unfold re_lit. simpl.
  destruct (ascii_dec c0 c) as [E|_]; [congruence | reflexivity].
Qed.

(** A lazy run stops at the first place where what follows matches; it
    is not tried inside a run of characters that what follows cannot start
    with. *)
Lemma re_star_lazy_run (cls : ascii -> bool) (c0 : ascii) (a rest : string)
    (caps : captures) (k : cont) (r : captures) :
  all_chars (fun c => cls c && negb (Ascii.eqb c c0)) a = true ->
  (forall c s caps', c <> c0 -> k (String c s) caps' = None) ->
  k rest caps = Some r ->
  re_star_lazy cls (a ++ rest) caps k = Some r.
Proof.
  intros Ha Hk Hrest. induction a as [|c a IH].
  - simpl. destruct rest; simpl; rewrite Hrest; reflexivity.
  - simpl in Ha. apply andb_true_iff in Ha. destruct Ha as [Hc Ha].
    apply andb_true_iff in Hc. destruct Hc as [Hcls Hne].
    apply negb_true_iff, Ascii.eqb_neq in Hne.
    cbn [append re_star_lazy]. rewrite (Hk c _ caps Hne). rewrite Hcls.
    apply IH. exact Ha.
Qed.

Lemma any_lazy_run (c0 : ascii) (a rest : string) (caps : captures)
    (k : cont) (r : captures) :
  all_chars (fun c => is_dot c && negb (Ascii.eqb c c0)) a = true ->
  (forall c s caps', c <> c0 -> k (String c s) caps' = None) ->
  k rest (caps ++ [Some a])%list = Some r ->
  any_lazy (a ++ rest) caps k = Some r.
Proof.
  intros Ha Hk Hrest. unfold any_lazy, re_group.
  apply (@re_star_lazy_run is_dot c0 a rest caps _ r Ha).
  - intros c s caps' Hne. apply Hk. exact Hne.
  - rewrite captured_prefix. exact Hrest.
Qed.

Lemma digits_between (c0 : ascii) (s : string) :
  is_digit c0 = false -> all_chars is_digit s = true ->
  all_chars (fun c => is_dot c && negb (Ascii.eqb c c0)) s = true.
Proof.
  intros H0. induction s as [|c s IH]; simpl; intro H; [reflexivity|].
  apply andb_true_iff in H. destruct H as [Hc Hs]. rewrite (IH Hs).
  rewrite andb_true_r. apply andb_true_iff. split.
  - destruct (digit_cases c Hc) as [->|[->|[->|[->|[->|[->|[->|[->|[->| ->]]]]]]]]];
      reflexivity.
  - apply negb_true_iff, Ascii.eqb_neq. intros ->. congruence.
Qed.

Lemma re_match_here (r : regex) (s : string) (caps : captures) :
  r s [] (fun _ caps => Some caps) = Some caps -> re_match r s = Some caps.
Proof. intro H. destruct s; simpl; rewrite H; reflexivity. Qed.

(** A tap line with two runs of digits matches with these as its groups. *)
Lemma TapNote_regex_digits (a b : string) :
  all_chars is_digit a = true -> all_chars is_digit b = true ->
  re_match TapNote_regex ("(" ++ a ++ "," ++ b ++ ");")
  = Some [Some a; Some b].
Proof.
  intros Ha Hb. apply re_match_here. unfold TapNote_regex, re_seq, comma_then.
  cbv beta. unfold re_seq. cbn [append]. rewrite (@re_lit_char "("%char).
  apply (@any_lazy_run ","%char a); [apply digits_between; auto | |].
  { intros c s caps' Hne. apply re_lit_other. exact Hne. }
  cbv beta. unfold re_seq. cbn [append]. rewrite (@re_lit_char ","%char).
  apply (@any_lazy_run ")"%char b); [apply digits_between; auto | |].
  { intros c s caps' Hne. apply re_lit_other. exact Hne. }
  cbv beta. unfold re_seq. cbn [append]. rewrite (@re_lit_char ")"%char). reflexivity.
Qed.

(** A hold line with three runs of digits. *)
Lemma HoldNote_regex_digits (a b c : string) :
  all_chars is_digit a = true -> all_chars is_digit b = true ->
  all_chars is_digit c = true ->
  re_match HoldNote_regex ("hold(" ++ a ++ "," ++ b ++ "," ++ c ++ ");")
  = Some [Some a; Some b; Some c].
Proof.
  intros Ha Hb Hc. apply re_match_here.
  unfold HoldNote_regex, re_seq, comma_then.
  assert (Hlit : forall s caps k, re_lit "hold(" ("hold(" ++ s) caps k = k s caps).
  { intros s caps k. unfold re_lit. simpl.
    assert (Hp : String.prefix "" s = true) by (destruct s; reflexivity).
    rewrite Hp. rewrite Nat.sub_0_r. rewrite substring_all. reflexivity. }
  rewrite Hlit.
  apply (@any_lazy_run ","%char a); [apply digits_between; auto | |].
  { intros c' s caps' Hne. apply re_lit_other. exact Hne. }
  cbv beta. unfold re_seq. cbn [append]. rewrite (@re_lit_char ","%char).
  apply (@any_lazy_run ","%char b); [apply digits_between; auto | |].
  { intros c' s caps' Hne. apply re_lit_other. exact Hne. }
  cbv beta. unfold re_seq. cbn [append]. rewrite (@re_lit_char ","%char).
  apply (@any_lazy_run ")"%char c); [apply digits_between; auto | |].
  { intros c' s caps' Hne. apply re_lit_other. exact Hne. }
  cbv beta. unfold re_seq. cbn [append]. rewrite (@re_lit_char ")"%char). reflexivity.
Qed.
Lemma number_add_integers (a o : Z) :
  number_add (Dec a 0) (Dec o 0) = Dec (a + o) 0.
Proof.
  unfold number_add. cbn [Nat.max Nat.sub mk_dec Z.of_nat].
  rewrite Z.pow_0_r, !Z.mul_1_r. reflexivity.
Qed.

(** X30.  Taps and holds are read back from what is printed for them.
    For whole times, offset and lane of at most 2^53 in size, with the
    times moved by the offset and the lane not negative,
    [export(offset)] gives a line from which [ArcaeaEvent.fromRaw] builds
    the same note in the same group, its times moved by the offset and,
    for a hold, without judge timings. *)
Theorem notes_read_back (g : nat) (time endTime lane offset : Z)
    (judgeTimings : list Z) :
  (Z.abs time <= 2 ^ 53)%Z -> (Z.abs endTime <= 2 ^ 53)%Z ->
  (Z.abs offset <= 2 ^ 53)%Z ->
  (0 <= time + offset <= 2 ^ 53)%Z ->
  (0 <= endTime + offset <= 2 ^ 53)%Z ->
  (0 <= lane <= 2 ^ 53)%Z ->
  (exists line,
     ArcaeaEvent_export (EvTap (TapNote.new g (Dec time 0) (Dec lane 0)))
                        (Dec offset 0) = Ok line
     /\ ArcaeaEvent_fromRaw line g
        = Ok (Some (EvTap (TapNote.new g (Dec (time + offset) 0)
                                       (Dec lane 0)))))
  /\ (exists line,
        ArcaeaEvent_export
          (EvHold (HoldNote.new g (Dec time 0) (Dec endTime 0) (Dec lane 0)
                                judgeTimings))
          (Dec offset 0) = Ok line
        /\ ArcaeaEvent_fromRaw line g
           = Ok (Some (EvHold (HoldNote.new g (Dec (time + offset) 0)
                                            (Dec (endTime + offset) 0)
                                            (Dec lane 0) [])))).
Proof.
  intros _ _ _ [Ht Bt] [He Be] [Hl Bl].
  assert (B : (2 ^ 53 < 10 ^ 21)%Z) by reflexivity.
  assert (Lt : (String.length (digits (time + offset)) <= 21)%nat)
    by (apply digits_length; split; [exact Ht | exact (Z.le_lt_trans _ _ _ Bt B)]).
  assert (Le : (String.length (digits (endTime + offset)) <= 21)%nat)
    by (apply digits_length; split; [exact He | exact (Z.le_lt_trans _ _ _ Be B)]).
  assert (Ll : (String.length (digits lane) <= 21)%nat)
    by (apply digits_length; split; [exact Hl | exact (Z.le_lt_trans _ _ _ Bl B)]).
  pose proof (Number_toString_digits Ht Lt) as St.
  pose proof (Number_toString_digits He Le) as Se.
  pose proof (Number_toString_digits Hl Ll) as Sl.
  pose proof (digits_all_digits (time + offset)) as Dt.
  pose proof (digits_all_digits (endTime + offset)) as De.
  pose proof (digits_all_digits lane) as Dl.
  pose proof (parseInt_toString Ht Lt) as Pt.
  pose proof (parseInt_toString He Le) as Pe.
  pose proof (parseInt_toString Hl Ll) as Pl.
  rewrite St in Pt. rewrite Se in Pe. rewrite Sl in Pl.
  split.
  - eexists. split.
    + cbn [ArcaeaEvent_export]. unfold TapNote_export.
      cbn [TapNote.time TapNote.lane]. rewrite number_add_integers.
      rewrite St, Sl. reflexivity.
    + unfold ArcaeaEvent_fromRaw. cbn [append indexOf Ascii.eqb].
      cbn. unfold TapNote_fromRaw.
      change (String "(" (digits (time + offset)
                          ++ String "," (digits lane ++ ");")))
        with ("(" ++ digits (time + offset) ++ "," ++ digits lane ++ ");").
      rewrite (TapNote_regex_digits _ _ Dt Dl).
      unfold arg, group. cbn [Nat.sub nth]. rewrite Pt, Pl. reflexivity.
  - eexists. split.
    + cbn [ArcaeaEvent_export]. unfold HoldNote_export.
      cbn [HoldNote.time HoldNote.endTime HoldNote.lane].
      rewrite !number_add_integers. rewrite St, Se, Sl. reflexivity.
    + unfold ArcaeaEvent_fromRaw.
      set (rest := digits (time + offset) ++ ","
                   ++ digits (endTime + offset) ++ "," ++ digits lane ++ ");").
      change ("hold(" ++ rest)
        with (String "h" (String "o" (String "l" (String "d"
               (String "(" rest))))).
      cbn [indexOf Ascii.eqb Bool.eqb].
      cbn [substring String.eqb Ascii.eqb Bool.eqb andb].
      change (String "h" (String "o" (String "l" (String "d"
               (String "(" rest)))))
        with ("hold(" ++ rest).
      subst rest. unfold HoldNote_fromRaw.
      rewrite (HoldNote_regex_digits _ _ _ Dt De Dl).
      unfold arg, group. cbn [Nat.sub nth]. rewrite Pt, Pe, Pl. reflexivity.
Qed.

Lemma notes_read_back_witness :
  (exists line,
     ArcaeaEvent_export (EvTap (TapNote.new 0 (Dec 1000 0) (Dec 1 0)))
                        (Dec 250 0) = Ok line
     /\ ArcaeaEvent_fromRaw line 0
        = Ok (Some (EvTap (TapNote.new 0 (Dec (1000 + 250) 0) (Dec 1 0)))))
  /\ (exists line,
        ArcaeaEvent_export
          (EvHold (HoldNote.new 0 (Dec 1000 0) (Dec 2000 0) (Dec 1 0)
                                [1250%Z]))
          (Dec 250 0) = Ok line
        /\ ArcaeaEvent_fromRaw line 0
           = Ok (Some (EvHold (HoldNote.new 0 (Dec (1000 + 250) 0)
                                            (Dec (2000 + 250) 0)
                                            (Dec 1 0) [])))).
Proof.
  apply (@notes_read_back 0 1000 2000 1 250 [1250%Z]);
    vm_compute; try split; discriminate.
Defined.
